(** * Falcon engine: expression steps, precompilation, pools and the
      [global] statement

    A shallow embedding of the parts of the Falcon runtime found in
    [expression.cpp], [exprcompare.cpp], [codeframe.h], [error.h],
    [pool.cpp] and [stmtglobal.cpp], followed by the properties proved
    about them. *)

From Stdlib Require Import ZArith Lia SpecFloat.
From stdpp Require Import gmap strings list fin_maps.

(** ** Machine scalars *)

(** [int64], the payload of an integer Item, with two's complement
    wrap-around. *)
Definition INT64_MIN : Z := (- 2 ^ 63)%Z.
Definition INT64_MAX : Z := (2 ^ 63 - 1)%Z.
Definition int64_wrap (z : Z) : Z := ((z + 2 ^ 63) mod 2 ^ 64 - 2 ^ 63)%Z.
Definition in_int64 (z : Z) : Prop := (INT64_MIN <= z <= INT64_MAX)%Z.

(** [int32], the type of [CodeFrame::m_seqId]. *)
Definition INT32_MAX : Z := (2 ^ 31 - 1)%Z.
Definition int32_wrap (z : Z) : Z := ((z + 2 ^ 31) mod 2 ^ 32 - 2 ^ 31)%Z.

(** [uint32], the type of the pool counters. *)
Definition UINT32_MAX : Z := (2 ^ 32 - 1)%Z.
Definition uint32_wrap (z : Z) : Z := (z mod 2 ^ 32)%Z.

(** [numeric] is an IEEE-754 binary64 number. *)
Definition numeric : Type := spec_float.
Definition num_prec : Z := 53%Z.
Definition num_emax : Z := 1024%Z.

Definition num_add : numeric -> numeric -> numeric := SFadd num_prec num_emax.
Definition num_sub : numeric -> numeric -> numeric := SFsub num_prec num_emax.
Definition num_eqb : numeric -> numeric -> bool := SFeqb.
Definition num_ltb : numeric -> numeric -> bool := SFltb.
Definition num_leb : numeric -> numeric -> bool := SFleb.

(** Conversion of an [int64] to [numeric] (round to nearest, ties to even),
    the promotion C++ applies to an integer operand of a mixed operation. *)
Definition num_of_int64 (z : Z) : numeric :=
  binary_normalize num_prec num_emax z 0%Z false.

(** Conversion of a [numeric] to [int64]: the fraction is discarded.  C++
    leaves the conversion undefined for NaN, the infinities and values out
    of range; the value chosen here for them is the one x86-64 produces. *)
Definition int64_of_num (f : numeric) : Z :=
  match f with
  | S754_zero _ => 0%Z
  | S754_infinity _ | S754_nan => INT64_MIN
  | S754_finite s m e =>
      let mag := match e with
                 | Zneg p => (Zpos m / 2 ^ Zpos p)%Z
                 | _ => (Zpos m * 2 ^ e)%Z
                 end in
      let v := if s then (- mag)%Z else mag in
      if ((INT64_MIN <=? v) && (v <=? INT64_MAX))%Z then v else INT64_MIN
  end.

(** ** Items *)

(** Addresses of heap objects (instances, classes, functions, poolables). *)
Definition address : Type := positive.

Inductive ItemType : Type :=
| FLC_ITEM_NIL
| FLC_ITEM_BOOL
| FLC_ITEM_INT
| FLC_ITEM_NUM
| FLC_ITEM_USER
| FLC_ITEM_FRAMING
| FLC_ITEM_FUNC
| FLC_ITEM_METHOD
| FLC_ITEM_BASEMETHOD
| FLC_ITEM_DEEP.

(** Modelled from the spec: the [Item] of [item.h] (missing from the
    sources), a type tag with either an inline scalar payload or, for the
    instance types, the pair (handler class, instance).  The tags are the
    ones the sources name. *)
Inductive Item : Type :=
| ItemNil
| ItemBool (b : bool)
| ItemInt (i : Z)
| ItemNum (n : numeric)
| ItemUser (cls inst : address)
| ItemFraming
| ItemFunc (f : address)
| ItemMethod (self f : address)
| ItemBaseMethod (self f : address)
| ItemDeep (cls inst : address).

Definition Item_type (it : Item) : ItemType :=
  match it with
  | ItemNil => FLC_ITEM_NIL
  | ItemBool _ => FLC_ITEM_BOOL
  | ItemInt _ => FLC_ITEM_INT
  | ItemNum _ => FLC_ITEM_NUM
  | ItemUser _ _ => FLC_ITEM_USER
  | ItemFraming => FLC_ITEM_FRAMING
  | ItemFunc _ => FLC_ITEM_FUNC
  | ItemMethod _ _ => FLC_ITEM_METHOD
  | ItemBaseMethod _ _ => FLC_ITEM_BASEMETHOD
  | ItemDeep _ _ => FLC_ITEM_DEEP
  end.

Definition setBoolean (b : bool) : Item := ItemBool b.
Definition setInteger (z : Z) : Item := ItemInt (int64_wrap z).
Definition setNumeric (n : numeric) : Item := ItemNum n.

(** ** Errors ([error.h]) *)

Inductive ErrorCode : Type := e_invalid_op | e_undef_sym.

Record ErrorParam : Type := mkErrorParam {
  m_errorCode : ErrorCode;
  m_line : Z;
  m_module : string;
  m_symbol : string;
  m_extra : string
}.

(** [ErrorParam( code, line, file )]. *)
Definition ErrorParam_new (code : ErrorCode) (line : Z) (file : string) : ErrorParam :=
  {| m_errorCode := code; m_line := line; m_module := file;
     m_symbol := EmptyString; m_extra := EmptyString |}.

Definition ErrorParam_extra (e : string) (p : ErrorParam) : ErrorParam :=
  {| m_errorCode := m_errorCode p; m_line := m_line p; m_module := m_module p;
     m_symbol := m_symbol p; m_extra := e |}.

Definition ErrorParam_symbol (s : string) (p : ErrorParam) : ErrorParam :=
  {| m_errorCode := m_errorCode p; m_line := m_line p; m_module := m_module p;
     m_symbol := s; m_extra := m_extra p |}.

Inductive Error : Type :=
| OperandError (p : ErrorParam)
| CodeError (p : ErrorParam).

(** ** Comparers ([exprcompare.cpp]) *)

Inductive CompareKind : Type := t_lt | t_le | t_gt | t_ge | t_eq | t_neq.

(** The [comparer] class nested in each comparison expression.  Its
    declaration ([exprcompare.h]) is not part of the available sources;
    the signatures are the ones [generic_simplify] relies on: [pass] is
    applied to two integers (payloads or type tags), [passn] to two
    numerics, [cmpCheck] to the integer result of a three-way comparison. *)
Record comparer : Type := mkComparer {
  pass : Z -> Z -> bool;
  passn : numeric -> numeric -> bool;
  cmpCheck : Z -> bool
}.

(** Modelled from the spec: the six comparers of [exprcompare.h] (missing
    from the sources), each applying the relation its operator is named
    after ("<", "<=", ">", ">=", "==", "!="). *)
Definition comparer_of (k : CompareKind) : comparer :=
  match k with
  | t_lt => mkComparer Z.ltb num_ltb (fun c => (c <? 0)%Z)
  | t_le => mkComparer Z.leb num_leb (fun c => (c <=? 0)%Z)
  | t_gt => mkComparer Z.gtb (fun a b => num_ltb b a) (fun c => (c >? 0)%Z)
  | t_ge => mkComparer Z.geb (fun a b => num_leb b a) (fun c => (c >=? 0)%Z)
  | t_eq => mkComparer Z.eqb num_eqb (fun c => (c =? 0)%Z)
  | t_neq => mkComparer (fun a b => negb (a =? b)%Z)
                        (fun a b => negb (num_eqb a b))
                        (fun c => negb (c =? 0)%Z)
  end.

(** [generic_simplify], once both children simplified to [d1] and [d2]:
    the boolean stored in [value].  [type_code] gives the numeric value of
    a type tag (the tag table is not part of the sources). *)
Definition generic_simplify (cpr : comparer) (type_code : ItemType -> Z)
    (d1 d2 : Item) : Item :=
  match d1, d2 with
  | ItemInt i1, ItemInt i2 => setBoolean (pass cpr i1 i2)
  | ItemInt i1, ItemNum n2 => setBoolean (passn cpr (num_of_int64 i1) n2)
  | ItemNum n1, ItemInt i2 => setBoolean (passn cpr n1 (num_of_int64 i2))
  | ItemNum n1, ItemNum n2 => setBoolean (passn cpr n1 n2)
  | _, _ => setBoolean (pass cpr (type_code (Item_type d1)) (type_code (Item_type d2)))
  end.

(** ** Execution context and steps *)

(** The part of [VMContext] the expression steps act on: the data stack
    (top first) and the sequence id of the current code frame. *)
Record VMContext : Type := mkCtx {
  dataStack : list Item;
  m_seqId : Z
}.

Definition set_seqId (target : Z) (ctx : VMContext) : VMContext :=
  {| dataStack := dataStack ctx; m_seqId := int32_wrap target |}.

(** Operators of the [Class] handler table invoked by the steps. *)
Inductive ClassOp : Type :=
| op_neg | op_inc | op_dec | op_incpost | op_decpost | op_compare.

(** What applying one step does. *)
Inductive Outcome : Type :=
| Normal (ctx : VMContext)
    (** the step returned *)
| Thrown (e : Error)
    (** the step threw *)
| HandlerCall (op : ClassOp) (cls inst : address) (ctx : VMContext)
    (** the step handed the operand to its Class handler *)
| NotEmbedded
    (** the step's [apply_] depends on code outside the sources *)
| Undefined.
    (** the step read an operand the data stack does not hold *)

Inductive UnaryKind : Type :=
| UNot | UNeg | UPreInc | UPostInc | UPreDec | UPostDec
| UDot (prop : string) | UOob | UDeoob | UXorOob | UIsOob.

Inductive BinaryKind : Type :=
| BAnd | BOr | BAssign | BEEQ | BCompare (k : CompareKind)
| BIndex | BStarIndex.

Inductive TernaryKind : Type := TIIF.

(** The steps a [PCode] holds: the expression nodes themselves and the
    gates nested in them.  A gate, and the ternary conditional, carry the
    sequence id recorded at precompilation. *)
Inductive PStep : Type :=
| StepValue (v : Item)
| StepUnary (k : UnaryKind)
| StepBinary (k : BinaryKind)
| StepIIF (m_falseSeqId : Z)
| StepAndGate (m_shortCircuitSeqId : Z)
| StepOrGate (m_shortCircuitSeqId : Z)
| StepPostIncGate
| StepPostDecGate
| StepIIFGate (m_endSeqId : Z).

(** An instance of [Item::isTrue], used to run the examples ([item.h] is
    not part of the sources; the engine below takes the truth function as
    a parameter). *)
Definition sample_isTrue (it : Item) : bool :=
  match it with
  | ItemNil => false
  | ItemBool b => b
  | ItemInt i => negb (i =? 0)%Z
  | ItemNum n => negb (num_eqb n (S754_zero false))
  | _ => true
  end.

(** An instance of [Item::compare], used to run the examples. *)
Definition sample_compare (a b : Item) : Z :=
  match a, b with
  | ItemInt x, ItemInt y => (x - y)%Z
  | _, _ => 1%Z
  end.

(** ** Expression trees and precompilation ([expression.cpp]) *)

Record SourceRef : Type := mkSourceRef { sr_line : Z; sr_chr : Z }.

(** The expression classes of [expression.cpp] and [exprcompare.cpp], by
    base class.  [ExprValue] stands for the leaves, which keep the base
    [Expression::precompile]. *)
Inductive Expression : Type :=
| ExprValue (m_sourceRef : SourceRef) (v : Item)
| UnaryExpression (k : UnaryKind) (m_sourceRef : SourceRef)
    (m_first : Expression)
| BinaryExpression (k : BinaryKind) (m_sourceRef : SourceRef)
    (m_first m_second : Expression)
| TernaryExpression (k : TernaryKind) (m_sourceRef : SourceRef)
    (m_first m_second m_third : Expression).

(** A [PCode] is the sequence of the steps pushed so far. *)
Abbreviation PCode := (list PStep).

Definition pushStep (s : PStep) (pcode : PCode) : PCode := pcode ++ [s].
Definition PCode_size (pcode : PCode) : Z := Z.of_nat (length pcode).

(** The gate and the conditional step are pushed by reference and their
    sequence id is assigned afterwards; the assignment is seen through the
    reference held by the [PCode], at the position the step was pushed.
    A [PCode] of this model holds the steps by value, so the assignment
    reaches that one position.  In the sources it is made to the gate
    object itself: were the node precompiled into a [PCode] that holds a
    reference to its gate already (the same node precompiled twice), the
    earlier entry would show the new id too.  The model is that of a node
    precompiled into a [PCode] holding none of its steps, and what is
    proved of [precompile] below speaks of the steps it appends. *)
Definition assign_seqId (pos : nat) (target : Z) (pcode : PCode) : PCode :=
  match pcode !! pos with
  | Some (StepAndGate _) => <[pos := StepAndGate target]> pcode
  | Some (StepOrGate _) => <[pos := StepOrGate target]> pcode
  | Some (StepIIF _) => <[pos := StepIIF target]> pcode
  | Some (StepIIFGate _) => <[pos := StepIIFGate target]> pcode
  | _ => pcode
  end.

(** [precompile], with the overrides of [ExprAnd], [ExprOr],
    [ExprAssign], [ExprPostInc], [ExprPostDec] and [ExprIIF]; every other
    class inherits the method of its base class. *)
Fixpoint precompile (e : Expression) (pcode : PCode) : PCode :=
  match e with
  | ExprValue _ v =>
      (* Expression::precompile *)
      pushStep (StepValue v) pcode
  | UnaryExpression k _ m_first =>
      match k with
      | UPostInc =>
          let p1 := precompile m_first pcode in
          let p2 := pushStep (StepUnary UPostInc) p1 in
          pushStep StepPostIncGate p2
      | UPostDec =>
          let p1 := precompile m_first pcode in
          let p2 := pushStep (StepUnary UPostDec) p1 in
          pushStep StepPostDecGate p2
      | _ =>
          (* UnaryExpression::precompile *)
          let p1 := precompile m_first pcode in
          pushStep (StepUnary k) p1
      end
  | BinaryExpression k _ m_first m_second =>
      match k with
      | BAnd =>
          let p1 := precompile m_first pcode in
          let gate := length p1 in
          let p2 := pushStep (StepAndGate 0) p1 in
          let p3 := precompile m_second p2 in
          let p4 := pushStep (StepBinary BAnd) p3 in
          assign_seqId gate (PCode_size p4) p4
      | BOr =>
          let p1 := precompile m_first pcode in
          let gate := length p1 in
          let p2 := pushStep (StepOrGate 0) p1 in
          let p3 := precompile m_second p2 in
          let p4 := pushStep (StepBinary BOr) p3 in
          assign_seqId gate (PCode_size p4) p4
      | BAssign =>
          let p1 := precompile m_second pcode in
          precompile m_first p1
      | _ =>
          (* BinaryExpression::precompile *)
          let p1 := precompile m_first pcode in
          let p2 := precompile m_second p1 in
          pushStep (StepBinary k) p2
      end
  | TernaryExpression TIIF _ m_first m_second m_third =>
      let p1 := precompile m_first pcode in
      let self := length p1 in
      let p2 := pushStep (StepIIF 0) p1 in
      let p3 := precompile m_second p2 in
      let gate := length p3 in
      let p4 := pushStep (StepIIFGate 0) p3 in
      let p5 := assign_seqId self (PCode_size p4) p4 in
      let p6 := precompile m_third p5 in
      assign_seqId gate (PCode_size p6) p6
  end.

(** [TernaryExpression::precompile], the method of the base class, which
    [ExprIIF] (the one ternary class of the sources) overrides. *)
Definition TernaryExpression_precompile (self : PStep)
    (m_first m_second m_third : Expression) (pcode : PCode) : PCode :=
  let p1 := precompile m_first pcode in
  let p2 := precompile m_second p1 in
  let p3 := precompile m_third p2 in
  pushStep self p3.

(** The step a node pushes for itself. *)
Definition own_step (e : Expression) : PStep :=
  match e with
  | ExprValue _ v => StepValue v
  | UnaryExpression k _ _ => StepUnary k
  | BinaryExpression k _ _ _ => StepBinary k
  | TernaryExpression TIIF _ _ _ _ => StepIIF 0
  end.

(** Whether a class keeps the [precompile] of its base class. *)
Definition inherits_precompile (e : Expression) : bool :=
  match e with
  | ExprValue _ _ => true
  | UnaryExpression (UPostInc | UPostDec) _ _ => false
  | UnaryExpression _ _ _ => true
  | BinaryExpression (BAnd | BOr | BAssign) _ _ _ => false
  | BinaryExpression _ _ _ _ => true
  | TernaryExpression TIIF _ _ _ _ => false
  end.

(** Every node of the tree keeps the [precompile] of its base class. *)
Fixpoint plain (e : Expression) : bool :=
  inherits_precompile e &&
  match e with
  | ExprValue _ _ => true
  | UnaryExpression _ _ a => plain a
  | BinaryExpression _ _ a b => plain a && plain b
  | TernaryExpression _ _ a b c => plain a && plain b && plain c
  end.

(** The depth-first linearization in the words of the specification:
    the steps of each child, first to last, then the step of the parent. *)
Fixpoint depth_first_linearization (e : Expression) : list PStep :=
  match e with
  | ExprValue _ _ => [own_step e]
  | UnaryExpression _ _ a => depth_first_linearization a ++ [own_step e]
  | BinaryExpression _ _ a b =>
      depth_first_linearization a ++ depth_first_linearization b ++ [own_step e]
  | TernaryExpression _ _ a b c =>
      depth_first_linearization a ++ depth_first_linearization b ++
      depth_first_linearization c ++ [own_step e]
  end.

(** Number of steps a node emits. *)
Fixpoint code_size (e : Expression) : nat :=
  match e with
  | ExprValue _ _ => 1
  | UnaryExpression (UPostInc | UPostDec) _ a => code_size a + 2
  | UnaryExpression _ _ a => code_size a + 1
  | BinaryExpression (BAnd | BOr) _ a b => code_size a + 1 + code_size b + 1
  | BinaryExpression BAssign _ a b => code_size b + code_size a
  | BinaryExpression _ _ a b => code_size a + code_size b + 1
  | TernaryExpression TIIF _ a b c =>
      code_size a + 1 + code_size b + 1 + code_size c
  end.

(** The steps a node emits when the [PCode] already holds [base] steps,
    with the sequence ids in their final state. *)
Fixpoint code (e : Expression) (base : nat) : list PStep :=
  match e with
  | ExprValue _ v => [StepValue v]
  | UnaryExpression k _ a =>
      match k with
      | UPostInc => code a base ++ [StepUnary UPostInc; StepPostIncGate]
      | UPostDec => code a base ++ [StepUnary UPostDec; StepPostDecGate]
      | _ => code a base ++ [StepUnary k]
      end
  | BinaryExpression k _ a b =>
      match k with
      | BAnd =>
          code a base ++
          [StepAndGate (Z.of_nat (base + code_size a + 1 + code_size b + 1))] ++
          code b (base + code_size a + 1) ++ [StepBinary BAnd]
      | BOr =>
          code a base ++
          [StepOrGate (Z.of_nat (base + code_size a + 1 + code_size b + 1))] ++
          code b (base + code_size a + 1) ++ [StepBinary BOr]
      | BAssign => code b base ++ code a (base + code_size b)
      | _ => code a base ++ code b (base + code_size a) ++ [StepBinary k]
      end
  | TernaryExpression TIIF _ a b c =>
      code a base ++
      [StepIIF (Z.of_nat (base + code_size a + 1 + code_size b + 1))] ++
      code b (base + code_size a + 1) ++
      [StepIIFGate (Z.of_nat (base + code_size a + 1 + code_size b + 1 + code_size c))] ++
      code c (base + code_size a + 1 + code_size b + 1)
  end.

(** The gates are the steps that belong to no node of their own. *)
Definition is_gate (ps : PStep) : bool :=
  match ps with
  | StepAndGate _ | StepOrGate _ | StepPostIncGate | StepPostDecGate
  | StepIIFGate _ => true
  | _ => false
  end.

Definition without_gates (l : list PStep) : list PStep :=
  List.filter (fun ps => negb (is_gate ps)) l.

(** No node of the tree is an assignment or a ternary conditional. *)
Fixpoint ordered (e : Expression) : bool :=
  match e with
  | ExprValue _ _ => true
  | UnaryExpression _ _ a => ordered a
  | BinaryExpression BAssign _ _ _ => false
  | BinaryExpression _ _ a b => ordered a && ordered b
  | TernaryExpression TIIF _ _ _ _ => false
  end.

(** Made of values, [not], [and], [or], [===] and [?:] only: the nodes
    whose steps neither throw nor call a handler. *)
Fixpoint pure (e : Expression) : bool :=
  match e with
  | ExprValue _ _ => true
  | UnaryExpression UNot _ a => pure a
  | UnaryExpression _ _ _ => false
  | BinaryExpression (BAnd | BOr | BEEQ) _ a b => pure a && pure b
  | BinaryExpression _ _ _ _ => false
  | TernaryExpression TIIF _ a b c => pure a && pure b && pure c
  end.

(** The steps of the children of a node, each precompiled in turn: first,
    second, third. *)
Definition children_steps (e : Expression) : list PStep :=
  match e with
  | ExprValue _ _ => []
  | UnaryExpression _ _ a => precompile a []
  | BinaryExpression _ _ a b => precompile b (precompile a [])
  | TernaryExpression _ _ a b c => precompile c (precompile b (precompile a []))
  end.

(** A node is flattened children first when what [precompile] emits for
    it is the steps of its children, first to last, followed by one step
    of its own. *)
Definition children_first (e : Expression) : Prop :=
  exists own, precompile e [] = children_steps e ++ [own].

(** The steps [precompile] appends to [pcode] for [e]. *)
Definition appended (e : Expression) (pcode : PCode) : list PStep :=
  drop (length pcode) (precompile e pcode).

(** The steps appended for the children of a node, each child precompiled
    into what the children before it left: first, second, third. *)
Definition appended_children (e : Expression) (pcode : PCode) : list PStep :=
  match e with
  | ExprValue _ _ => []
  | UnaryExpression _ _ a => appended a pcode
  | BinaryExpression _ _ a b => appended a pcode ++ appended b (precompile a pcode)
  | TernaryExpression _ _ a b c =>
      appended a pcode ++ appended b (precompile a pcode)
      ++ appended c (precompile b (precompile a pcode))
  end.

(** A step without the sequence id it records. *)
Definition forget_seqId (ps : PStep) : PStep :=
  match ps with
  | StepIIF _ => StepIIF 0
  | StepAndGate _ => StepAndGate 0
  | StepOrGate _ => StepOrGate 0
  | StepIIFGate _ => StepIIFGate 0
  | _ => ps
  end.

(** Some node of the tree is an assignment. *)
Fixpoint has_assignment (e : Expression) : bool :=
  match e with
  | ExprValue _ _ => false
  | UnaryExpression _ _ a => has_assignment a
  | BinaryExpression BAssign _ _ _ => true
  | BinaryExpression _ _ a b => has_assignment a || has_assignment b
  | TernaryExpression _ _ a b c =>
      has_assignment a || has_assignment b || has_assignment c
  end.

(** ** The steps' [apply_] functions *)

Definition invalid_operand (line : Z) (symbol : string) : Error :=
  OperandError (ErrorParam_extra symbol (ErrorParam_new e_invalid_op line EmptyString)).

(** Replace the topmost item of the data stack. *)
Definition with_top (it : Item) (rest : list Item) (ctx : VMContext) : VMContext :=
  {| dataStack := it :: rest; m_seqId := m_seqId ctx |}.

Definition with_stack (st : list Item) (ctx : VMContext) : VMContext :=
  {| dataStack := st; m_seqId := m_seqId ctx |}.

(** Modelled from the spec: the step of a value leaf pushes its Item on
    the data stack, the [push 3] of the specification's scenarios (the leaf
    classes are missing from the sources). *)
Definition ExprValue_apply_ (v : Item) (ctx : VMContext) : Outcome :=
  Normal (with_stack (v :: dataStack ctx) ctx).

Section Engine.

(** [Item::isTrue] and [Item::compare] are declared in [item.h], which is
    not part of the sources: the engine is parametric in them.  Both are
    [const] methods taking no virtual machine, hence functions of the
    items alone. *)
Variable isTrue : Item -> bool.
Variable Item_compare : Item -> Item -> Z.

Definition ExprNot_apply_ (ctx : VMContext) : Outcome :=
  match dataStack ctx with
  | operand :: rest => Normal (with_top (setBoolean (negb (isTrue operand))) rest ctx)
  | [] => Undefined
  end.

Definition ExprAnd_apply_ (ctx : VMContext) : Outcome :=
  match dataStack ctx with
  | operand :: rest => Normal (with_top (setBoolean (isTrue operand)) rest ctx)
  | [] => Undefined
  end.

Definition ExprAnd_Gate_apply_ (m_shortCircuitSeqId : Z) (ctx : VMContext) : Outcome :=
  match dataStack ctx with
  | operand :: rest =>
      if negb (isTrue operand)
      then Normal (set_seqId m_shortCircuitSeqId (with_top (setBoolean false) rest ctx))
      else Normal (with_stack rest ctx)
  | [] => Undefined
  end.

Definition ExprOr_apply_ (ctx : VMContext) : Outcome :=
  match dataStack ctx with
  | operand :: rest => Normal (with_top (setBoolean (isTrue operand)) rest ctx)
  | [] => Undefined
  end.

Definition ExprOr_Gate_apply_ (m_shortCircuitSeqId : Z) (ctx : VMContext) : Outcome :=
  match dataStack ctx with
  | operand :: rest =>
      if isTrue operand
      then Normal (set_seqId m_shortCircuitSeqId (with_top (setBoolean true) rest ctx))
      else Normal (with_stack rest ctx)
  | [] => Undefined
  end.

Definition ExprNeg_apply_ (ctx : VMContext) : Outcome :=
  match dataStack ctx with
  | item :: rest =>
      match item with
      | ItemInt i => Normal (with_top (setInteger (- i)) rest ctx)
      | ItemNum n => Normal (with_top (setNumeric (SFopp n)) rest ctx)
      | ItemDeep cls inst => HandlerCall op_neg cls inst ctx
      | ItemUser cls inst => HandlerCall op_neg cls inst ctx
      | _ => Thrown (invalid_operand 439 "neg")
      end
  | [] => Undefined
  end.

Definition ExprPreInc_apply_ (ctx : VMContext) : Outcome :=
  match dataStack ctx with
  | item :: rest =>
      match item with
      | ItemInt i => Normal (with_top (setInteger (i + 1)) rest ctx)
      | ItemNum n => Normal (with_top (setNumeric (num_add n (num_of_int64 1))) rest ctx)
      | ItemDeep cls inst => HandlerCall op_inc cls inst ctx
      | ItemUser cls inst => HandlerCall op_inc cls inst ctx
      | _ => Thrown (invalid_operand 487 "preinc")
      end
  | [] => Undefined
  end.

(** [ExprPostInc::apply_] only binds a reference to the top item. *)
Definition ExprPostInc_apply_ (ctx : VMContext) : Outcome := Normal ctx.

Definition ExprPostInc_Gate_apply_ (ctx : VMContext) : Outcome :=
  match dataStack ctx with
  | operand :: rest =>
      match operand with
      | ItemInt i => Normal (with_top (setInteger (i + 1)) rest ctx)
      | ItemNum n => Normal (with_top (setNumeric (num_add n (num_of_int64 1))) rest ctx)
      | ItemDeep cls inst => HandlerCall op_incpost cls inst ctx
      | ItemUser cls inst => HandlerCall op_incpost cls inst ctx
      | _ => Thrown (invalid_operand 567 "postinc")
      end
  | [] => Undefined
  end.

Definition ExprPreDec_apply_ (ctx : VMContext) : Outcome :=
  match dataStack ctx with
  | item :: rest =>
      match item with
      | ItemInt i => Normal (with_top (setInteger (i - 1)) rest ctx)
      | ItemNum n => Normal (with_top (setNumeric (num_sub n (num_of_int64 1))) rest ctx)
      | ItemDeep cls inst => HandlerCall op_dec cls inst ctx
      | ItemUser cls inst => HandlerCall op_dec cls inst ctx
      | _ => Thrown (invalid_operand 610 "predec")
      end
  | [] => Undefined
  end.

Definition ExprPostDec_apply_ (ctx : VMContext) : Outcome := Normal ctx.

Definition ExprPostDec_Gate_apply_ (ctx : VMContext) : Outcome :=
  match dataStack ctx with
  | operand :: rest =>
      match operand with
      | ItemInt i => Normal (with_top (setInteger (i - 1)) rest ctx)
      | ItemNum n => Normal (with_top (setNumeric (num_sub n (num_of_int64 1))) rest ctx)
      | ItemDeep cls inst => HandlerCall op_decpost cls inst ctx
      | ItemUser cls inst => HandlerCall op_decpost cls inst ctx
      | _ => Thrown (invalid_operand 690 "postdec")
      end
  | [] => Undefined
  end.

(** The boolean [ExprEEQ::apply_] stores in its first operand.  The
    [switch] is on the two type tags joined in one word; the tags are
    distinct values below 256, so a case label stands for one pair. *)
Definition ExprEEQ_result (op1 op2 : Item) : bool :=
  match op1, op2 with
  | ItemNil, ItemNil => true
  | ItemBool b1, ItemBool b2 => Bool.eqb b1 b2
  | ItemInt i1, ItemInt i2 => (i1 =? i2)%Z
  | ItemNum n1, ItemNum n2 => num_eqb n1 n2
  | ItemDeep _ inst1, ItemDeep _ inst2 => bool_decide (inst1 = inst2)
  | ItemUser _ inst1, ItemUser _ inst2 => bool_decide (inst1 = inst2)
  | _, _ => false
  end.

(** [vm->operands( op1, op2 )] yields the two topmost items, [op2] being
    the top; the final [popData] removes [op2]. *)
Definition ExprEEQ_apply_ (ctx : VMContext) : Outcome :=
  match dataStack ctx with
  | op2 :: op1 :: rest =>
      Normal (with_stack (setBoolean (ExprEEQ_result op1 op2) :: rest) ctx)
  | _ => Undefined
  end.

(** [generic_apply_<__CPR>]. *)
Definition generic_apply_ (cpr : comparer) (ctx : VMContext) : Outcome :=
  match dataStack ctx with
  | op2 :: op1 :: rest =>
      match op1, op2 with
      | ItemInt i1, ItemInt i2 =>
          Normal (with_stack (setBoolean (pass cpr i1 i2) :: rest) ctx)
      | ItemInt i1, ItemNum n2 =>
          Normal (with_stack (setBoolean (pass cpr i1 (int64_of_num n2)) :: rest) ctx)
      | ItemNum n1, ItemInt i2 =>
          Normal (with_stack (setBoolean (pass cpr (int64_of_num n1) i2) :: rest) ctx)
      | ItemNum n1, ItemNum n2 =>
          Normal (with_stack
                    (setBoolean (pass cpr (int64_of_num n1) (int64_of_num n2)) :: rest) ctx)
      | ItemDeep cls inst,
        (ItemNil | ItemBool _ | ItemInt _ | ItemNum _ | ItemMethod _ _ | ItemFunc _
         | ItemBaseMethod _ _ | ItemDeep _ _ | ItemUser _ _) =>
          HandlerCall op_compare cls inst ctx
      | ItemUser cls inst,
        (ItemNil | ItemBool _ | ItemInt _ | ItemNum _ | ItemMethod _ _ | ItemFunc _
         | ItemBaseMethod _ _ | ItemDeep _ _ | ItemUser _ _) =>
          HandlerCall op_compare cls inst ctx
      | _, _ =>
          Normal (with_stack
                    (setBoolean (cmpCheck cpr (Item_compare op1 op2)) :: rest) ctx)
      end
  | _ => Undefined
  end.

(** What [generic_apply_] does once [op_compare] has returned: the top
    item, asserted to be an integer, becomes the boolean.  The [user]
    branch passes the truth value of [asInteger() < 0] to [cmpCheck]. *)
Definition generic_apply_resume (cpr : comparer) (user : bool) (ctx : VMContext) : Outcome :=
  match dataStack ctx with
  | ItemInt i :: rest =>
      let arg := if user then (if (i <? 0)%Z then 1%Z else 0%Z) else i in
      Normal (with_top (setBoolean (cmpCheck cpr arg)) rest ctx)
  | _ => Undefined
  end.

Definition ExprIIF_apply_ (m_falseSeqId : Z) (ctx : VMContext) : Outcome :=
  match dataStack ctx with
  | cond :: rest =>
      if negb (isTrue cond)
      then Normal (set_seqId m_falseSeqId (with_stack rest ctx))
      else Normal (with_stack rest ctx)
  | [] => Undefined
  end.

Definition ExprIIF_Gate_apply_ (m_endSeqId : Z) (ctx : VMContext) : Outcome :=
  Normal (set_seqId m_endSeqId ctx).

(** Dispatch through the [apply] pointer of the step. *)
Definition apply_ (ps : PStep) (ctx : VMContext) : Outcome :=
  match ps with
  | StepValue v => ExprValue_apply_ v ctx
  | StepUnary UNot => ExprNot_apply_ ctx
  | StepUnary UNeg => ExprNeg_apply_ ctx
  | StepUnary UPreInc => ExprPreInc_apply_ ctx
  | StepUnary UPostInc => ExprPostInc_apply_ ctx
  | StepUnary UPreDec => ExprPreDec_apply_ ctx
  | StepUnary UPostDec => ExprPostDec_apply_ ctx
  | StepUnary _ => NotEmbedded
  | StepBinary BAnd => ExprAnd_apply_ ctx
  | StepBinary BOr => ExprOr_apply_ ctx
  | StepBinary BEEQ => ExprEEQ_apply_ ctx
  | StepBinary (BCompare k) => generic_apply_ (comparer_of k) ctx
  | StepBinary _ => NotEmbedded
  | StepIIF target => ExprIIF_apply_ target ctx
  | StepAndGate target => ExprAnd_Gate_apply_ target ctx
  | StepOrGate target => ExprOr_Gate_apply_ target ctx
  | StepPostIncGate => ExprPostInc_Gate_apply_ ctx
  | StepPostDecGate => ExprPostDec_Gate_apply_ ctx
  | StepIIFGate target => ExprIIF_Gate_apply_ target ctx
  end.

(** ** Running a [PCode] *)

Definition fetch (pcode : PCode) (ctx : VMContext) : option PStep :=
  if (0 <=? m_seqId ctx)%Z then pcode !! Z.to_nat (m_seqId ctx) else None.

Definition advance (ctx : VMContext) : VMContext :=
  {| dataStack := dataStack ctx; m_seqId := (m_seqId ctx + 1)%Z |}.

Inductive RunResult : Type :=
| Completed (ctx : VMContext)
| Interrupted (o : Outcome)
| OutOfFuel.

(** Modelled from the spec: [PCode::apply_] (missing from the sources),
    the loop that "executes the next step of the top frame": while the
    sequence id is below the size of the sequence, the step at the
    sequence id is taken, the id advances by one and the step is applied,
    so that a step assigning the id decides which step comes next; the
    frame is completed when the id reaches the size.  The first component
    of the result lists the sequence ids of the steps executed. *)
Fixpoint PCode_apply_ (fuel : nat) (pcode : PCode) (ctx : VMContext)
    : list Z * RunResult :=
  match fuel with
  | O => ([], OutOfFuel)
  | S fuel' =>
      if (m_seqId ctx <? PCode_size pcode)%Z then
        match fetch pcode ctx with
        | None => ([], Interrupted Undefined)
        | Some ps =>
            match apply_ ps (advance ctx) with
            | Normal ctx' =>
                let (tr, r) := PCode_apply_ fuel' pcode ctx' in
                (m_seqId ctx :: tr, r)
            | o => ([m_seqId ctx], Interrupted o)
            end
        end
      else ([], Completed ctx)
  end.

(** The same loop as a relation: [exec pcode ctx tr ctx'] when the steps
    at the sequence ids [tr] lead from [ctx] to [ctx'], each returning
    normally. *)
Inductive exec (pcode : PCode) : VMContext -> list Z -> VMContext -> Prop :=
| exec_done ctx : exec pcode ctx [] ctx
| exec_step ctx ps ctx1 tr ctx2 :
    fetch pcode ctx = Some ps ->
    apply_ ps (advance ctx) = Normal ctx1 ->
    exec pcode ctx1 tr ctx2 ->
    exec pcode ctx (m_seqId ctx :: tr) ctx2.

(** The steps of [pcode] from sequence id [from] up to [to] evaluate to
    [v]: started at [from] on the stack [st], execution reaches [to] with
    [v] pushed on [st]. *)
Definition evaluates (pcode : PCode) (from to : Z) (st : list Item) (v : Item) : Prop :=
  exists tr, exec pcode (mkCtx st from) tr (mkCtx (v :: st) to).

(** The sequence id a step may assign. *)
Definition jump_target (ps : PStep) : option Z :=
  match ps with
  | StepIIF t | StepAndGate t | StepOrGate t | StepIIFGate t => Some t
  | _ => None
  end.

End Engine.

(** From sequence id [lo] on, every sequence id a step of [pcode] may
    assign lies after the step and is an [int32]. *)
Definition forward_from (pcode : PCode) (lo : Z) : Prop :=
  forall (i : nat) ps t,
    (lo <= Z.of_nat i)%Z -> pcode !! i = Some ps -> jump_target ps = Some t ->
    (Z.of_nat i < t <= INT32_MAX)%Z.

(** ** Serialization of expression trees ([expression.cpp]) *)

(** The unary classes, as the operator byte tells them apart: the byte
    names the class of a node and none of its fields, so it does not hold
    the property name of an [ExprDot]. *)
Inductive UnaryOperator : Type :=
| o_not | o_neg | o_preinc | o_postinc | o_predec | o_postdec
| o_dot | o_oob | o_deoob | o_xoroob | o_isoob.

Definition UnaryKind_operator (k : UnaryKind) : UnaryOperator :=
  match k with
  | UNot => o_not
  | UNeg => o_neg
  | UPreInc => o_preinc
  | UPostInc => o_postinc
  | UPreDec => o_predec
  | UPostDec => o_postdec
  | UDot _ => o_dot
  | UOob => o_oob
  | UDeoob => o_deoob
  | UXorOob => o_xoroob
  | UIsOob => o_isoob
  end.

(** Modelled from the spec: the node [ExprFactory] creates for a unary
    operator byte.  [expression.cpp] gives [ExprDot] no [serialize] or
    [deserialize] of its own, so the property name is neither written nor
    read; the node created has the name its constructor leaves, taken to
    be the empty string. *)
Definition UnaryOperator_create (o : UnaryOperator) : UnaryKind :=
  match o with
  | o_not => UNot
  | o_neg => UNeg
  | o_preinc => UPreInc
  | o_postinc => UPostInc
  | o_predec => UPreDec
  | o_postdec => UPostDec
  | o_dot => UDot EmptyString
  | o_oob => UOob
  | o_deoob => UDeoob
  | o_xoroob => UXorOob
  | o_isoob => UIsOob
  end.

(** [m_operator]: the class of a node. *)
Inductive operator_t : Type :=
| t_value
| t_unary (o : UnaryOperator)
| t_binary (k : BinaryKind)
| t_ternary (k : TernaryKind).

(** What a [DataWriter] receives, in the order written: the operator byte,
    a source reference, the payload of a leaf. *)
Inductive Datum : Type :=
| DOperator (op : operator_t)
| DSourceRef (sr : SourceRef)
| DItem (v : Item).

Definition Expression_operator (e : Expression) : operator_t :=
  match e with
  | ExprValue _ _ => t_value
  | UnaryExpression k _ _ => t_unary (UnaryKind_operator k)
  | BinaryExpression k _ _ _ => t_binary k
  | TernaryExpression k _ _ _ _ => t_ternary k
  end.

Definition Expression_sourceRef (e : Expression) : SourceRef :=
  match e with
  | ExprValue sr _ | UnaryExpression _ sr _ | BinaryExpression _ sr _ _
  | TernaryExpression _ sr _ _ _ => sr
  end.

(** [Expression::serialize]: the operator byte, then the source reference. *)
Definition Expression_serialize (e : Expression) : list Datum :=
  [DOperator (Expression_operator e); DSourceRef (Expression_sourceRef e)].

(** [serialize] of the three base classes.  The leaf writes its Item after
    the base part (its class is missing from the sources). *)
Fixpoint serialize (e : Expression) : list Datum :=
  match e with
  | ExprValue _ v => Expression_serialize e ++ [DItem v]
  | UnaryExpression _ _ m_first =>
      Expression_serialize e ++ serialize m_first
  | BinaryExpression _ _ m_first m_second =>
      Expression_serialize e ++ serialize m_first ++ serialize m_second
  | TernaryExpression _ _ m_first m_second m_third =>
      Expression_serialize e ++
      serialize m_third ++ serialize m_second ++ serialize m_first
  end.

(** Modelled from the spec: [ExprFactory::deserialize] (missing from the
    sources), together with the [deserialize] methods it calls.  The spec
    leaves the stream format open; the factory does what the methods of
    [expression.cpp] require of it: it reads the operator byte
    [Expression::serialize] wrote, which [Expression::deserialize] leaves
    unread, creates a node of that class and lets it read itself.  Each
    class reads the source reference ([Expression::deserialize]) and then
    its children through the factory: first, second, third. *)
Fixpoint ExprFactory_deserialize (fuel : nat) (s : list Datum)
    : option (Expression * list Datum) :=
  match fuel with
  | O => None
  | S fuel' =>
      match s with
      | DOperator op :: DSourceRef sr :: s1 =>
          match op with
          | t_value =>
              match s1 with
              | DItem v :: s2 => Some (ExprValue sr v, s2)
              | _ => None
              end
          | t_unary o =>
              match ExprFactory_deserialize fuel' s1 with
              | Some (m_first, s2) =>
                  Some (UnaryExpression (UnaryOperator_create o) sr m_first, s2)
              | None => None
              end
          | t_binary k =>
              match ExprFactory_deserialize fuel' s1 with
              | Some (m_first, s2) =>
                  match ExprFactory_deserialize fuel' s2 with
                  | Some (m_second, s3) =>
                      Some (BinaryExpression k sr m_first m_second, s3)
                  | None => None
                  end
              | None => None
              end
          | t_ternary k =>
              match ExprFactory_deserialize fuel' s1 with
              | Some (m_first, s2) =>
                  match ExprFactory_deserialize fuel' s2 with
                  | Some (m_second, s3) =>
                      match ExprFactory_deserialize fuel' s3 with
                      | Some (m_third, s4) =>
                          Some (TernaryExpression k sr m_first m_second m_third, s4)
                      | None => None
                      end
                  | None => None
                  end
              | None => None
              end
          end
      | _ => None
      end
  end.

(** Reading back a whole stream: a node takes at least one datum, so the
    length of the stream bounds the depth of the recursion. *)
Definition deserialize (s : list Datum) : option Expression :=
  match ExprFactory_deserialize (length s) s with
  | Some (e, []) => Some e
  | _ => None
  end.

Definition m_first_of (e : Expression) : option Expression :=
  match e with
  | UnaryExpression _ _ a | BinaryExpression _ _ a _
  | TernaryExpression _ _ a _ _ => Some a
  | _ => None
  end.

Definition m_second_of (e : Expression) : option Expression :=
  match e with
  | BinaryExpression _ _ _ b | TernaryExpression _ _ _ b _ => Some b
  | _ => None
  end.

Definition m_third_of (e : Expression) : option Expression :=
  match e with
  | TernaryExpression _ _ _ _ c => Some c
  | _ => None
  end.

(** The tree read back from the stream a tree was written to: at every
    ternary node the first and the third child have changed places, and
    a property access has the name of a newly created node. *)
Fixpoint read_back (e : Expression) : Expression :=
  match e with
  | ExprValue sr v => ExprValue sr v
  | UnaryExpression k sr a =>
      UnaryExpression (UnaryOperator_create (UnaryKind_operator k)) sr (read_back a)
  | BinaryExpression k sr a b => BinaryExpression k sr (read_back a) (read_back b)
  | TernaryExpression k sr a b c =>
      TernaryExpression k sr (read_back c) (read_back b) (read_back a)
  end.

(** ** Pool ([pool.cpp]) *)

(** A pool and the memory it works on.  [m_head] is [None] for the null
    pointer; [m_next] gives the [m_next] field of every live [Poolable];
    [deleted] lists the objects passed to [delete], latest first.  Each
    operation runs under the mutex of the pool and is one atomic
    transition. *)
Record Pool : Type := mkPool {
  m_head : option address;
  m_size : Z;
  m_maxSize : Z;
  m_next : gmap address (option address);
  deleted : list address
}.

(** [Pool::Pool( maxSize )], on the memory [heap]. *)
Definition Pool_new (maxSize : Z) (heap : gmap address (option address)) : Pool :=
  {| m_head := None; m_size := 0; m_maxSize := maxSize;
     m_next := heap; deleted := [] |}.

Definition Pool_size (p : Pool) : Z := m_size p.

(** [p->m_next]; an object that is not alive has no successor. *)
Definition next_of (heap : gmap address (option address)) (p : address) : option address :=
  default None (heap !! p).

Definition Pool_get (p : Pool) : Pool * option address :=
  match m_head p with
  | Some h =>
      ({| m_head := next_of (m_next p) h;
          m_size := uint32_wrap (m_size p - 1);
          m_maxSize := m_maxSize p;
          m_next := m_next p;
          deleted := deleted p |}, Some h)
  | None => (p, None)
  end.

Definition Pool_release (data : address) (p : Pool) : Pool :=
  if (m_size p <? m_maxSize p)%Z then
    {| m_head := Some data;
       m_size := uint32_wrap (m_size p + 1);
       m_maxSize := m_maxSize p;
       m_next := <[data := m_head p]> (m_next p);
       deleted := deleted p |}
  else
    {| m_head := m_head p;
       m_size := m_size p;
       m_maxSize := m_maxSize p;
       m_next := delete data (m_next p);
       deleted := data :: deleted p |}.

(** The objects reachable from [h] through [m_next], at most [n] of them. *)
Fixpoint chain (n : nat) (heap : gmap address (option address)) (h : option address)
    : list address :=
  match n, h with
  | S n', Some p => p :: chain n' heap (next_of heap p)
  | _, _ => []
  end.

(** The free list of the pool. *)
Definition retained (p : Pool) : list address :=
  chain (Z.to_nat (m_size p)) (m_next p) (m_head p).

(** [l] is the free list starting at [h], ended by the null pointer. *)
Fixpoint is_chain (heap : gmap address (option address)) (h : option address)
    (l : list address) : Prop :=
  match l with
  | [] => h = None
  | x :: l' => h = Some x /\ exists n, heap !! x = Some n /\ is_chain heap n l'
  end.

(** The pool holds exactly the distinct objects [l], within its bound. *)
Definition holds (p : Pool) (l : list address) : Prop :=
  is_chain (m_next p) (m_head p) l /\ NoDup l /\
  m_size p = Z.of_nat (length l) /\
  (Z.of_nat (length l) <= m_maxSize p <= UINT32_MAX)%Z.

(** The operations a client performs on a pool. *)
Inductive PoolOp : Type :=
| OpRelease (data : address)
| OpGet.

Definition Pool_step (op : PoolOp) (p : Pool) : Pool :=
  match op with
  | OpRelease data => Pool_release data p
  | OpGet => fst (Pool_get p)
  end.

(** A client never releases an object the pool already holds. *)
Fixpoint well_used (ops : list PoolOp) (p : Pool) : Prop :=
  match ops with
  | [] => True
  | op :: ops' =>
      match op with
      | OpRelease data => data ∉ retained p
      | OpGet => True
      end /\ well_used ops' (Pool_step op p)
  end.

Definition Pool_run (ops : list PoolOp) (p : Pool) : Pool :=
  foldl (fun p op => Pool_step op p) p ops.

(** ** The [global] statement ([stmtglobal.cpp]) *)

Record Function : Type := mkFunction {
  function_name : string;
  (** name of the module of the function, [None] without a module *)
  function_module : option string
}.

(** The part of [VMContext] the statement acts on: the depth of the code
    stack, the slots of the variables in the global scope and in the local
    frame, the slot each symbol is bound to, the function of the current
    frame, and the error raised. *)
Record GlobalContext : Type := mkGlobalContext {
  codeDepth : nat;
  globals : gmap string address;
  locals : gmap string address;
  bindings : gmap string address;
  currentFunction : Function;
  raised : option Error
}.

Definition popCode (ctx : GlobalContext) : GlobalContext :=
  {| codeDepth := pred (codeDepth ctx); globals := globals ctx;
     locals := locals ctx; bindings := bindings ctx;
     currentFunction := currentFunction ctx; raised := raised ctx |}.

(** Modelled from the spec: [VMContext::resolveVariable( name, global,
    local )] (missing from the sources).  With [global] set the name is
    resolved in the global scope of the module, whatever the local frame
    holds; with [local] set in the local frame alone; otherwise in the
    local frame and then in the global scope. *)
Definition resolveVariable (name : string) (bGlobal bLocal : bool)
    (ctx : GlobalContext) : option address :=
  if bGlobal then globals ctx !! name
  else if bLocal then locals ctx !! name
  else match locals ctx !! name with
       | Some d => Some d
       | None => globals ctx !! name
       end.

(** Modelled from the spec: [VMContext::defineSymbol( sym, data )]
    (missing from the sources) binds the symbol to the slot [data]. *)
Definition defineSymbol (sym : string) (data : address) (ctx : GlobalContext)
    : GlobalContext :=
  {| codeDepth := codeDepth ctx; globals := globals ctx;
     locals := locals ctx; bindings := <[sym := data]> (bindings ctx);
     currentFunction := currentFunction ctx; raised := raised ctx |}.

Definition raiseError (e : Error) (ctx : GlobalContext) : GlobalContext :=
  {| codeDepth := codeDepth ctx; globals := globals ctx;
     locals := locals ctx; bindings := bindings ctx;
     currentFunction := currentFunction ctx; raised := Some e |}.

(** The error of an undefined symbol: module and name of the current
    function, the symbol as extra text. *)
Definition undefined_symbol (line : Z) (ctx : GlobalContext) (sym : string) : Error :=
  let current := currentFunction ctx in
  let name := match function_module current with
              | Some m => m
              | None => EmptyString
              end in
  CodeError (ErrorParam_extra sym
               (ErrorParam_symbol (function_name current)
                  (ErrorParam_new e_undef_sym line name))).

(** The loop of [StmtGlobal::apply_] over the symbols left to bind. *)
Fixpoint StmtGlobal_loop (line : Z) (symbols : list string) (ctx : GlobalContext)
    : GlobalContext :=
  match symbols with
  | [] => ctx
  | sym :: rest =>
      match resolveVariable sym true false ctx with
      | None => raiseError (undefined_symbol line ctx sym) ctx
      | Some data => StmtGlobal_loop line rest (defineSymbol sym data ctx)
      end
  end.

(** [StmtGlobal::apply_] for the statement at [line] listing [symbols]. *)
Definition StmtGlobal_apply_ (line : Z) (symbols : list string) (ctx : GlobalContext)
    : GlobalContext :=
  StmtGlobal_loop line symbols (popCode ctx).

(** ** Further definitions *)

(** Adding [k] to the sequence id a step holds. *)
Definition shift_step (k : Z) (ps : PStep) : PStep :=
  match ps with
  | StepIIF t => StepIIF (t + k)
  | StepAndGate t => StepAndGate (t + k)
  | StepOrGate t => StepOrGate (t + k)
  | StepIIFGate t => StepIIFGate (t + k)
  | _ => ps
  end.

(** What the loop returns once the step applied has returned, thrown or
    called a handler. *)
Definition after_step (o : Outcome) : RunResult :=
  match o with
  | Normal ctx => Completed ctx
  | _ => Interrupted o
  end.




(** The binary64 number 1, to which the constant of [asNumeric()+1] and
    [asNumeric()-1] is converted: 2^52 * 2^-52. *)
Definition num_one : numeric := S754_finite false 4503599627370496 (-52).

(** The binary64 number 2^53: 2^52 * 2^1. *)
Definition num_2_53 : numeric := S754_finite false 4503599627370496 1.

(** Two numerics are the same datum (the same sign, mantissa and
    exponent; NaN is the same as NaN). *)
Definition num_identical (a b : numeric) : bool :=
  match a, b with
  | S754_zero s, S754_zero s' => Bool.eqb s s'
  | S754_infinity s, S754_infinity s' => Bool.eqb s s'
  | S754_nan, S754_nan => true
  | S754_finite s m e, S754_finite s' m' e' =>
      Bool.eqb s s' && (m =? m')%positive && (e =? e')%Z
  | _, _ => false
  end.

(** Pre-increment and pre-decrement change the integral numerics from
    [lo] on, [len] of them, by exactly one. *)
Definition exact_on (lo len : Z) : bool :=
  forallb (fun i =>
             num_identical (num_add (num_of_int64 i) (num_of_int64 1)) (num_of_int64 (i + 1))
             && num_identical (num_sub (num_of_int64 i) (num_of_int64 1)) (num_of_int64 (i - 1)))
          (seqZ lo len).

(** ** Constant folding ([simplify], [expression.cpp]) *)

(** The nodes that fold to the item their steps push: values, [not],
    negation, the increments and decrements, [and], [or] and [?:]. *)
Fixpoint foldable (e : Expression) : bool :=
  match e with
  | ExprValue _ _ => true
  | UnaryExpression (UNot | UNeg | UPreInc | UPostInc | UPreDec | UPostDec) _ a =>
      foldable a
  | UnaryExpression _ _ _ => false
  | BinaryExpression (BAnd | BOr) _ a b => foldable a && foldable b
  | BinaryExpression _ _ _ _ => false
  | TernaryExpression TIIF _ a b c => foldable a && foldable b && foldable c
  end.

Section Simplify.

(** [simplify( Item& value )] returns whether the expression folded and
    leaves its result in [value]: here the pair (returned flag, [value]
    after the call), or [None] where the method depends on code outside the
    sources (the out-of-band operators) or returns no value at all
    ([ExprEEQ::simplify] when a child does not fold).  The method of the
    leaves, the default-constructed [Item] of the local operands and the
    numeric values of the type tags are not part of the sources and are
    parameters. *)
Variable isTrue : Item -> bool.
Variable Item_compare : Item -> Item -> Z.
Variable leaf_simplify : Item -> Item -> bool * Item.
Variable blank : Item.
Variable type_code : ItemType -> Z.

(** The body shared by the unary arithmetic [simplify] methods: the
    [switch] on the type of the folded operand. *)
Definition simplify_arith (fint : Z -> Z) (fnum : numeric -> numeric)
    (r : option (bool * Item)) : option (bool * Item) :=
  match r with
  | Some (true, value) =>
      match value with
      | ItemInt i => Some (true, setInteger (fint i))
      | ItemNum n => Some (true, setNumeric (fnum n))
      | _ => Some (false, value)
      end
  | other => other
  end.

Fixpoint simplify (e : Expression) (value : Item) : option (bool * Item) :=
  match e with
  | ExprValue _ v => Some (leaf_simplify v value)
  | UnaryExpression k _ m_first =>
      match k with
      | UNot =>
          match simplify m_first value with
          | Some (true, value1) => Some (true, setBoolean (negb (isTrue value1)))
          | other => other
          end
      | UNeg =>
          simplify_arith (fun i => (- i)%Z) SFopp (simplify m_first value)
      | UPreInc | UPostInc =>
          simplify_arith (fun i => (i + 1)%Z) (fun n => num_add n (num_of_int64 1))
            (simplify m_first value)
      | UPreDec | UPostDec =>
          simplify_arith (fun i => (i - 1)%Z) (fun n => num_sub n (num_of_int64 1))
            (simplify m_first value)
      | UDot _ => Some (false, value)
      | UOob | UDeoob | UXorOob | UIsOob => None
      end
  | BinaryExpression k _ m_first m_second =>
      match k with
      | BAnd =>
          match simplify m_first blank with
          | Some (true, fi) =>
              match simplify m_second blank with
              | Some (true, si) => Some (true, setBoolean (isTrue fi && isTrue si))
              | Some (false, _) => Some (false, value)
              | None => None
              end
          | Some (false, _) => Some (false, value)
          | None => None
          end
      | BOr =>
          match simplify m_first blank with
          | Some (true, fi) =>
              match simplify m_second blank with
              | Some (true, si) => Some (true, setBoolean (isTrue fi || isTrue si))
              | Some (false, _) => Some (false, value)
              | None => None
              end
          | Some (false, _) => Some (false, value)
          | None => None
          end
      | BAssign => Some (false, value)
      | BEEQ =>
          match simplify m_first blank with
          | Some (true, d1) =>
              match simplify m_second blank with
              | Some (true, d2) => Some ((Item_compare d1 d2 =? 0)%Z, value)
              | _ => None
              end
          | _ => None
          end
      | BCompare c =>
          match simplify m_first blank with
          | Some (true, d1) =>
              match simplify m_second blank with
              | Some (true, d2) =>
                  Some (true, generic_simplify (comparer_of c) type_code d1 d2)
              | Some (false, _) => Some (false, value)
              | None => None
              end
          | Some (false, _) => Some (false, value)
          | None => None
          end
      | BIndex | BStarIndex => Some (false, value)
      end
  | TernaryExpression TIIF _ m_first m_second m_third =>
      match simplify m_first blank with
      | Some (true, temp) =>
          if isTrue temp then simplify m_second value else simplify m_third value
      | Some (false, _) => Some (false, value)
      | None => None
      end
  end.

End Simplify.

(** ** More of the pool ([pool.cpp]) *)

(** The loop of [Pool::clear]: while the head is not null, unlink it and
    delete it.  [fuel] bounds the iterations; [None] when it runs out. *)
Fixpoint Pool_clear_loop (fuel : nat) (p : Pool) : option Pool :=
  match m_head p with
  | None => Some p
  | Some h =>
      match fuel with
      | O => None
      | S fuel' =>
          Pool_clear_loop fuel'
            {| m_head := next_of (m_next p) h;
               m_size := m_size p;
               m_maxSize := m_maxSize p;
               m_next := delete h (m_next p);
               deleted := h :: deleted p |}
      end
  end.

(** [Pool::clear]: the loop, then the size is reset. *)
Definition Pool_clear (fuel : nat) (p : Pool) : option Pool :=
  match Pool_clear_loop fuel p with
  | Some p' =>
      Some {| m_head := m_head p'; m_size := 0; m_maxSize := m_maxSize p';
              m_next := m_next p'; deleted := deleted p' |}
  | None => None
  end.

(** [n] calls of [get], with what each returned. *)
Fixpoint Pool_get_n (n : nat) (p : Pool) : Pool * list (option address) :=
  match n with
  | O => (p, [])
  | S n' =>
      let (p1, r) := Pool_get p in
      let (p2, rs) := Pool_get_n n' p1 in
      (p2, r :: rs)
  end.

(** The objects a run hands to [release], and the ones [get] hands back. *)
Definition released (ops : list PoolOp) : list address :=
  omap (fun op => match op with OpRelease d => Some d | OpGet => None end) ops.

Fixpoint handed_back (ops : list PoolOp) (p : Pool) : list address :=
  match ops with
  | [] => []
  | op :: ops' =>
      match op with
      | OpGet =>
          match snd (Pool_get p) with
          | Some d => [d]
          | None => []
          end
      | OpRelease _ => []
      end ++ handed_back ops' (Pool_step op p)
  end.

(** ** More of the [global] statement ([stmtglobal.cpp]) *)

(** The symbols of a statement, by name, in the order of the vector. *)
Fixpoint alreadyAdded (name : string) (symbols : list string) : bool :=
  match symbols with
  | [] => false
  | sym :: rest => if String.eqb sym name then true else alreadyAdded name rest
  end.

(** [StmtGlobal::addSymbol]: the returned flag and the symbols after. *)
Definition addSymbol (name : string) (symbols : list string) : bool * list string :=
  if alreadyAdded name symbols then (false, symbols)
  else (true, symbols ++ [name]).

(** What [store] writes and [restore] reads: a 32-bit count and strings. *)
Inductive StoreDatum : Type :=
| SCount (n : Z)
| SName (s : string).

(** [StmtGlobal::store]. *)
Definition StmtGlobal_store (symbols : list string) : list StoreDatum :=
  SCount (uint32_wrap (Z.of_nat (length symbols))) :: map SName symbols.

(** The loop of [restore]: [n] names are read and appended.  [None] when
    the stream does not hold a name where one is read. *)
Fixpoint restore_names (n : nat) (stream : list StoreDatum) (symbols : list string)
    : option (list string * list StoreDatum) :=
  match n with
  | O => Some (symbols, stream)
  | S n' =>
      match stream with
      | SName name :: stream' => restore_names n' stream' (symbols ++ [name])
      | _ => None
      end
  end.

(** [StmtGlobal::restore] into a statement holding [symbols]. *)
Definition StmtGlobal_restore (stream : list StoreDatum) (symbols : list string)
    : option (list string * list StoreDatum) :=
  match stream with
  | SCount size :: stream' => restore_names (Z.to_nat size) stream' symbols
  | _ => None
  end.

(** The loop of [describeTo] over the symbols, with its [bDone] flag. *)
Fixpoint describe_symbols (bDone : bool) (symbols : list string) (tgt : string) : string :=
  match symbols with
  | [] => tgt
  | sym :: rest =>
      let tgt1 := if bDone then (tgt ++ ", ")%string else tgt in
      describe_symbols true rest (tgt1 ++ sym)%string
  end.

Fixpoint String_replicate (n : nat) (s : string) : string :=
  match n with
  | O => EmptyString
  | S n' => (s ++ String_replicate n' s)%string
  end.

(** [StmtGlobal::describeTo]; [depthIndent] is [PStep::depthIndent]. *)
Definition StmtGlobal_describeTo (depthIndent depth : nat) (symbols : list string) : string :=
  match symbols with
  | [] => "<blank StmtGlobal>"
  | _ =>
      describe_symbols false symbols
        (String_replicate (depth * depthIndent) " " ++ "global ")%string
  end.

(** The symbols after [addSymbol] has been called with each of [names]
    in turn. *)
Definition addSymbols (names symbols : list string) : list string :=
  foldl (fun syms name => snd (addSymbol name syms)) symbols names.

(** * Properties *)

(** ** Scalars *)

Lemma int64_wrap_id (z : Z) : in_int64 z -> int64_wrap z = z.
Proof.
  unfold in_int64, int64_wrap, INT64_MIN, INT64_MAX. intros H.
  rewrite Z.mod_small; lia.
Qed.

Lemma int32_wrap_id (z : Z) : (0 <= z <= INT32_MAX)%Z -> int32_wrap z = z.
Proof.
  unfold int32_wrap, INT32_MAX. intros H.
  rewrite Z.mod_small; lia.
Qed.

Lemma uint32_wrap_id (z : Z) : (0 <= z <= UINT32_MAX)%Z -> uint32_wrap z = z.
Proof.
  unfold uint32_wrap, UINT32_MAX. intros H.
  rewrite Z.mod_small; lia.
Qed.

(** ** Single steps *)

Section StepFacts.

Variable isTrue : Item -> bool.
Variable Item_compare : Item -> Item -> Z.

(** C10: the logical-not step is total.  Whatever Item is on top of the
    data stack, instance-typed or not, the step returns normally (it
    neither throws nor calls a Class handler) and replaces the top item in
    place with the boolean negation of its truth value; the depth of the
    data stack and the sequence id are unchanged. *)
Theorem ExprNot_apply_total (operand : Item) (rest : list Item) (seq : Z) :
  let ctx := mkCtx (operand :: rest) seq in
  apply_ isTrue Item_compare (StepUnary UNot) ctx
    = Normal (mkCtx (ItemBool (negb (isTrue operand)) :: rest) seq)
  /\ (forall ctx', apply_ isTrue Item_compare (StepUnary UNot) ctx = Normal ctx' ->
        length (dataStack ctx') = length (dataStack ctx))
  /\ (forall e, apply_ isTrue Item_compare (StepUnary UNot) ctx <> Thrown e)
  /\ (forall op cls inst c,
        apply_ isTrue Item_compare (StepUnary UNot) ctx <> HandlerCall op cls inst c).
Proof.
  cbn. repeat split.
  - intros ctx' [= <-]. reflexivity.
  - discriminate.
  - discriminate.
Qed.

End StepFacts.

(** C4: exact equality.  The step replaces its two operands by one
    boolean and never throws.  Pairs of nil, booleans, integers and
    numerics compare by value (numerics with the IEEE equality of C++),
    deep pairs and user pairs by the identity of the instance, and two
    operands of different types are never equal. *)
Theorem ExprEEQ_apply_spec :
  (forall op1 op2 rest seq,
      ExprEEQ_apply_ (mkCtx (op2 :: op1 :: rest) seq)
        = Normal (mkCtx (ItemBool (ExprEEQ_result op1 op2) :: rest) seq))
  /\ ExprEEQ_result ItemNil ItemNil = true
  /\ (forall b1 b2, ExprEEQ_result (ItemBool b1) (ItemBool b2) = true <-> b1 = b2)
  /\ (forall i1 i2, ExprEEQ_result (ItemInt i1) (ItemInt i2) = true <-> i1 = i2)
  /\ (forall n1 n2, ExprEEQ_result (ItemNum n1) (ItemNum n2) = SFeqb n1 n2)
  /\ (forall c1 c2 inst1 inst2,
        ExprEEQ_result (ItemDeep c1 inst1) (ItemDeep c2 inst2) = true <-> inst1 = inst2)
  /\ (forall c1 c2 inst1 inst2,
        ExprEEQ_result (ItemUser c1 inst1) (ItemUser c2 inst2) = true <-> inst1 = inst2)
  /\ (forall op1 op2, Item_type op1 <> Item_type op2 -> ExprEEQ_result op1 op2 = false).
Proof.
  split; [reflexivity|].
  split; [reflexivity|].
  split; [intros b1 b2; cbn; apply Bool.eqb_true_iff|].
  split; [intros i1 i2; cbn; apply Z.eqb_eq|].
  split; [reflexivity|].
  split; [intros; cbn; apply bool_decide_eq_true|].
  split; [intros; cbn; apply bool_decide_eq_true|].
  intros op1 op2 H. destruct op1, op2; try reflexivity; cbn in H; congruence.
Qed.

Lemma ExprEEQ_apply_spec_witness :
  ExprEEQ_result ItemNil (ItemInt 0) = false.
Proof.
  apply (proj2 (proj2 (proj2 (proj2 (proj2 (proj2 (proj2 ExprEEQ_apply_spec))))))).
  cbn. discriminate.
Defined.

Lemma num_identical_eq (a b : numeric) : num_identical a b = true -> a = b.
Proof.
  destruct a as [s|s| |s m e], b as [s'|s'| |s' m' e']; cbn; try discriminate;
    try reflexivity.
  - intros H. apply Bool.eqb_prop in H as ->. reflexivity.
  - intros H. apply Bool.eqb_prop in H as ->. reflexivity.
  - intros H. apply andb_true_iff in H as [H He]. apply andb_true_iff in H as [Hs Hm].
    apply Bool.eqb_prop in Hs as ->. apply Pos.eqb_eq in Hm as ->.
    apply Z.eqb_eq in He as ->. reflexivity.
Qed.

Lemma exact_on_spec lo len i :
  exact_on lo len = true -> (lo <= i < lo + len)%Z ->
  num_add (num_of_int64 i) (num_of_int64 1) = num_of_int64 (i + 1)
  /\ num_sub (num_of_int64 i) (num_of_int64 1) = num_of_int64 (i - 1).
Proof.
  unfold exact_on. intros H Hi.
  assert (Hin : In i (seqZ lo len)).
  { apply list_elem_of_In, elem_of_seqZ. lia. }
  pose proof (proj1 (forallb_forall _ _) H i Hin) as Hc. cbn beta in Hc.
  apply andb_true_iff in Hc as [Ha Hs].
  split; apply num_identical_eq; assumption.
Qed.

(** C6, as the code has it: pre-increment and pre-decrement of the top
    item.  An integer stays an integer, one more (one less) than before,
    except at the bound of [int64], where the arithmetic wraps around:
    [INT64_MAX] is incremented to [INT64_MIN] and [INT64_MIN] decremented
    to [INT64_MAX].  A numeric stays a numeric: the binary64 sum
    (difference), rounded to nearest, of the operand and the number 1.
    That is one more (one less) on the integral numerics of magnitude up
    to 1024; NaN and the infinities are left as they are, and so is 2^53
    by the increment (-2^53 by the decrement), whose neighbour is not a
    binary64 number.  A deep or user instance is handed to [op_inc]
    ([op_dec]) of its class with the stack untouched; any other operand
    throws the invalid-operand [OperandError] whose extra text is
    "preinc" ("predec"). *)
Theorem ExprPreInc_PreDec_apply_spec (rest : list Item) (seq : Z) :
  (forall i, in_int64 i -> (i < INT64_MAX)%Z ->
      ExprPreInc_apply_ (mkCtx (ItemInt i :: rest) seq)
        = Normal (mkCtx (ItemInt (i + 1) :: rest) seq))
  /\ (forall i, in_int64 i -> (INT64_MIN < i)%Z ->
      ExprPreDec_apply_ (mkCtx (ItemInt i :: rest) seq)
        = Normal (mkCtx (ItemInt (i - 1) :: rest) seq))
  /\ (ExprPreInc_apply_ (mkCtx (ItemInt INT64_MAX :: rest) seq)
        = Normal (mkCtx (ItemInt INT64_MIN :: rest) seq)
      /\ ExprPreDec_apply_ (mkCtx (ItemInt INT64_MIN :: rest) seq)
        = Normal (mkCtx (ItemInt INT64_MAX :: rest) seq))
  /\ (forall i,
      ExprPreInc_apply_ (mkCtx (ItemInt i :: rest) seq)
        = Normal (mkCtx (ItemInt (int64_wrap (i + 1)) :: rest) seq)
      /\ ExprPreDec_apply_ (mkCtx (ItemInt i :: rest) seq)
        = Normal (mkCtx (ItemInt (int64_wrap (i - 1)) :: rest) seq))
  /\ (forall n,
      ExprPreInc_apply_ (mkCtx (ItemNum n :: rest) seq)
        = Normal (mkCtx (ItemNum (SFadd 53 1024 n num_one) :: rest) seq)
      /\ ExprPreDec_apply_ (mkCtx (ItemNum n :: rest) seq)
        = Normal (mkCtx (ItemNum (SFsub 53 1024 n num_one) :: rest) seq))
  /\ (num_one = num_of_int64 1
      /\ forall i, (-1024 <= i <= 1024)%Z ->
      ExprPreInc_apply_ (mkCtx (ItemNum (num_of_int64 i) :: rest) seq)
        = Normal (mkCtx (ItemNum (num_of_int64 (i + 1)) :: rest) seq)
      /\ ExprPreDec_apply_ (mkCtx (ItemNum (num_of_int64 i) :: rest) seq)
        = Normal (mkCtx (ItemNum (num_of_int64 (i - 1)) :: rest) seq))
  /\ (forall n, n = S754_nan \/ (exists s, n = S754_infinity s) ->
      ExprPreInc_apply_ (mkCtx (ItemNum n :: rest) seq)
        = Normal (mkCtx (ItemNum n :: rest) seq)
      /\ ExprPreDec_apply_ (mkCtx (ItemNum n :: rest) seq)
        = Normal (mkCtx (ItemNum n :: rest) seq))
  /\ (num_2_53 = num_of_int64 (2 ^ 53)
      /\ ExprPreInc_apply_ (mkCtx (ItemNum num_2_53 :: rest) seq)
        = Normal (mkCtx (ItemNum num_2_53 :: rest) seq)
      /\ ExprPreDec_apply_ (mkCtx (ItemNum (SFopp num_2_53) :: rest) seq)
        = Normal (mkCtx (ItemNum (SFopp num_2_53) :: rest) seq))
  /\ (forall it cls inst, it = ItemDeep cls inst \/ it = ItemUser cls inst ->
      ExprPreInc_apply_ (mkCtx (it :: rest) seq)
        = HandlerCall op_inc cls inst (mkCtx (it :: rest) seq)
      /\ ExprPreDec_apply_ (mkCtx (it :: rest) seq)
        = HandlerCall op_dec cls inst (mkCtx (it :: rest) seq))
  /\ (forall it,
      Item_type it <> FLC_ITEM_INT -> Item_type it <> FLC_ITEM_NUM ->
      Item_type it <> FLC_ITEM_DEEP -> Item_type it <> FLC_ITEM_USER ->
      (exists p, ExprPreInc_apply_ (mkCtx (it :: rest) seq) = Thrown (OperandError p)
                 /\ m_errorCode p = e_invalid_op /\ m_extra p = "preinc"%string)
      /\ (exists p, ExprPreDec_apply_ (mkCtx (it :: rest) seq) = Thrown (OperandError p)
                 /\ m_errorCode p = e_invalid_op /\ m_extra p = "predec"%string)).
Proof.
  assert (Hone : num_one = num_of_int64 1) by (vm_compute; reflexivity).
  split; [|split; [|split; [|split; [|split; [|split; [|split; [|split; [|split]]]]]]]].
  - intros i Hi Hlt. unfold ExprPreInc_apply_, with_top, setInteger; cbn.
    rewrite int64_wrap_id; [reflexivity|].
    unfold in_int64, INT64_MIN, INT64_MAX in *. lia.
  - intros i Hi Hlt. unfold ExprPreDec_apply_, with_top, setInteger; cbn.
    rewrite int64_wrap_id; [reflexivity|].
    unfold in_int64, INT64_MIN, INT64_MAX in *. lia.
  - split; reflexivity.
  - intros i. split; reflexivity.
  - intros n. rewrite Hone. split; reflexivity.
  - split; [exact Hone|]. intros i Hi.
    assert (Hex : exact_on (-1024) 2049 = true) by (vm_compute; reflexivity).
    destruct (exact_on_spec (-1024) 2049 i Hex) as [Ha Hs]; [lia|].
    unfold ExprPreInc_apply_, ExprPreDec_apply_, with_top, setNumeric.
    cbn [dataStack m_seqId]. rewrite Ha, Hs. split; reflexivity.
  - intros n [->|[[] ->]]; split; reflexivity.
  - split; [vm_compute; reflexivity|].
    unfold ExprPreInc_apply_, ExprPreDec_apply_, with_top, setNumeric; cbn.
    split; do 3 f_equal; vm_compute; reflexivity.
  - intros it cls inst [-> | ->]; split; reflexivity.
  - intros it H1 H2 H3 H4.
    destruct it; cbn in H1, H2, H3, H4; try congruence;
      (split; eexists; (split; [reflexivity|split; reflexivity])).
Qed.

Lemma ExprPreInc_PreDec_apply_spec_witness :
  ExprPreInc_apply_ (mkCtx [ItemInt 41] 0) = Normal (mkCtx [ItemInt 42] 0)
  /\ (exists p, ExprPreInc_apply_ (mkCtx [ItemNil] 0) = Thrown (OperandError p)
               /\ m_errorCode p = e_invalid_op /\ m_extra p = "preinc"%string).
Proof.
  split.
  - apply (proj1 (ExprPreInc_PreDec_apply_spec [] 0) 41%Z).
    + unfold in_int64, INT64_MIN, INT64_MAX. lia.
    + unfold INT64_MAX. lia.
  - apply (proj2 (proj2 (proj2 (proj2 (proj2 (proj2 (proj2 (proj2 (proj2
             (ExprPreInc_PreDec_apply_spec [] 0))))))))) ItemNil);
      cbn; discriminate.
Defined.

(** C6 as stated fails where "one more" has no representation in the
    type of the operand.  The numeric 2^53 is left unchanged by the
    pre-increment (2^53 + 1 is not a binary64 number and the sum rounds
    back to 2^53), and so is -2^53 by the pre-decrement; the integer
    [INT64_MAX] is incremented to [INT64_MIN], 2^64 - 1 less, and
    [INT64_MIN] decremented to [INT64_MAX]. *)
Lemma ExprPreInc_PreDec_not_exact :
  num_2_53 = num_of_int64 (2 ^ 53)
  /\ ExprPreInc_apply_ (mkCtx [ItemNum num_2_53] 0)
     = Normal (mkCtx [ItemNum num_2_53] 0)
  /\ ExprPreDec_apply_ (mkCtx [ItemNum (SFopp num_2_53)] 0)
     = Normal (mkCtx [ItemNum (SFopp num_2_53)] 0)
  /\ ExprPreInc_apply_ (mkCtx [ItemInt INT64_MAX] 0)
     = Normal (mkCtx [ItemInt INT64_MIN] 0)
  /\ ExprPreDec_apply_ (mkCtx [ItemInt INT64_MIN] 0)
     = Normal (mkCtx [ItemInt INT64_MAX] 0).
Proof.
  split; [vm_compute; reflexivity|].
  unfold ExprPreInc_apply_, ExprPreDec_apply_, with_top, setNumeric, setInteger; cbn.
  repeat split; do 3 f_equal; vm_compute; reflexivity.
Qed.

(** C5, in [generic_apply_]: an integer compared with a numeric is not
    promoted.  Both operands go through [pass], which takes integers, so
    the numeric loses its fraction: [1 < 1.5] is false when applied,
    while the numeric comparison of the promoted operands, which
    [generic_simplify] makes through [passn], is true.  (The binary64
    number 1.5 is 6755399441055744 * 2^-52.) *)
Theorem generic_apply_mixed_not_promoted :
  let one_and_half : numeric := S754_finite false 6755399441055744 (-52) in
  generic_apply_ sample_compare (comparer_of t_lt)
      (mkCtx [ItemNum one_and_half; ItemInt 1] 0)
    = Normal (mkCtx [ItemBool false] 0)
  /\ num_ltb (num_of_int64 1) one_and_half = true
  /\ generic_simplify (comparer_of t_lt) (fun _ => 0%Z) (ItemInt 1) (ItemNum one_and_half)
     = ItemBool true
  /\ (forall cpr i n rest seq,
        generic_apply_ sample_compare cpr (mkCtx (ItemNum n :: ItemInt i :: rest) seq)
          = Normal (mkCtx (ItemBool (pass cpr i (int64_of_num n)) :: rest) seq))
  /\ (forall cpr i n rest seq,
        generic_apply_ sample_compare cpr (mkCtx (ItemInt i :: ItemNum n :: rest) seq)
          = Normal (mkCtx (ItemBool (pass cpr (int64_of_num n) i) :: rest) seq)).
Proof.
  repeat split.
Qed.

(** ** Pool *)

Lemma is_chain_insert heap h l d v :
  d ∉ l -> is_chain heap h l -> is_chain (<[d := v]> heap) h l.
Proof.
  revert h. induction l as [|x l IH]; intros h Hd Hc; cbn in *; [assumption|].
  destruct Hc as [-> (n & Hn & Hc)].
  apply not_elem_of_cons in Hd as [Hne Hd].
  split; [reflexivity|]. exists n. split.
  - rewrite lookup_insert_ne; [assumption|congruence].
  - apply IH; assumption.
Qed.

Lemma is_chain_delete heap h l d :
  d ∉ l -> is_chain heap h l -> is_chain (delete d heap) h l.
Proof.
  revert h. induction l as [|x l IH]; intros h Hd Hc; cbn in *; [assumption|].
  destruct Hc as [-> (n & Hn & Hc)].
  apply not_elem_of_cons in Hd as [Hne Hd].
  split; [reflexivity|]. exists n. split.
  - rewrite lookup_delete_ne; [assumption|congruence].
  - apply IH; assumption.
Qed.

Lemma chain_is_chain heap h l :
  is_chain heap h l -> chain (length l) heap h = l.
Proof.
  revert h. induction l as [|x l IH]; intros h Hc; cbn in *.
  - reflexivity.
  - destruct Hc as [-> (n & Hn & Hc)]. f_equal.
    unfold next_of. rewrite Hn. cbn. apply IH, Hc.
Qed.

Lemma retained_holds p l : holds p l -> retained p = l.
Proof.
  intros (Hc & _ & Hs & _). unfold retained.
  rewrite Hs, Nat2Z.id. apply chain_is_chain, Hc.
Qed.

Lemma Pool_new_holds maxSize heap :
  (0 <= maxSize <= UINT32_MAX)%Z -> holds (Pool_new maxSize heap) [].
Proof.
  intros H. unfold holds; cbn. repeat split; try lia. constructor.
Qed.

Lemma Pool_release_room p l d :
  holds p l -> d ∉ l -> (m_size p < m_maxSize p)%Z ->
  holds (Pool_release d p) (d :: l) /\ deleted (Pool_release d p) = deleted p.
Proof.
  intros (Hc & Hnd & Hs & Hb) Hd Hlt. unfold Pool_release.
  apply Z.ltb_lt in Hlt as Hlt'. rewrite Hlt'. unfold holds; cbn.
  repeat split.
  - exists (m_head p). split; [apply lookup_insert_eq|].
    apply is_chain_insert; assumption.
  - constructor; assumption.
  - rewrite uint32_wrap_id; lia.
  - lia.
  - lia.
Qed.

Lemma Pool_release_full p l d :
  holds p l -> d ∉ l -> ~ (m_size p < m_maxSize p)%Z ->
  holds (Pool_release d p) l /\ deleted (Pool_release d p) = d :: deleted p.
Proof.
  intros (Hc & Hnd & Hs & Hb) Hd Hge. unfold Pool_release.
  apply Z.ltb_nlt in Hge as Hge'. rewrite Hge'. unfold holds; cbn.
  repeat split; try assumption; try lia.
  apply is_chain_delete; assumption.
Qed.

Lemma Pool_get_holds p x l :
  holds p (x :: l) ->
  snd (Pool_get p) = Some x /\ holds (fst (Pool_get p)) l
  /\ deleted (fst (Pool_get p)) = deleted p.
Proof.
  intros (Hc & Hnd & Hs & Hb). cbn in Hc.
  destruct Hc as (Hh & n & Hn & Hc).
  unfold Pool_get. rewrite Hh. cbn. split; [reflexivity|].
  split; [|reflexivity]. unfold holds; cbn.
  cbn [length] in Hs, Hb.
  repeat split.
  - unfold next_of. rewrite Hn. exact Hc.
  - apply NoDup_cons in Hnd. apply Hnd.
  - rewrite uint32_wrap_id; lia.
  - lia.
  - lia.
Qed.

Lemma Pool_get_empty p : holds p [] -> Pool_get p = (p, None).
Proof.
  intros (Hc & _). cbn in Hc. unfold Pool_get. rewrite Hc. reflexivity.
Qed.

Lemma Pool_step_holds op p l :
  holds p l ->
  match op with OpRelease d => d ∉ l | OpGet => True end ->
  exists l', holds (Pool_step op p) l'.
Proof.
  intros Hp Hop. destruct op as [d|]; cbn.
  - destruct (Z.lt_decidable (m_size p) (m_maxSize p)) as [Hlt|Hge].
    + exists (d :: l). apply Pool_release_room; assumption.
    + exists l. apply Pool_release_full; assumption.
  - destruct l as [|x l].
    + exists []. rewrite Pool_get_empty; assumption.
    + exists l. apply (Pool_get_holds p x l Hp).
Qed.

Lemma Pool_run_holds ops : forall p l,
  holds p l -> well_used ops p -> exists l', holds (Pool_run ops p) l'.
Proof.
  induction ops as [|op ops IH]; intros p l Hp Hw; cbn in *.
  - exists l. exact Hp.
  - destruct Hw as [Hop Hw].
    destruct (Pool_step_holds op p l Hp) as [l' Hl'].
    + destruct op; [|exact I]. rewrite <- (retained_holds p l Hp). exact Hop.
    + apply (IH _ l' Hl' Hw).
Qed.

(** Releasing distinct objects into a pool holding [l]: the first ones
    fill the room left, the others are deleted. *)
Lemma release_all_holds objs : forall p l,
  holds p l -> NoDup (objs ++ l) ->
  let room := Z.to_nat (m_maxSize p - m_size p) in
  let p' := foldl (fun p d => Pool_release d p) p objs in
  holds p' (reverse (take room objs) ++ l)
  /\ deleted p' = reverse (drop room objs) ++ deleted p
  /\ m_maxSize p' = m_maxSize p.
Proof.
  induction objs as [|d objs IH]; intros p l Hp Hnd; cbn zeta.
  - rewrite take_nil, drop_nil. cbn. auto.
  - cbn [foldl]. cbn in Hnd. apply NoDup_cons in Hnd as [Hd Hnd].
    assert (Hdl : d ∉ l) by (intros Hin; apply Hd, elem_of_app; right; exact Hin).
    assert (Hdo : d ∉ objs) by (intros Hin; apply Hd, elem_of_app; left; exact Hin).
    pose proof Hp as (_ & _ & Hs & Hb).
    destruct (Z.lt_decidable (m_size p) (m_maxSize p)) as [Hlt|Hge].
    + destruct (Pool_release_room p l d Hp Hdl Hlt) as [Hp' Hdel].
      assert (Hnd' : NoDup (objs ++ d :: l)).
      { apply NoDup_app. apply NoDup_app in Hnd as (H1 & H2 & H3).
        split; [exact H1|]. split.
        - intros x Hx Hin. apply elem_of_cons in Hin as [->|Hin];
            [exact (Hdo Hx)|exact (H2 x Hx Hin)].
        - constructor; assumption. }
      specialize (IH _ _ Hp' Hnd'). cbn zeta in IH.
      assert (Hm : m_maxSize (Pool_release d p) = m_maxSize p).
      { unfold Pool_release. destruct (m_size p <? m_maxSize p)%Z; reflexivity. }
      assert (Hsz : m_size (Pool_release d p) = (m_size p + 1)%Z).
      { destruct Hp' as (_ & _ & Hs' & _). rewrite Hs'. cbn [length]. lia. }
      rewrite Hm, Hsz, Hdel in IH.
      destruct (Z.to_nat (m_maxSize p - m_size p)) as [|room] eqn:Hroom; [lia|].
      replace (Z.to_nat (m_maxSize p - (m_size p + 1))) with room in IH by lia.
      cbn [take drop]. rewrite reverse_cons, <- app_assoc. cbn. exact IH.
    + destruct (Pool_release_full p l d Hp Hdl Hge) as [Hp' Hdel].
      assert (Hnd' : NoDup (objs ++ l)) by exact Hnd.
      specialize (IH _ _ Hp' Hnd'). cbn zeta in IH.
      assert (Hm : m_maxSize (Pool_release d p) = m_maxSize p).
      { unfold Pool_release. destruct (m_size p <? m_maxSize p)%Z; reflexivity. }
      assert (Hsz : m_size (Pool_release d p) = m_size p).
      { destruct Hp' as (_ & _ & Hs' & _). rewrite Hs'. lia. }
      rewrite Hm, Hsz, Hdel in IH.
      replace (Z.to_nat (m_maxSize p - m_size p)) with 0%nat in * by lia.
      cbn [take drop] in *. rewrite take_0, drop_0 in IH.
      rewrite reverse_cons, <- app_assoc. cbn. exact IH.
Qed.

Lemma Pool_release_size p d :
  (0 <= m_size p <= m_maxSize p)%Z -> (m_maxSize p <= UINT32_MAX)%Z ->
  (0 <= m_size (Pool_release d p) <= m_maxSize (Pool_release d p))%Z
  /\ m_maxSize (Pool_release d p) = m_maxSize p.
Proof.
  intros Hs Hm. unfold Pool_release.
  destruct (m_size p <? m_maxSize p)%Z eqn:Hlt; cbn; [|lia].
  apply Z.ltb_lt in Hlt. rewrite uint32_wrap_id; lia.
Qed.

Lemma Pool_release_all_size objs : forall p,
  (0 <= m_size p <= m_maxSize p)%Z -> (m_maxSize p <= UINT32_MAX)%Z ->
  let p' := foldl (fun p d => Pool_release d p) p objs in
  (0 <= m_size p' <= m_maxSize p)%Z.
Proof.
  induction objs as [|d objs IH]; intros p Hs Hm; cbn zeta; cbn [foldl]; [exact Hs|].
  destruct (Pool_release_size p d Hs Hm) as [Hs' Hm'].
  rewrite <- Hm'. apply IH; [exact Hs'|lia].
Qed.

(** C7: the pool is bounded by [maxSize].  [release] keeps the object
    (at the head of the free list, the size one more) exactly when the
    size is below [maxSize], and deletes it otherwise.  Releasing
    [maxSize + 1] distinct objects into an empty pool leaves the first
    [maxSize] of them retained and deletes the last one only.  The size
    stays within [maxSize] through any sequence of [release], and through
    any run of [release] and [get] in which no object is released while
    the pool holds it. *)
Theorem Pool_bounded (maxSize : Z) (heap : gmap address (option address))
    (Hmax : (0 <= maxSize <= UINT32_MAX)%Z) :
  (forall p d,
      ((m_size p < m_maxSize p)%Z ->
         m_head (Pool_release d p) = Some d
         /\ m_next (Pool_release d p) !! d = Some (m_head p)
         /\ m_size (Pool_release d p) = uint32_wrap (m_size p + 1)
         /\ deleted (Pool_release d p) = deleted p)
      /\ (~ (m_size p < m_maxSize p)%Z ->
         m_head (Pool_release d p) = m_head p
         /\ m_size (Pool_release d p) = m_size p
         /\ deleted (Pool_release d p) = d :: deleted p))
  /\ (forall p l d, holds p l -> d ∉ l ->
      ((m_size p < m_maxSize p)%Z ->
         retained (Pool_release d p) = d :: retained p
         /\ m_size (Pool_release d p) = (m_size p + 1)%Z)
      /\ (~ (m_size p < m_maxSize p)%Z ->
         retained (Pool_release d p) = retained p))
  /\ (forall objs, NoDup objs -> Z.of_nat (length objs) = (maxSize + 1)%Z ->
      let p := foldl (fun p d => Pool_release d p) (Pool_new maxSize heap) objs in
      retained p = reverse (take (Z.to_nat maxSize) objs)
      /\ Z.of_nat (length (retained p)) = maxSize
      /\ m_size p = maxSize
      /\ deleted p = drop (Z.to_nat maxSize) objs
      /\ length (deleted p) = 1%nat)
  /\ (forall objs,
      let p := foldl (fun p d => Pool_release d p) (Pool_new maxSize heap) objs in
      (0 <= m_size p <= maxSize)%Z)
  /\ (forall ops, well_used ops (Pool_new maxSize heap) ->
      (0 <= m_size (Pool_run ops (Pool_new maxSize heap)) <= maxSize)%Z).
Proof.
  split; [|split; [|split; [|split]]].
  - intros p d. unfold Pool_release. split; intros Hc.
    + apply Z.ltb_lt in Hc. rewrite Hc. cbn.
      split; [reflexivity|]. split; [apply lookup_insert_eq|]. split; reflexivity.
    + apply Z.ltb_nlt in Hc. rewrite Hc. cbn. repeat split.
  - intros p l d Hp Hd. split; intros Hc.
    + destruct (Pool_release_room p l d Hp Hd Hc) as [Hp' Hdel].
      rewrite (retained_holds _ _ Hp'), (retained_holds _ _ Hp).
      destruct Hp' as (_ & _ & Hs' & _). destruct Hp as (_ & _ & Hs & _).
      rewrite Hs', Hs. cbn [length]. split; [reflexivity|lia].
    + destruct (Pool_release_full p l d Hp Hd Hc) as [Hp' Hdel].
      rewrite (retained_holds _ _ Hp'), (retained_holds _ _ Hp). reflexivity.
  - intros objs Hnd Hlen p.
    pose proof (release_all_holds objs (Pool_new maxSize heap) []
                  (Pool_new_holds maxSize heap Hmax)) as H.
    rewrite app_nil_r in H. specialize (H Hnd). cbn zeta in H.
    cbn [m_maxSize m_size Pool_new deleted] in H.
    replace (maxSize - 0)%Z with maxSize in H by lia.
    destruct H as (Hp & Hdel & _). fold p in Hp, Hdel.
    rewrite app_nil_r in Hp, Hdel.
    rewrite (retained_holds _ _ Hp).
    assert (Hl : length (reverse (take (Z.to_nat maxSize) objs)) = Z.to_nat maxSize).
    { rewrite length_reverse, length_take. lia. }
    assert (Hd1 : length (drop (Z.to_nat maxSize) objs) = 1%nat).
    { rewrite length_drop. lia. }
    assert (Hrev : reverse (drop (Z.to_nat maxSize) objs) = drop (Z.to_nat maxSize) objs).
    { destruct (drop (Z.to_nat maxSize) objs) as [|x [|y t]]; cbn in Hd1; try lia.
      reflexivity. }
    split; [reflexivity|]. split; [lia|]. split.
    { destruct Hp as (_ & _ & Hs & _). rewrite Hs. lia. }
    rewrite Hdel, Hrev. split; [reflexivity|exact Hd1].
  - intros objs p.
    apply (Pool_release_all_size objs (Pool_new maxSize heap)); cbn; lia.
  - intros ops Hw.
    destruct (Pool_run_holds ops _ [] (Pool_new_holds maxSize heap Hmax) Hw)
      as (l' & Hc & Hnd & Hs & Hb).
    assert (Hm : forall ops p, m_maxSize (Pool_run ops p) = m_maxSize p).
    { clear. induction ops as [|op ops IH]; intros p; cbn; [reflexivity|].
      unfold Pool_run in IH. rewrite IH. destruct op; cbn.
      - unfold Pool_release. destruct (m_size p <? m_maxSize p)%Z; reflexivity.
      - unfold Pool_get. destruct (m_head p); reflexivity. }
    rewrite Hm in Hb. cbn in Hb. lia.
Qed.

Lemma Pool_bounded_witness :
  let p := foldl (fun p d => Pool_release d p) (Pool_new 2 ∅) [1; 2; 3]%positive in
  retained p = [2; 1]%positive /\ deleted p = [3%positive].
Proof.
  assert (H : (0 <= 2 <= UINT32_MAX)%Z) by (unfold UINT32_MAX; lia).
  destruct (proj1 (proj2 (proj2 (Pool_bounded 2 ∅ H))) [1; 2; 3]%positive)
    as (H1 & _ & _ & H2 & _).
  - apply (bool_decide_unpack _). vm_compute. reflexivity.
  - reflexivity.
  - split; [exact H1|exact H2].
Defined.

(** ** The [global] statement *)

Lemma StmtGlobal_loop_bound line symbols : forall ctx,
  Forall (fun sym => is_Some (globals ctx !! sym)) symbols ->
  let ctx' := StmtGlobal_loop line symbols ctx in
  raised ctx' = raised ctx /\ globals ctx' = globals ctx /\ locals ctx' = locals ctx
  /\ codeDepth ctx' = codeDepth ctx /\ currentFunction ctx' = currentFunction ctx
  /\ (forall sym, sym ∈ symbols -> bindings ctx' !! sym = globals ctx !! sym)
  /\ (forall sym, sym ∉ symbols -> bindings ctx' !! sym = bindings ctx !! sym).
Proof.
  induction symbols as [|s symbols IH]; intros ctx Hall; cbn zeta.
  - cbn. repeat split; try reflexivity. intros sym Hin. inversion Hin.
  - apply Forall_cons in Hall as [[data Hs] Hall].
    assert (Hr : resolveVariable s true false ctx = Some data) by exact Hs.
    cbn [StmtGlobal_loop]. rewrite Hr.
    specialize (IH (defineSymbol s data ctx) Hall). cbn zeta in IH.
    destruct IH as (H1 & H2 & H3 & H4 & H5 & H6 & H7). cbn in H1, H2, H3, H4, H5, H6, H7.
    do 5 (split; [assumption|]). split.
    + intros sym Hin.
      destruct (decide (sym ∈ symbols)) as [Hin'|Hnin]; [apply H6, Hin'|].
      apply elem_of_cons in Hin as [->|Hin]; [|contradiction].
      rewrite (H7 _ Hnin), lookup_insert_eq. symmetry. exact Hs.
    + intros sym Hnin. apply not_elem_of_cons in Hnin as [Hne Hnin].
      rewrite (H7 _ Hnin). apply lookup_insert_ne. congruence.
Qed.

Lemma StmtGlobal_loop_app line pre post : forall ctx,
  Forall (fun sym => is_Some (globals ctx !! sym)) pre ->
  StmtGlobal_loop line (pre ++ post) ctx
    = StmtGlobal_loop line post (StmtGlobal_loop line pre ctx).
Proof.
  induction pre as [|s pre IH]; intros ctx Hall; [reflexivity|].
  apply Forall_cons in Hall as [[data Hs] Hall].
  cbn [app StmtGlobal_loop]. unfold resolveVariable. rewrite Hs.
  apply IH. exact Hall.
Qed.

(** C8: the [global] statement.  Each listed symbol is bound to the slot
    its name has in the global scope, whatever the local frame holds for
    that name.  At the first listed name with no global variable the
    statement raises the [CodeError] of an undefined symbol, carrying the
    name as extra text and the module and name of the current function;
    the symbols listed before it are bound, and nothing else is. *)
Theorem StmtGlobal_apply_spec (line : Z) (ctx : GlobalContext) :
  (forall symbols,
      Forall (fun sym => is_Some (globals ctx !! sym)) symbols ->
      let ctx' := StmtGlobal_apply_ line symbols ctx in
      raised ctx' = raised ctx
      /\ (forall sym, sym ∈ symbols -> bindings ctx' !! sym = globals ctx !! sym)
      /\ (forall sym, sym ∉ symbols -> bindings ctx' !! sym = bindings ctx !! sym))
  /\ (forall pre sym post,
      Forall (fun s => is_Some (globals ctx !! s)) pre ->
      globals ctx !! sym = None ->
      let ctx' := StmtGlobal_apply_ line (pre ++ sym :: post) ctx in
      (exists p, raised ctx' = Some (CodeError p)
                 /\ m_errorCode p = e_undef_sym
                 /\ m_extra p = sym
                 /\ m_symbol p = function_name (currentFunction ctx)
                 /\ m_module p = default EmptyString (function_module (currentFunction ctx))
                 /\ m_line p = line)
      /\ (forall s, s ∈ pre -> bindings ctx' !! s = globals ctx !! s)
      /\ (forall s, s ∉ pre -> bindings ctx' !! s = bindings ctx !! s)).
Proof.
  split.
  - intros symbols Hall ctx'. unfold ctx', StmtGlobal_apply_.
    pose proof (StmtGlobal_loop_bound line symbols (popCode ctx) Hall) as H.
    cbn zeta in H. destruct H as (H1 & _ & _ & _ & _ & H6 & H7).
    repeat split; assumption.
  - intros pre sym post Hall Hnone ctx'. unfold ctx', StmtGlobal_apply_.
    rewrite (StmtGlobal_loop_app line pre (sym :: post) (popCode ctx) Hall).
    pose proof (StmtGlobal_loop_bound line pre (popCode ctx) Hall) as H.
    cbn zeta in H. destruct H as (H1 & H2 & H3 & H4 & H5 & H6 & H7).
    cbn [StmtGlobal_loop]. unfold resolveVariable. rewrite H2. cbn [popCode globals].
    rewrite Hnone. cbn [raiseError raised bindings].
    split; [|split; assumption].
    eexists. split; [reflexivity|]. unfold undefined_symbol. rewrite H5. cbn.
    repeat split.
Qed.

Lemma StmtGlobal_apply_spec_witness :
  let ctx := mkGlobalContext 1 {[ "g"%string := 7%positive ]}
               {[ "g"%string := 9%positive ]} ∅
               (mkFunction "f" (Some "m"%string)) None in
  bindings (StmtGlobal_apply_ 3 ["g"%string] ctx) !! "g"%string = Some 7%positive
  /\ exists p, raised (StmtGlobal_apply_ 3 (["g"%string] ++ "h"%string :: ["g"%string]) ctx) = Some (CodeError p)
               /\ m_extra p = "h"%string.
Proof.
  intros ctx. split.
  - destruct (proj1 (StmtGlobal_apply_spec 3 ctx) ["g"%string]) as (_ & H & _).
    + repeat constructor. exists 7%positive. reflexivity.
    + rewrite H; [reflexivity|]. apply list_elem_of_here.
  - destruct (proj2 (StmtGlobal_apply_spec 3 ctx) ["g"%string] "h"%string ["g"%string])
      as ((p & Hr & _ & He & _) & _).
    + repeat constructor. exists 7%positive. reflexivity.
    + reflexivity.
    + exists p. split; [exact Hr|exact He].
Defined.

(** ** Serialization *)

(** Reading a stream that starts with the serialization of [e] yields
    [read_back e] and the rest of the stream. *)
Lemma ExprFactory_deserialize_serialize e : forall fuel rest,
  (length (serialize e) <= fuel)%nat ->
  ExprFactory_deserialize fuel (serialize e ++ rest) = Some (read_back e, rest).
Proof.
  induction e as [sr v|k sr a IHa|k sr a IHa b IHb|k sr a IHa b IHb c IHc];
    intros fuel rest Hf; cbn [serialize] in *; unfold Expression_serialize in *;
    rewrite ?length_app in Hf; cbn [length] in Hf;
    (destruct fuel as [|fuel]; [lia|]); cbn.
  - reflexivity.
  - rewrite IHa by lia. reflexivity.
  - rewrite <- app_assoc, IHa by lia. rewrite IHb by lia. reflexivity.
  - rewrite <- !app_assoc.
    rewrite IHc by (rewrite ?length_app in *; lia).
    rewrite IHb by (rewrite ?length_app in *; lia).
    rewrite IHa by (rewrite ?length_app in *; lia). reflexivity.
Qed.

Lemma deserialize_serialize e : deserialize (serialize e) = Some (read_back e).
Proof.
  unfold deserialize.
  rewrite <- (app_nil_r (serialize e)) at 2.
  rewrite ExprFactory_deserialize_serialize by lia. reflexivity.
Qed.

(** C9, on the code: a ternary node written with [serialize] and read
    back with [deserialize] has its first and third child exchanged.
    [serialize] writes third, second, first, and [deserialize] reads
    first, second, third; the node [1 ? 2 : 3] comes back as
    [3 ? 2 : 1]. *)
Theorem TernaryExpression_roundtrip_exchanges :
  (forall k sr a b c,
      deserialize (serialize (TernaryExpression k sr a b c))
        = Some (TernaryExpression k sr (read_back c) (read_back b) (read_back a)))
  /\ (let sr := mkSourceRef 1 1 in
      let one := ExprValue sr (ItemInt 1) in
      let two := ExprValue sr (ItemInt 2) in
      let three := ExprValue sr (ItemInt 3) in
      exists e', deserialize (serialize (TernaryExpression TIIF sr one two three)) = Some e'
                 /\ m_first_of e' = Some three
                 /\ m_second_of e' = Some two
                 /\ m_third_of e' = Some one).
Proof.
  split.
  - intros. apply deserialize_serialize.
  - cbn zeta. eexists. split; [apply deserialize_serialize|]. cbn. auto.
Qed.

(** The sibling [BinaryExpression] writes and reads its children in the
    same order: leaves under a binary node keep their places. *)
Lemma BinaryExpression_roundtrip k sr sa va sb vb :
  deserialize (serialize (BinaryExpression k sr (ExprValue sa va) (ExprValue sb vb)))
    = Some (BinaryExpression k sr (ExprValue sa va) (ExprValue sb vb)).
Proof. apply deserialize_serialize. Qed.

(** ** Precompilation *)

Lemma length_code e : forall base, length (code e base) = code_size e.
Proof.
  induction e as [sr v|k sr a IHa|k sr a IHa b IHb|k sr a IHa b IHb c IHc];
    intros base.
  - reflexivity.
  - destruct k; cbn; rewrite length_app, IHa; cbn; lia.
  - destruct k; cbn; rewrite ?length_app; cbn [length];
      rewrite ?length_app, ?IHa, ?IHb; cbn; lia.
  - destruct k; cbn [code code_size].
    repeat first [rewrite length_app | rewrite IHa | rewrite IHb | rewrite IHc
                 | progress cbn [length]].
    lia.
Qed.

(** Assigning the sequence id of the step pushed after [p]. *)
Lemma assign_seqId_middle pos p ps rest t :
  pos = length p ->
  assign_seqId pos t (p ++ ps :: rest)
    = p ++ match ps with
           | StepAndGate _ => StepAndGate t
           | StepOrGate _ => StepOrGate t
           | StepIIF _ => StepIIF t
           | StepIIFGate _ => StepIIFGate t
           | _ => ps
           end :: rest.
Proof.
  intros ->. unfold assign_seqId. rewrite list_lookup_middle by reflexivity.
  destruct ps; try reflexivity;
    (rewrite insert_app_r_alt by lia; rewrite Nat.sub_diag; reflexivity).
Qed.

Ltac lens := rewrite ?length_app; cbn [length]; rewrite ?length_app, ?length_code; cbn [length]; lia.

Lemma precompile_code e : forall pcode,
  precompile e pcode = pcode ++ code e (length pcode).
Proof.
  induction e as [sr v|k sr a IHa|k sr a IHa b IHb|k sr a IHa b IHb c IHc];
    intros pcode.
  - reflexivity.
  - destruct k; cbn [precompile code]; unfold pushStep; rewrite IHa;
      rewrite <- ?app_assoc; reflexivity.
  - pose proof (length_code a (length pcode)) as Ha.
    destruct k; cbn [precompile code]; unfold pushStep, PCode_size;
      rewrite ?IHa, ?IHb.
    + (* and *)
      replace (length ((pcode ++ code a (length pcode)) ++ [StepAndGate 0]))
        with (length pcode + code_size a + 1)%nat by lens.
      set (ca := code a (length pcode)) in *.
      set (cb := code b (length pcode + code_size a + 1)).
      replace ((((pcode ++ ca) ++ [StepAndGate 0]) ++ cb) ++ [StepBinary BAnd])
        with ((pcode ++ ca) ++ StepAndGate 0 :: (cb ++ [StepBinary BAnd]))
        by (rewrite <- !app_assoc; reflexivity).
      rewrite assign_seqId_middle by reflexivity.
      rewrite <- !app_assoc. cbn [app]. do 3 f_equal. f_equal.
      unfold cb. lens.
    + (* or *)
      replace (length ((pcode ++ code a (length pcode)) ++ [StepOrGate 0]))
        with (length pcode + code_size a + 1)%nat by lens.
      set (ca := code a (length pcode)) in *.
      set (cb := code b (length pcode + code_size a + 1)).
      replace ((((pcode ++ ca) ++ [StepOrGate 0]) ++ cb) ++ [StepBinary BOr])
        with ((pcode ++ ca) ++ StepOrGate 0 :: (cb ++ [StepBinary BOr]))
        by (rewrite <- !app_assoc; reflexivity).
      rewrite assign_seqId_middle by reflexivity.
      rewrite <- !app_assoc. cbn [app]. do 3 f_equal. f_equal.
      unfold cb. lens.
    + (* assignment *)
      rewrite length_app, length_code, <- app_assoc. reflexivity.
    + rewrite length_app, length_code, <- !app_assoc. reflexivity.
    + rewrite length_app, length_code, <- !app_assoc. reflexivity.
    + rewrite length_app, length_code, <- !app_assoc. reflexivity.
    + rewrite length_app, length_code, <- !app_assoc. reflexivity.
  - pose proof (length_code a (length pcode)) as Ha.
    destruct k; cbn [precompile code]; unfold pushStep, PCode_size.
    rewrite IHa, IHb.
    replace (length ((pcode ++ code a (length pcode)) ++ [StepIIF 0]))
      with (length pcode + code_size a + 1)%nat by lens.
    set (ca := code a (length pcode)) in *.
    set (cb := code b (length pcode + code_size a + 1)).
    assert (Hb : length cb = code_size b) by apply length_code.
    replace ((((pcode ++ ca) ++ [StepIIF 0]) ++ cb) ++ [StepIIFGate 0])
      with ((pcode ++ ca) ++ StepIIF 0 :: (cb ++ [StepIIFGate 0]))
      by (rewrite <- !app_assoc; reflexivity).
    rewrite assign_seqId_middle by reflexivity.
    rewrite IHc.
    set (t1 := Z.of_nat (length ((pcode ++ ca) ++ StepIIF 0 :: cb ++ [StepIIFGate 0]))).
    replace (length ((pcode ++ ca) ++ StepIIF t1 :: cb ++ [StepIIFGate 0]))
      with (length pcode + code_size a + 1 + code_size b + 1)%nat by lens.
    set (cc := code c (length pcode + code_size a + 1 + code_size b + 1)).
    replace (((pcode ++ ca) ++ StepIIF t1 :: cb ++ [StepIIFGate 0]) ++ cc)
      with (((pcode ++ ca) ++ StepIIF t1 :: cb) ++ StepIIFGate 0 :: cc)
      by (rewrite <- !app_assoc; cbn [app]; rewrite <- !app_assoc; reflexivity).
    rewrite assign_seqId_middle by lens.
    rewrite <- !app_assoc. cbn [app]. rewrite <- ?app_assoc.
    assert (Hc : length cc = code_size c) by apply length_code.
    do 2 f_equal. f_equal.
    + f_equal. unfold t1. lens.
    + do 2 f_equal. f_equal. lens.
Qed.

Lemma without_gates_app l1 l2 :
  without_gates (l1 ++ l2) = without_gates l1 ++ without_gates l2.
Proof. apply List.filter_app. Qed.

Lemma code_without_gates e :
  ordered e = true -> forall base, without_gates (code e base) = depth_first_linearization e.
Proof.
  induction e as [sr v|k sr a IHa|k sr a IHa b IHb|k sr a IHa b IHb c IHc];
    intros Ho base.
  - reflexivity.
  - cbn in Ho. destruct k; cbn [code depth_first_linearization];
      rewrite without_gates_app, (IHa Ho); reflexivity.
  - destruct k; cbn in Ho; try discriminate;
      apply andb_true_iff in Ho as [Ha Hb];
      cbn [code depth_first_linearization];
      rewrite ?without_gates_app, (IHa Ha), (IHb Hb); reflexivity.
  - destruct k. discriminate.
Qed.

Lemma code_plain e :
  plain e = true -> forall base, code e base = depth_first_linearization e.
Proof.
  induction e as [sr v|k sr a IHa|k sr a IHa b IHb|k sr a IHa b IHb c IHc];
    intros Hp base.
  - reflexivity.
  - destruct k; cbn in Hp; try discriminate;
      cbn [code depth_first_linearization]; rewrite (IHa Hp); reflexivity.
  - destruct k; cbn in Hp; try discriminate;
      apply andb_true_iff in Hp as [Ha Hb];
      cbn [code depth_first_linearization]; rewrite (IHa Ha), (IHb Hb); reflexivity.
  - destruct k. discriminate.
Qed.

Lemma plain_ordered e : plain e = true -> ordered e = true.
Proof.
  induction e as [sr v|k sr a IHa|k sr a IHa b IHb|k sr a IHa b IHb c IHc];
    intros Hp.
  - reflexivity.
  - destruct k; cbn in Hp; try discriminate; apply IHa, Hp.
  - destruct k; cbn in Hp; try discriminate;
      apply andb_true_iff in Hp as [Ha Hb]; cbn;
      rewrite (IHa Ha), (IHb Hb); reflexivity.
  - destruct k. discriminate.
Qed.

Lemma appended_code e pcode : appended e pcode = code e (length pcode).
Proof. unfold appended. rewrite precompile_code. apply drop_app_length. Qed.

Lemma length_precompile e pcode :
  length (precompile e pcode) = (length pcode + code_size e)%nat.
Proof. rewrite precompile_code, length_app, length_code. reflexivity. Qed.

Lemma appended_children_steps e : appended_children e [] = children_steps e.
Proof.
  assert (H0 : forall x, appended x [] = precompile x []) by reflexivity.
  assert (H1 : forall x p, p ++ appended x p = precompile x p).
  { intros x p. rewrite appended_code. symmetry. apply precompile_code. }
  destruct e as [sr v|k sr a|k sr a b|k sr a b c]; cbn [appended_children children_steps].
  - reflexivity.
  - apply H0.
  - rewrite H0. apply H1.
  - rewrite H0, app_assoc, H1. apply H1.
Qed.

Lemma length_children_steps e :
  length (children_steps e)
    = match e with
      | ExprValue _ _ => 0%nat
      | UnaryExpression _ _ a => code_size a
      | BinaryExpression _ _ a b => (code_size a + code_size b)%nat
      | TernaryExpression _ _ a b c => (code_size a + code_size b + code_size c)%nat
      end.
Proof.
  destruct e; cbn [children_steps]; rewrite ?length_precompile; cbn [length]; lia.
Qed.

Lemma inherited_appended e pcode :
  inherits_precompile e = true ->
  appended e pcode = appended_children e pcode ++ [own_step e].
Proof.
  intros Hi.
  destruct e as [sr v|k sr a|k sr a b|k sr a b c]; cbn [appended_children own_step].
  - rewrite appended_code. reflexivity.
  - rewrite !appended_code. destruct k; try discriminate; reflexivity.
  - rewrite !appended_code, length_precompile.
    destruct k; try discriminate; cbn [code]; rewrite <- app_assoc; reflexivity.
  - destruct k. discriminate.
Qed.

(** The linearization of a tree starts with the step of a leaf. *)
Lemma depth_first_linearization_head e :
  exists v rest, depth_first_linearization e = StepValue v :: rest.
Proof.
  induction e as [sr v|k sr a IHa|k sr a IHa b IHb|k sr a IHa b IHb c IHc];
    cbn [depth_first_linearization].
  - eexists _, _. reflexivity.
  - destruct IHa as (v & r & ->). eexists _, _. reflexivity.
  - destruct IHa as (v & r & ->). eexists _, _. reflexivity.
  - destruct IHa as (v & r & ->). eexists _, _. reflexivity.
Qed.

(** No step appended is the step of an assignment, which pushes none. *)
Lemma code_no_assignment e : forall base, StepBinary BAssign ∉ code e base.
Proof.
  induction e as [sr v|k sr a IHa|k sr a IHa b IHb|k sr a IHa b IHb c IHc];
    intros base H.
  - cbn in H. apply list_elem_of_singleton in H. discriminate.
  - destruct k; cbn [code] in H; apply elem_of_app in H as [H|H];
      try (exact (IHa _ H));
      repeat (apply elem_of_cons in H as [H|H]; [discriminate|]); inversion H.
  - destruct k; cbn [code] in H;
      repeat (apply elem_of_app in H as [H|H]; [try (exact (IHa _ H)); try (exact (IHb _ H))|]);
      try (exact (IHa _ H)); try (exact (IHb _ H));
      repeat (apply elem_of_cons in H as [H|H]; [discriminate|]); inversion H.
  - destruct k; cbn [code] in H.
    repeat (apply elem_of_app in H as [H|H];
            [try (exact (IHa _ H)); try (exact (IHb _ H));
             repeat (apply elem_of_cons in H as [H|H]; [discriminate|]); inversion H|]).
    exact (IHc _ H).
Qed.

Lemma linearization_assignment e :
  has_assignment e = true -> StepBinary BAssign ∈ depth_first_linearization e.
Proof.
  induction e as [sr v|k sr a IHa|k sr a IHa b IHb|k sr a IHa b IHb c IHc];
    cbn [has_assignment depth_first_linearization]; intros H.
  - discriminate.
  - apply elem_of_app. left. apply IHa, H.
  - destruct k;
      try (apply orb_true_iff in H as [H|H];
           [apply elem_of_app; left; apply IHa, H
           |apply elem_of_app; right; apply elem_of_app; left; apply IHb, H]).
    rewrite !elem_of_app. right. right. apply list_elem_of_singleton. reflexivity.
  - apply orb_true_iff in H as [H|H]; [apply orb_true_iff in H as [H|H]|];
      rewrite !elem_of_app; auto.
Qed.

Lemma length_without_gates_code e :
  has_assignment e = false ->
  forall base, length (without_gates (code e base)) = length (depth_first_linearization e).
Proof.
  induction e as [sr v|k sr a IHa|k sr a IHa b IHb|k sr a IHa b IHb c IHc];
    cbn [has_assignment]; intros H base.
  - reflexivity.
  - destruct k; cbn [code depth_first_linearization];
      rewrite without_gates_app, !length_app, (IHa H); reflexivity.
  - destruct k; try discriminate; apply orb_false_iff in H as [Ha Hb];
      cbn [code depth_first_linearization];
      rewrite ?without_gates_app, ?length_app, (IHa Ha), ?without_gates_app,
        ?length_app, (IHb Hb); cbn; lia.
  - destruct k. apply orb_false_iff in H as [H Hc]. apply orb_false_iff in H as [Ha Hb].
    cbn [code depth_first_linearization].
    rewrite ?without_gates_app, ?length_app, (IHa Ha), ?without_gates_app, ?length_app,
      (IHb Hb), ?without_gates_app, ?length_app, (IHc Hc). cbn. lia.
Qed.

(** Without assignments: if the steps appended, gates removed and
    sequence ids set aside, are the linearization, no node is a ternary
    conditional. *)
Lemma linearization_ordered e :
  has_assignment e = false ->
  forall base,
    map forget_seqId (without_gates (code e base))
      = map forget_seqId (depth_first_linearization e) ->
    ordered e = true.
Proof.
  induction e as [sr v|k sr a IHa|k sr a IHa b IHb|k sr a IHa b IHb c IHc];
    cbn [has_assignment]; intros H base Heq.
  - reflexivity.
  - cbn [ordered]. apply (IHa H base).
    destruct k; cbn [code depth_first_linearization] in Heq;
      rewrite without_gates_app, !map_app in Heq;
      (apply app_inj_1 in Heq as [Heq _];
       [exact Heq|rewrite !length_map; apply length_without_gates_code, H]).
  - destruct k; try discriminate; apply orb_false_iff in H as [Ha Hb];
      cbn [ordered]; cbn [code depth_first_linearization] in Heq;
      rewrite ?without_gates_app, ?map_app in Heq;
      (apply app_inj_1 in Heq as [Heqa Heq];
       [|rewrite !length_map; apply length_without_gates_code, Ha]);
      rewrite (IHa Ha _ Heqa); cbn [without_gates List.filter is_gate negb map app] in Heq;
      (apply app_inj_1 in Heq as [Heqb _];
       [|rewrite !length_map; apply length_without_gates_code, Hb]);
      rewrite (IHb Hb _ Heqb); reflexivity.
  - exfalso. destruct k.
    apply orb_false_iff in H as [H Hc]. apply orb_false_iff in H as [Ha Hb].
    cbn [code depth_first_linearization] in Heq.
    rewrite ?without_gates_app, ?map_app in Heq.
    apply app_inj_1 in Heq as [_ Heq];
      [|rewrite !length_map; apply length_without_gates_code, Ha].
    destruct (depth_first_linearization_head b) as (v & r & Hb').
    rewrite Hb' in Heq. cbn in Heq. discriminate.
Qed.

(** C2, as the code has it.  A node of a class that keeps the
    [precompile] of its base class, whatever its children are, appends
    the steps of each child in full, first child first, then its own
    step, and nothing else; these are the only nodes flattened so.  The
    [and] and [or] nodes append the same with their gate between the two
    children, the postfix increment and decrement with their gate after
    the own step.  Hence the steps appended for a tree are its depth-first
    linearization when every node keeps the method of its base class;
    gates removed, they are the linearization when no node is an
    assignment or a ternary conditional, and differ from it, whatever the
    sequence ids, as soon as one is.  The method of the ternary base class
    appends first, second, third and the own step, whatever the children
    are. *)
Theorem precompile_depth_first (pcode : PCode) :
  (forall e, inherits_precompile e = true ->
      appended e pcode = appended_children e pcode ++ [own_step e])
  /\ (forall e, children_first e <-> inherits_precompile e = true)
  /\ (forall k sr a b, k = BAnd \/ k = BOr ->
      exists gate,
        is_gate gate = true
        /\ appended (BinaryExpression k sr a b) pcode
           = appended a pcode ++ [gate]
             ++ appended b (precompile a pcode ++ [gate]) ++ [StepBinary k])
  /\ (forall k sr a, k = UPostInc \/ k = UPostDec ->
      exists gate,
        is_gate gate = true
        /\ appended (UnaryExpression k sr a) pcode
           = appended a pcode ++ [StepUnary k; gate])
  /\ (forall e, plain e = true -> appended e pcode = depth_first_linearization e)
  /\ (forall e, ordered e = true ->
        without_gates (appended e pcode) = depth_first_linearization e)
  /\ (forall e, ordered e = false ->
        map forget_seqId (without_gates (appended e pcode))
          <> map forget_seqId (depth_first_linearization e))
  /\ (forall self a b c,
        drop (length pcode) (TernaryExpression_precompile self a b c pcode)
          = appended a pcode ++ appended b (precompile a pcode)
            ++ appended c (precompile b (precompile a pcode)) ++ [self]).
Proof.
  split; [|split; [|split; [|split; [|split; [|split; [|split]]]]]].
  - intros e. apply inherited_appended.
  - intros e. split.
    + intros [own H]. apply (f_equal (@length PStep)) in H.
      rewrite length_precompile, length_app, length_children_steps in H.
      cbn [length] in H.
      destruct e as [sr v|k sr a|k sr a b|k sr a b c]; [reflexivity|..];
        destruct k; try reflexivity; cbn [code_size] in H; lia.
    + intros Hi. exists (own_step e).
      rewrite <- appended_children_steps, <- (inherited_appended e [] Hi). reflexivity.
  - intros k sr a b Hk.
    exists (match k with
            | BAnd => StepAndGate (Z.of_nat (length pcode + code_size a + 1 + code_size b + 1))
            | _ => StepOrGate (Z.of_nat (length pcode + code_size a + 1 + code_size b + 1))
            end).
    rewrite !appended_code, length_app, length_precompile. cbn [length].
    destruct Hk as [-> | ->]; (split; [reflexivity|]); reflexivity.
  - intros k sr a Hk.
    exists (match k with UPostInc => StepPostIncGate | _ => StepPostDecGate end).
    rewrite !appended_code.
    destruct Hk as [-> | ->]; (split; [reflexivity|]); reflexivity.
  - intros e Hp. rewrite appended_code. apply code_plain, Hp.
  - intros e Ho. rewrite appended_code. apply code_without_gates, Ho.
  - intros e Ho Heq. rewrite appended_code in Heq.
    destruct (has_assignment e) eqn:Ha.
    + pose proof (linearization_assignment e Ha) as Hin.
      apply list_elem_of_In, (List.in_map forget_seqId) in Hin. rewrite <- Heq in Hin.
      apply List.in_map_iff in Hin as (y & Hy & Hin).
      assert (y = StepBinary BAssign) by (destruct y; cbn in Hy; congruence). subst y.
      unfold without_gates in Hin. apply List.filter_In in Hin as [Hin _].
      apply list_elem_of_In in Hin. exact (code_no_assignment _ _ Hin).
    + rewrite (linearization_ordered e Ha _ Heq) in Ho. discriminate.
  - intros self a b c. unfold TernaryExpression_precompile, pushStep.
    rewrite !appended_code, !precompile_code, !length_app, !length_code.
    rewrite <- !app_assoc, drop_app_length. reflexivity.
Qed.

Lemma precompile_depth_first_witness :
  let sr := mkSourceRef 1 1 in
  let one := ExprValue sr (ItemInt 1) in
  let two := ExprValue sr (ItemInt 2) in
  (exists gate,
      is_gate gate = true
      /\ appended (BinaryExpression BAnd sr one two) []
         = appended one [] ++ [gate] ++ appended two (precompile one [] ++ [gate])
           ++ [StepBinary BAnd])
  /\ map forget_seqId (without_gates (appended (TernaryExpression TIIF sr one two two) []))
     <> map forget_seqId (depth_first_linearization (TernaryExpression TIIF sr one two two)).
Proof.
  intros sr one two. split.
  - apply (proj1 (proj2 (proj2 (precompile_depth_first []))) BAnd sr one two).
    left. reflexivity.
  - apply (proj1 (proj2 (proj2 (proj2 (proj2 (proj2 (proj2 (precompile_depth_first []))))))) 
             (TernaryExpression TIIF sr one two two)).
    reflexivity.
Defined.

(** C2 as stated fails on the nodes that override [precompile]: the
    ternary conditional pushes its own step between its first and its
    second child, and assignment emits its second child before its first
    and no step of its own.  The [and] node and the postfix increment
    append, besides the steps of their children and their own, a gate,
    which is the step of no node of the tree. *)
Lemma precompile_children_first_fails :
  let sr := mkSourceRef 1 1 in
  let one := ExprValue sr (ItemInt 1) in
  let two := ExprValue sr (ItemInt 2) in
  let three := ExprValue sr (ItemInt 3) in
  (precompile (TernaryExpression TIIF sr one two three) []
     = [StepValue (ItemInt 1); StepIIF 4; StepValue (ItemInt 2); StepIIFGate 5;
        StepValue (ItemInt 3)]
   /\ ~ children_first (TernaryExpression TIIF sr one two three))
  /\ (precompile (BinaryExpression BAssign sr one two) []
        = [StepValue (ItemInt 2); StepValue (ItemInt 1)]
      /\ ~ children_first (BinaryExpression BAssign sr one two))
  /\ (precompile (BinaryExpression BAnd sr one two) []
        = [StepValue (ItemInt 1); StepAndGate 4; StepValue (ItemInt 2); StepBinary BAnd]
      /\ ~ children_first (BinaryExpression BAnd sr one two))
  /\ (precompile (UnaryExpression UPostInc sr one) []
        = [StepValue (ItemInt 1); StepUnary UPostInc; StepPostIncGate]
      /\ ~ children_first (UnaryExpression UPostInc sr one)).
Proof.
  cbn zeta.
  split; [|split; [|split]]; (split; [reflexivity|]);
    intros [own H]; cbn in H; discriminate.
Qed.

(** ** Execution of a [PCode] *)

Section ExecFacts.

Variable isTrue : Item -> bool.
Variable Item_compare : Item -> Item -> Z.

Local Abbreviation apply := (apply_ isTrue Item_compare).
Local Abbreviation run := (PCode_apply_ isTrue Item_compare).
Local Abbreviation exec := (exec isTrue Item_compare).
Local Abbreviation evaluates := (evaluates isTrue Item_compare).

Lemma fetch_Some pcode ctx ps :
  fetch pcode ctx = Some ps ->
  (0 <= m_seqId ctx < PCode_size pcode)%Z /\ pcode !! Z.to_nat (m_seqId ctx) = Some ps.
Proof.
  unfold fetch, PCode_size. destruct (0 <=? m_seqId ctx)%Z eqn:H0; [|discriminate].
  intros H. apply Z.leb_le in H0. pose proof (lookup_lt_Some _ _ _ H). split; [lia|exact H].
Qed.

Lemma fetch_at pcode (i : nat) st ps :
  pcode !! i = Some ps -> fetch pcode (mkCtx st (Z.of_nat i)) = Some ps.
Proof.
  intros H. unfold fetch. cbn.
  destruct (0 <=? Z.of_nat i)%Z eqn:H0; [|apply Z.leb_gt in H0; lia].
  rewrite Nat2Z.id. exact H.
Qed.

Lemma generic_apply_seqId cpr ctx ctx' :
  generic_apply_ Item_compare cpr ctx = Normal ctx' -> m_seqId ctx' = m_seqId ctx.
Proof.
  unfold generic_apply_. destruct (dataStack ctx) as [|op2 [|op1 rest]]; try discriminate.
  destruct op1, op2; intros [= <-]; reflexivity.
Qed.

(** A step leaves the sequence id alone or assigns its own target. *)
Lemma apply_seqId ps ctx ctx' :
  apply ps ctx = Normal ctx' ->
  m_seqId ctx' = m_seqId ctx
  \/ exists t, jump_target ps = Some t /\ m_seqId ctx' = int32_wrap t.
Proof.
  intros H. destruct ps as [v|k|k|t|t|t| | |t]; cbn in H.
  - injection H as <-. left. reflexivity.
  - left. destruct k; try discriminate;
      unfold ExprNot_apply_, ExprNeg_apply_, ExprPreInc_apply_, ExprPostInc_apply_,
        ExprPreDec_apply_, ExprPostDec_apply_ in H;
      try (injection H as <-; reflexivity);
      (destruct (dataStack ctx) as [|it rest]; [discriminate|]);
      try (injection H as <-; reflexivity);
      destruct it; try discriminate; injection H as <-; reflexivity.
  - left. destruct k; try discriminate.
    + unfold ExprAnd_apply_ in H. destruct (dataStack ctx); [discriminate|].
      injection H as <-. reflexivity.
    + unfold ExprOr_apply_ in H. destruct (dataStack ctx); [discriminate|].
      injection H as <-. reflexivity.
    + unfold ExprEEQ_apply_ in H. destruct (dataStack ctx) as [|? [|? ?]]; try discriminate.
      injection H as <-. reflexivity.
    + apply generic_apply_seqId in H. exact H.
  - unfold ExprIIF_apply_ in H. destruct (dataStack ctx); [discriminate|].
    destruct (negb (isTrue i)); injection H as <-.
    + right. exists t. split; reflexivity.
    + left. reflexivity.
  - unfold ExprAnd_Gate_apply_ in H. destruct (dataStack ctx); [discriminate|].
    destruct (negb (isTrue i)); injection H as <-.
    + right. exists t. split; reflexivity.
    + left. reflexivity.
  - unfold ExprOr_Gate_apply_ in H. destruct (dataStack ctx); [discriminate|].
    destruct (isTrue i); injection H as <-.
    + right. exists t. split; reflexivity.
    + left. reflexivity.
  - left. unfold ExprPostInc_Gate_apply_ in H.
    destruct (dataStack ctx) as [|it rest]; [discriminate|].
    destruct it; try discriminate; injection H as <-; reflexivity.
  - left. unfold ExprPostDec_Gate_apply_ in H.
    destruct (dataStack ctx) as [|it rest]; [discriminate|].
    destruct it; try discriminate; injection H as <-; reflexivity.
  - injection H as <-. right. exists t. split; reflexivity.
Qed.

Lemma exec_one pcode ctx ps ctx1 :
  fetch pcode ctx = Some ps -> apply ps (advance ctx) = Normal ctx1 ->
  exec pcode ctx [m_seqId ctx] ctx1.
Proof. intros Hf Ha. eapply exec_step; [exact Hf|exact Ha|apply exec_done]. Qed.

Lemma exec_trans pcode c tr1 c1 tr2 c2 :
  exec pcode c tr1 c1 -> exec pcode c1 tr2 c2 -> exec pcode c (tr1 ++ tr2) c2.
Proof.
  induction 1 as [c|c ps c1 tr c1' Hf Ha He IH]; intros H2; cbn.
  - exact H2.
  - eapply exec_step; [exact Hf|exact Ha|apply IH, H2].
Qed.

(** The loop follows an execution and goes on from where it ends. *)
Lemma exec_run pcode c tr c' :
  exec pcode c tr c' -> forall fuel,
  run (length tr + fuel) pcode c
    = (tr ++ fst (run fuel pcode c'), snd (run fuel pcode c')).
Proof.
  induction 1 as [c|c ps c1 tr c1' Hf Ha He IH]; intros fuel.
  - cbn. destruct (run fuel pcode c). reflexivity.
  - cbn [length Nat.add PCode_apply_].
    destruct (fetch_Some _ _ _ Hf) as [Hr _].
    destruct (m_seqId c <? PCode_size pcode)%Z eqn:Hlt; [|apply Z.ltb_ge in Hlt; lia].
    rewrite Hf, Ha, IH. reflexivity.
Qed.

Lemma run_completed pcode ctx :
  (PCode_size pcode <= m_seqId ctx)%Z -> run 1 pcode ctx = ([], Completed ctx).
Proof.
  intros H. cbn. destruct (m_seqId ctx <? PCode_size pcode)%Z eqn:Hlt;
    [apply Z.ltb_lt in Hlt; lia|reflexivity].
Qed.

(** An execution that ends at the size of the sequence is a completed
    run of the loop. *)
Lemma exec_completed pcode c tr c' :
  exec pcode c tr c' -> (PCode_size pcode <= m_seqId c')%Z ->
  run (length tr + 1) pcode c = (tr, Completed c').
Proof.
  intros He Hend. rewrite (exec_run _ _ _ _ He), (run_completed _ _ Hend).
  cbn. rewrite app_nil_r. reflexivity.
Qed.

(** Where the jumps go forward the sequence id only grows: the steps an
    execution runs lie between its first and its last sequence id. *)
Lemma exec_forward pcode lo c tr c' :
  forward_from pcode lo -> exec pcode c tr c' -> (lo <= m_seqId c)%Z ->
  (m_seqId c <= m_seqId c')%Z
  /\ Forall (fun i => (m_seqId c <= i < m_seqId c')%Z) tr.
Proof.
  intros Hfw. induction 1 as [c|c ps c1 tr c1' Hf Ha He IH]; intros Hlo.
  - split; [lia|constructor].
  - destruct (fetch_Some _ _ _ Hf) as [Hr Hl].
    assert (Hnext : (m_seqId c < m_seqId c1)%Z).
    { destruct (apply_seqId _ _ _ Ha) as [-> | (t & Ht & ->)]; [cbn; lia|].
      assert (Hi : (lo <= Z.of_nat (Z.to_nat (m_seqId c)))%Z) by lia.
      pose proof (Hfw _ _ _ Hi Hl Ht) as Hb.
      rewrite int32_wrap_id; lia. }
    destruct IH as [IH1 IH2]; [lia|]. split; [lia|].
    constructor; [lia|].
    eapply Forall_impl; [exact IH2|]. cbn. intros i Hi. lia.
Qed.

End ExecFacts.

(** The sequence ids in the steps of a node point after the step and at
    most to the end of the node. *)
Lemma code_targets e : forall base (i : nat) ps t,
  code e base !! i = Some ps -> jump_target ps = Some t ->
  (Z.of_nat (base + i) < t <= Z.of_nat (base + code_size e))%Z.
Proof.
  induction e as [sr v|k sr a IHa|k sr a IHa b IHb|k sr a IHa b IHb c IHc];
    intros base i ps t Hl Ht.
  - destruct i as [|i]; cbn in Hl; [|discriminate].
    injection Hl as <-. discriminate.
  - assert (Hone : forall own, jump_target own = None ->
               (code a base ++ [own]) !! i = Some ps ->
               (Z.of_nat (base + i) < t <= Z.of_nat (base + (code_size a + 1)))%Z).
    { intros own Hown Hl'. apply lookup_app_Some in Hl' as [Hl'|[Hge Hl']].
      - pose proof (IHa _ _ _ _ Hl' Ht). lia.
      - destruct (i - length (code a base))%nat; cbn in Hl'; [|discriminate].
        injection Hl' as <-. congruence. }
    assert (Htwo : forall own gate, jump_target own = None -> jump_target gate = None ->
               (code a base ++ [own; gate]) !! i = Some ps ->
               (Z.of_nat (base + i) < t <= Z.of_nat (base + (code_size a + 2)))%Z).
    { intros own gate Hown Hgate Hl'. apply lookup_app_Some in Hl' as [Hl'|[Hge Hl']].
      - pose proof (IHa _ _ _ _ Hl' Ht). lia.
      - destruct (i - length (code a base))%nat as [|[|n]]; cbn in Hl'; try discriminate;
          injection Hl' as <-; congruence. }
    destruct k; cbn [code code_size] in *;
      first [eapply Hone; [|exact Hl]; reflexivity
            |eapply Htwo; [| |exact Hl]; reflexivity].
  - assert (Hplain : forall own, jump_target own = None ->
               (code a base ++ code b (base + code_size a) ++ [own]) !! i = Some ps ->
               (Z.of_nat (base + i) < t
                <= Z.of_nat (base + (code_size a + code_size b + 1)))%Z).
    { intros own Hown Hl'. apply lookup_app_Some in Hl' as [Hl'|[Hge Hl']].
      - pose proof (IHa _ _ _ _ Hl' Ht). lia.
      - rewrite length_code in Hge, Hl'.
        apply lookup_app_Some in Hl' as [Hl'|[Hge' Hl']].
        + pose proof (IHb _ _ _ _ Hl' Ht). lia.
        + destruct (i - code_size a - length (code b (base + code_size a)))%nat;
            cbn in Hl'; [|discriminate].
          injection Hl' as <-. congruence. }
    assert (Hgated : forall gate own,
               jump_target gate
                 = Some (Z.of_nat (base + code_size a + 1 + code_size b + 1)) ->
               jump_target own = None ->
               (code a base ++ [gate] ++ code b (base + code_size a + 1) ++ [own]) !! i
                 = Some ps ->
               (Z.of_nat (base + i) < t
                <= Z.of_nat (base + (code_size a + 1 + code_size b + 1)))%Z).
    { intros gate own Hgate Hown Hl'. apply lookup_app_Some in Hl' as [Hl'|[Hge Hl']].
      - pose proof (IHa _ _ _ _ Hl' Ht). lia.
      - rewrite length_code in Hge, Hl'.
        destruct (i - code_size a)%nat as [|n] eqn:Hn; cbn in Hl'.
        + injection Hl' as <-. rewrite Hgate in Ht. injection Ht as <-. lia.
        + apply lookup_app_Some in Hl' as [Hl'|[Hge' Hl']].
          * pose proof (IHb _ _ _ _ Hl' Ht). lia.
          * destruct (n - length (code b (base + code_size a + 1)))%nat;
              cbn in Hl'; [|discriminate].
            injection Hl' as <-. congruence. }
    destruct k; cbn [code code_size] in *.
    + eapply Hgated; [| |exact Hl]; reflexivity.
    + eapply Hgated; [| |exact Hl]; reflexivity.
    + apply lookup_app_Some in Hl as [Hl|[Hge Hl]].
      * pose proof (IHb _ _ _ _ Hl Ht). lia.
      * rewrite length_code in Hge, Hl. pose proof (IHa _ _ _ _ Hl Ht). lia.
    + eapply Hplain; [|exact Hl]; reflexivity.
    + eapply Hplain; [|exact Hl]; reflexivity.
    + eapply Hplain; [|exact Hl]; reflexivity.
    + eapply Hplain; [|exact Hl]; reflexivity.
  - destruct k; cbn [code code_size] in *.
    apply lookup_app_Some in Hl as [Hl|[Hge Hl]].
    { pose proof (IHa _ _ _ _ Hl Ht). lia. }
    rewrite length_code in Hge, Hl.
    destruct (i - code_size a)%nat as [|n] eqn:Hn; cbn in Hl.
    { injection Hl as <-. injection Ht as <-. lia. }
    apply lookup_app_Some in Hl as [Hl|[Hge' Hl]].
    { pose proof (IHb _ _ _ _ Hl Ht). lia. }
    rewrite length_code in Hge', Hl.
    destruct (n - code_size b)%nat as [|m] eqn:Hm; cbn in Hl.
    { injection Hl as <-. injection Ht as <-. lia. }
    pose proof (IHc _ _ _ _ Hl Ht). lia.
Qed.

(** The steps a node appended to a [PCode] only jump forward. *)
Lemma precompile_forward e pcode :
  (PCode_size (precompile e pcode) <= INT32_MAX)%Z ->
  forward_from (precompile e pcode) (PCode_size pcode).
Proof.
  unfold PCode_size. rewrite precompile_code, length_app, length_code.
  intros Hsize i ps t Hlo Hl Ht.
  rewrite lookup_app_r in Hl by lia.
  pose proof (code_targets _ _ _ _ _ Hl Ht). lia.
Qed.

(** ** Short circuit and conditional *)

Lemma lookup_first_mark (pre p rest : list PStep) x i :
  i = (length pre + length p)%nat -> (pre ++ (p ++ x :: rest)) !! i = Some x.
Proof.
  intros ->. rewrite app_assoc. apply list_lookup_middle.
  rewrite length_app. reflexivity.
Qed.

Lemma lookup_second_mark (pre p q rest : list PStep) x y i :
  i = (length pre + length p + 1 + length q)%nat ->
  (pre ++ (p ++ x :: q ++ y :: rest)) !! i = Some y.
Proof.
  intros ->. rewrite app_assoc, app_comm_cons, app_assoc. apply list_lookup_middle.
  rewrite !length_app. cbn [length]. lia.
Qed.

Section ShortCircuit.

Variable isTrue : Item -> bool.
Variable Item_compare : Item -> Item -> Z.

Local Abbreviation apply := (apply_ isTrue Item_compare).
Local Abbreviation run := (PCode_apply_ isTrue Item_compare).
Local Abbreviation exec := (exec isTrue Item_compare).
Local Abbreviation evaluates := (evaluates isTrue Item_compare).

(** The steps of [a and b] inside a sequence: after the steps of [a]
    have produced [va], the gate either ends the node with the boolean
    false, or pops [va] so that the steps of [b] and the step of the node
    follow. *)
Lemma ExprAnd_exec sr a b (pre rest pc : PCode) st va tr_a :
  pc = pre ++ code (BinaryExpression BAnd sr a b) (length pre) ++ rest ->
  let lo := Z.of_nat (length pre) in
  let gate := (lo + Z.of_nat (code_size a))%Z in
  let own := (gate + 1 + Z.of_nat (code_size b))%Z in
  (own + 1 <= INT32_MAX)%Z ->
  exec pc (mkCtx st lo) tr_a (mkCtx (va :: st) gate) ->
  fetch pc (mkCtx (va :: st) gate) = Some (StepAndGate (own + 1))
  /\ (isTrue va = false ->
      apply (StepAndGate (own + 1)) (mkCtx (va :: st) (gate + 1))
        = Normal (mkCtx (ItemBool false :: st) (own + 1))
      /\ exec pc (mkCtx st lo) (tr_a ++ [gate]) (mkCtx (ItemBool false :: st) (own + 1)))
  /\ (isTrue va = true ->
      apply (StepAndGate (own + 1)) (mkCtx (va :: st) (gate + 1))
        = Normal (mkCtx st (gate + 1))
      /\ forall vb tr_b,
           exec pc (mkCtx st (gate + 1)) tr_b (mkCtx (vb :: st) own) ->
           exec pc (mkCtx st lo) (tr_a ++ gate :: tr_b ++ [own])
             (mkCtx (ItemBool (isTrue vb) :: st) (own + 1))).
Proof.
  intros Hpc lo gate own Hmax Ha. cbn [code] in Hpc.
  set (n := length pre) in *.
  assert (Hgate_nat : gate = Z.of_nat (n + code_size a)) by (unfold gate, lo; lia).
  assert (Hown_nat : own = Z.of_nat (n + code_size a + 1 + code_size b))
    by (unfold own; lia).
  assert (HT : Z.of_nat (n + code_size a + 1 + code_size b + 1) = (own + 1)%Z) by lia.
  rewrite HT in Hpc. clearbody lo gate own.
  assert (Hfgate : forall s, fetch pc (mkCtx s gate) = Some (StepAndGate (own + 1))).
  { intros s. rewrite Hgate_nat. apply fetch_at. rewrite Hpc, <- app_assoc.
    apply lookup_first_mark. rewrite length_code. reflexivity. }
  assert (Hfown : forall s, fetch pc (mkCtx s own) = Some (StepBinary BAnd)).
  { intros s. rewrite Hown_nat. apply fetch_at. rewrite Hpc, <- !app_assoc.
    apply lookup_second_mark. rewrite !length_code. reflexivity. }
  assert (Hwrap : int32_wrap (own + 1) = (own + 1)%Z) by (apply int32_wrap_id; lia).
  split; [apply Hfgate|]. split.
  - intros Hva.
    assert (Hap : apply (StepAndGate (own + 1)) (mkCtx (va :: st) (gate + 1))
                  = Normal (mkCtx (ItemBool false :: st) (own + 1))).
    { cbn. unfold ExprAnd_Gate_apply_. cbn. rewrite Hva. cbn.
      unfold set_seqId. cbn. rewrite Hwrap. reflexivity. }
    split; [exact Hap|].
    eapply exec_trans; [exact Ha|].
    apply (exec_one isTrue Item_compare pc (mkCtx (va :: st) gate) _ _ (Hfgate _) Hap).
  - intros Hva.
    assert (Hap : apply (StepAndGate (own + 1)) (mkCtx (va :: st) (gate + 1))
                  = Normal (mkCtx st (gate + 1))).
    { cbn. unfold ExprAnd_Gate_apply_. cbn. rewrite Hva. reflexivity. }
    split; [exact Hap|]. intros vb tr_b Hb.
    assert (Hao : apply (StepBinary BAnd) (mkCtx (vb :: st) (own + 1))
                  = Normal (mkCtx (ItemBool (isTrue vb) :: st) (own + 1))) by reflexivity.
    eapply exec_trans; [exact Ha|].
    eapply exec_step; [apply Hfgate|exact Hap|].
    eapply exec_trans; [exact Hb|].
    apply (exec_one isTrue Item_compare pc (mkCtx (vb :: st) own) _ _ (Hfown _) Hao).
Qed.

(** The steps of [a or b] inside a sequence, the mirror image. *)
Lemma ExprOr_exec sr a b (pre rest pc : PCode) st va tr_a :
  pc = pre ++ code (BinaryExpression BOr sr a b) (length pre) ++ rest ->
  let lo := Z.of_nat (length pre) in
  let gate := (lo + Z.of_nat (code_size a))%Z in
  let own := (gate + 1 + Z.of_nat (code_size b))%Z in
  (own + 1 <= INT32_MAX)%Z ->
  exec pc (mkCtx st lo) tr_a (mkCtx (va :: st) gate) ->
  (isTrue va = true ->
      exec pc (mkCtx st lo) (tr_a ++ [gate]) (mkCtx (ItemBool true :: st) (own + 1)))
  /\ (isTrue va = false ->
      forall vb tr_b,
        exec pc (mkCtx st (gate + 1)) tr_b (mkCtx (vb :: st) own) ->
        exec pc (mkCtx st lo) (tr_a ++ gate :: tr_b ++ [own])
          (mkCtx (ItemBool (isTrue vb) :: st) (own + 1))).
Proof.
  intros Hpc lo gate own Hmax Ha. cbn [code] in Hpc.
  set (n := length pre) in *.
  assert (Hgate_nat : gate = Z.of_nat (n + code_size a)) by (unfold gate, lo; lia).
  assert (Hown_nat : own = Z.of_nat (n + code_size a + 1 + code_size b))
    by (unfold own; lia).
  assert (HT : Z.of_nat (n + code_size a + 1 + code_size b + 1) = (own + 1)%Z) by lia.
  rewrite HT in Hpc. clearbody lo gate own.
  assert (Hfgate : forall s, fetch pc (mkCtx s gate) = Some (StepOrGate (own + 1))).
  { intros s. rewrite Hgate_nat. apply fetch_at. rewrite Hpc, <- app_assoc.
    apply lookup_first_mark. rewrite length_code. reflexivity. }
  assert (Hfown : forall s, fetch pc (mkCtx s own) = Some (StepBinary BOr)).
  { intros s. rewrite Hown_nat. apply fetch_at. rewrite Hpc, <- !app_assoc.
    apply lookup_second_mark. rewrite !length_code. reflexivity. }
  assert (Hwrap : int32_wrap (own + 1) = (own + 1)%Z) by (apply int32_wrap_id; lia).
  split.
  - intros Hva.
    assert (Hap : apply (StepOrGate (own + 1)) (mkCtx (va :: st) (gate + 1))
                  = Normal (mkCtx (ItemBool true :: st) (own + 1))).
    { cbn. unfold ExprOr_Gate_apply_. cbn. rewrite Hva.
      unfold set_seqId. cbn. rewrite Hwrap. reflexivity. }
    eapply exec_trans; [exact Ha|].
    apply (exec_one isTrue Item_compare pc (mkCtx (va :: st) gate) _ _ (Hfgate _) Hap).
  - intros Hva vb tr_b Hb.
    assert (Hap : apply (StepOrGate (own + 1)) (mkCtx (va :: st) (gate + 1))
                  = Normal (mkCtx st (gate + 1))).
    { cbn. unfold ExprOr_Gate_apply_. cbn. rewrite Hva. reflexivity. }
    assert (Hao : apply (StepBinary BOr) (mkCtx (vb :: st) (own + 1))
                  = Normal (mkCtx (ItemBool (isTrue vb) :: st) (own + 1))) by reflexivity.
    eapply exec_trans; [exact Ha|].
    eapply exec_step; [apply Hfgate|exact Hap|].
    eapply exec_trans; [exact Hb|].
    apply (exec_one isTrue Item_compare pc (mkCtx (vb :: st) own) _ _ (Hfown _) Hao).
Qed.

(** The steps of [a ? b : c] inside a sequence. *)
Lemma ExprIIF_exec sr a b c (pre rest pc : PCode) st va tr_a :
  pc = pre ++ code (TernaryExpression TIIF sr a b c) (length pre) ++ rest ->
  let lo := Z.of_nat (length pre) in
  let self := (lo + Z.of_nat (code_size a))%Z in
  let gate := (self + 1 + Z.of_nat (code_size b))%Z in
  let third := (gate + 1)%Z in
  let fin := (third + Z.of_nat (code_size c))%Z in
  (fin <= INT32_MAX)%Z ->
  exec pc (mkCtx st lo) tr_a (mkCtx (va :: st) self) ->
  fetch pc (mkCtx (va :: st) self) = Some (StepIIF third)
  /\ (forall s, fetch pc (mkCtx s gate) = Some (StepIIFGate fin))
  /\ (isTrue va = false ->
      apply (StepIIF third) (mkCtx (va :: st) (self + 1)) = Normal (mkCtx st third)
      /\ forall vc tr_c,
           exec pc (mkCtx st third) tr_c (mkCtx (vc :: st) fin) ->
           exec pc (mkCtx st lo) (tr_a ++ self :: tr_c) (mkCtx (vc :: st) fin))
  /\ (isTrue va = true ->
      apply (StepIIF third) (mkCtx (va :: st) (self + 1)) = Normal (mkCtx st (self + 1))
      /\ forall vb tr_b,
           exec pc (mkCtx st (self + 1)) tr_b (mkCtx (vb :: st) gate) ->
           apply (StepIIFGate fin) (mkCtx (vb :: st) (gate + 1))
             = Normal (mkCtx (vb :: st) fin)
           /\ exec pc (mkCtx st lo) (tr_a ++ self :: tr_b ++ [gate])
                (mkCtx (vb :: st) fin)).
Proof.
  intros Hpc lo self gate third fin Hmax Ha. cbn [code] in Hpc.
  set (n := length pre) in *.
  assert (Hself_nat : self = Z.of_nat (n + code_size a)) by (unfold self, lo; lia).
  assert (Hgate_nat : gate = Z.of_nat (n + code_size a + 1 + code_size b))
    by (unfold gate; lia).
  assert (HF : Z.of_nat (n + code_size a + 1 + code_size b + 1) = third)
    by (unfold third; lia).
  assert (HE : Z.of_nat (n + code_size a + 1 + code_size b + 1 + code_size c) = fin)
    by (unfold fin; lia).
  rewrite HF, HE in Hpc.
  assert (Hthird : (0 <= third <= fin)%Z) by (unfold fin; lia).
  clearbody lo self gate third fin.
  assert (Hfself : forall s, fetch pc (mkCtx s self) = Some (StepIIF third)).
  { intros s. rewrite Hself_nat. apply fetch_at. rewrite Hpc, <- app_assoc.
    apply lookup_first_mark. rewrite length_code. reflexivity. }
  assert (Hfgate : forall s, fetch pc (mkCtx s gate) = Some (StepIIFGate fin)).
  { intros s. rewrite Hgate_nat. apply fetch_at. rewrite Hpc, <- !app_assoc.
    apply lookup_second_mark. rewrite !length_code. reflexivity. }
  assert (Hwrap_fin : int32_wrap fin = fin) by (apply int32_wrap_id; lia).
  assert (Hwrap_third : int32_wrap third = third) by (apply int32_wrap_id; lia).
  split; [apply Hfself|]. split; [exact Hfgate|]. split.
  - intros Hva.
    assert (Hap : apply (StepIIF third) (mkCtx (va :: st) (self + 1))
                  = Normal (mkCtx st third)).
    { cbn. unfold ExprIIF_apply_. cbn. rewrite Hva. cbn.
      unfold set_seqId. cbn. rewrite Hwrap_third. reflexivity. }
    split; [exact Hap|]. intros vc tr_c Hc.
    eapply exec_trans; [exact Ha|].
    eapply exec_step; [apply Hfself|exact Hap|exact Hc].
  - intros Hva.
    assert (Hap : apply (StepIIF third) (mkCtx (va :: st) (self + 1))
                  = Normal (mkCtx st (self + 1))).
    { cbn. unfold ExprIIF_apply_. cbn. rewrite Hva. reflexivity. }
    split; [exact Hap|]. intros vb tr_b Hb.
    assert (Hag : apply (StepIIFGate fin) (mkCtx (vb :: st) (gate + 1))
                  = Normal (mkCtx (vb :: st) fin)).
    { cbn. unfold ExprIIF_Gate_apply_, set_seqId. cbn. rewrite Hwrap_fin. reflexivity. }
    split; [exact Hag|].
    eapply exec_trans; [exact Ha|].
    eapply exec_step; [apply Hfself|exact Hap|].
    eapply exec_trans; [exact Hb|].
    apply (exec_one isTrue Item_compare pc (mkCtx (vb :: st) gate) _ _ (Hfgate _) Hag).
Qed.

(** C1: short circuit of [a and b].  Let the steps of [a], run inside
    the precompiled sequence, evaluate to [va].  The gate that follows
    them holds the size the sequence had when the node was precompiled.
    If [va] is false the gate turns it into the boolean false and assigns
    that size to the sequence id: the run completes having executed the
    steps of [a] and the gate only, none of [b], with that one boolean on
    the data stack.  If [va] is true the gate pops it, the steps of [b]
    run, and the step of the node leaves one boolean, the truth value of
    what [b] evaluated to. *)
Theorem ExprAnd_short_circuit (sr : SourceRef) (a b : Expression)
    (pcode : PCode) (st : list Item) (va : Item) :
  let pc := precompile (BinaryExpression BAnd sr a b) pcode in
  let lo := PCode_size pcode in
  let gate := (lo + Z.of_nat (code_size a))%Z in
  let own := (gate + 1 + Z.of_nat (code_size b))%Z in
  (PCode_size pc <= INT32_MAX)%Z ->
  evaluates pc lo gate st va ->
  fetch pc (mkCtx (va :: st) gate) = Some (StepAndGate (PCode_size pc))
  /\ PCode_size pc = (own + 1)%Z
  /\ (isTrue va = false ->
      apply (StepAndGate (PCode_size pc)) (mkCtx (va :: st) (gate + 1))
        = Normal (mkCtx (ItemBool false :: st) (PCode_size pc))
      /\ exists fuel tr_a,
           run fuel pc (mkCtx st lo)
             = (tr_a ++ [gate],
                Completed (mkCtx (ItemBool false :: st) (PCode_size pc)))
           /\ Forall (fun i => (lo <= i < gate)%Z) tr_a)
  /\ (isTrue va = true ->
      forall vb, evaluates pc (gate + 1) own st vb ->
      apply (StepAndGate (PCode_size pc)) (mkCtx (va :: st) (gate + 1))
        = Normal (mkCtx st (gate + 1))
      /\ exists fuel tr_a tr_b,
           run fuel pc (mkCtx st lo)
             = (tr_a ++ gate :: tr_b ++ [own],
                Completed (mkCtx (ItemBool (isTrue vb) :: st) (PCode_size pc)))
           /\ Forall (fun i => (lo <= i < gate)%Z) tr_a
           /\ Forall (fun i => (gate + 1 <= i < own)%Z) tr_b).
Proof.
  intros pc lo gate own Hsize [tr_a Ha].
  assert (Hpc : pc = pcode ++ code (BinaryExpression BAnd sr a b) (length pcode) ++ []).
  { unfold pc. rewrite app_nil_r. apply precompile_code. }
  assert (Hend : PCode_size pc = (own + 1)%Z).
  { unfold PCode_size. rewrite Hpc, app_nil_r, length_app, length_code.
    unfold own, gate, lo, PCode_size. cbn [code_size]. lia. }
  assert (Hfw : forward_from pc lo) by (apply precompile_forward; exact Hsize).
  assert (Hmax : (own + 1 <= INT32_MAX)%Z) by (rewrite <- Hend; exact Hsize).
  destruct (exec_forward isTrue Item_compare _ _ _ _ _ Hfw Ha) as [_ Htr_a];
    [cbn; lia|]. cbn in Htr_a.
  destruct (ExprAnd_exec sr a b pcode [] pc st va tr_a Hpc Hmax Ha)
    as (Hfetch & Hfalse & Htrue).
  rewrite Hend. split; [exact Hfetch|]. split; [reflexivity|]. split.
  - intros Hva. destruct (Hfalse Hva) as [Hap He]. split; [exact Hap|].
    exists (length (tr_a ++ [gate]) + 1)%nat, tr_a. split; [|exact Htr_a].
    apply exec_completed; [exact He|]. cbn [m_seqId]. lia.
  - intros Hva vb [tr_b Hb]. destruct (Htrue Hva) as [Hap He]. split; [exact Hap|].
    destruct (exec_forward isTrue Item_compare _ _ _ _ _ Hfw Hb) as [_ Htr_b];
      [cbn; unfold gate; lia|]. cbn in Htr_b.
    exists (length (tr_a ++ gate :: tr_b ++ [own]) + 1)%nat, tr_a, tr_b.
    split; [|split; assumption].
    apply exec_completed; [apply He, Hb|]. cbn [m_seqId]. lia.
Qed.

(** C3: the ternary conditional [a ? b : c].  Let the steps of [a]
    evaluate to [va].  The step of the node pops [va].  If [va] is false
    it assigns the sequence id the start of [c], recorded at
    precompilation: the steps of [c] run, none of [b], and the run
    completes with the value of [c] as the one item pushed.  If [va] is
    true the steps of [b] run and the gate after them assigns the
    sequence id the end of the sequence: no step of [c] runs, and the run
    completes with the value of [b] as the one item pushed. *)
Theorem ExprIIF_branches (sr : SourceRef) (a b c : Expression)
    (pcode : PCode) (st : list Item) (va : Item) :
  let pc := precompile (TernaryExpression TIIF sr a b c) pcode in
  let lo := PCode_size pcode in
  let self := (lo + Z.of_nat (code_size a))%Z in
  let gate := (self + 1 + Z.of_nat (code_size b))%Z in
  let third := (gate + 1)%Z in
  (PCode_size pc <= INT32_MAX)%Z ->
  evaluates pc lo self st va ->
  fetch pc (mkCtx (va :: st) self) = Some (StepIIF third)
  /\ (forall s, fetch pc (mkCtx s gate) = Some (StepIIFGate (PCode_size pc)))
  /\ PCode_size pc = (third + Z.of_nat (code_size c))%Z
  /\ (isTrue va = false ->
      forall vc, evaluates pc third (PCode_size pc) st vc ->
      apply (StepIIF third) (mkCtx (va :: st) (self + 1)) = Normal (mkCtx st third)
      /\ exists fuel tr_a tr_c,
           run fuel pc (mkCtx st lo)
             = (tr_a ++ self :: tr_c, Completed (mkCtx (vc :: st) (PCode_size pc)))
           /\ Forall (fun i => (lo <= i < self)%Z) tr_a
           /\ Forall (fun i => (third <= i < PCode_size pc)%Z) tr_c)
  /\ (isTrue va = true ->
      forall vb, evaluates pc (self + 1) gate st vb ->
      apply (StepIIF third) (mkCtx (va :: st) (self + 1)) = Normal (mkCtx st (self + 1))
      /\ apply (StepIIFGate (PCode_size pc)) (mkCtx (vb :: st) (gate + 1))
           = Normal (mkCtx (vb :: st) (PCode_size pc))
      /\ exists fuel tr_a tr_b,
           run fuel pc (mkCtx st lo)
             = (tr_a ++ self :: tr_b ++ [gate],
                Completed (mkCtx (vb :: st) (PCode_size pc)))
           /\ Forall (fun i => (lo <= i < self)%Z) tr_a
           /\ Forall (fun i => (self + 1 <= i < gate)%Z) tr_b).
Proof.
  intros pc lo self gate third Hsize [tr_a Ha].
  assert (Hpc : pc = pcode ++ code (TernaryExpression TIIF sr a b c) (length pcode) ++ []).
  { unfold pc. rewrite app_nil_r. apply precompile_code. }
  assert (Hend : PCode_size pc = (third + Z.of_nat (code_size c))%Z).
  { unfold PCode_size. rewrite Hpc, app_nil_r, length_app, length_code.
    unfold third, gate, self, lo, PCode_size. cbn [code_size]. lia. }
  assert (Hfw : forward_from pc lo) by (apply precompile_forward; exact Hsize).
  assert (Hmax : (third + Z.of_nat (code_size c) <= INT32_MAX)%Z)
    by (rewrite <- Hend; exact Hsize).
  destruct (exec_forward isTrue Item_compare _ _ _ _ _ Hfw Ha) as [_ Htr_a];
    [cbn; lia|]. cbn in Htr_a.
  destruct (ExprIIF_exec sr a b c pcode [] pc st va tr_a Hpc Hmax Ha)
    as (Hfself & Hfgate & Hfalse & Htrue).
  rewrite Hend. split; [exact Hfself|]. split; [exact Hfgate|].
  split; [reflexivity|]. split.
  - intros Hva vc [tr_c Hc]. destruct (Hfalse Hva) as [Hap He]. split; [exact Hap|].
    destruct (exec_forward isTrue Item_compare _ _ _ _ _ Hfw Hc) as [_ Htr_c];
      [cbn; unfold third, gate, self; lia|]. cbn in Htr_c.
    exists (length (tr_a ++ self :: tr_c) + 1)%nat, tr_a, tr_c.
    split; [|split; assumption].
    apply exec_completed; [apply He, Hc|]. cbn [m_seqId]. lia.
  - intros Hva vb [tr_b Hb]. destruct (Htrue Hva) as [Hap He]. split; [exact Hap|].
    destruct (He vb tr_b Hb) as [Hag He'].
    split; [exact Hag|].
    destruct (exec_forward isTrue Item_compare _ _ _ _ _ Hfw Hb) as [_ Htr_b];
      [cbn; unfold self; lia|]. cbn in Htr_b.
    exists (length (tr_a ++ self :: tr_b ++ [gate]) + 1)%nat, tr_a, tr_b.
    split; [|split; assumption].
    apply exec_completed; [exact He'|]. cbn [m_seqId]. lia.
Qed.

(** X2: the scenario of the specification, [(a and b) or c] with [a] false:
    no step of [b] runs, and [c] decides the one boolean left.  The gate
    of [or] tests the boolean false the gate of [and] left, which is
    taken to be false as a truth value. *)
Lemma and_or_short_circuit (sr1 sr2 : SourceRef) (a b c : Expression)
    (pcode : PCode) (st : list Item) (va vc : Item) :
  let e := BinaryExpression BOr sr1 (BinaryExpression BAnd sr2 a b) c in
  let pc := precompile e pcode in
  let lo := PCode_size pcode in
  let gate := (lo + Z.of_nat (code_size a))%Z in
  let or_gate := (gate + 1 + Z.of_nat (code_size b) + 1)%Z in
  let or_own := (or_gate + 1 + Z.of_nat (code_size c))%Z in
  isTrue (ItemBool false) = false ->
  (PCode_size pc <= INT32_MAX)%Z ->
  evaluates pc lo gate st va -> isTrue va = false ->
  evaluates pc (or_gate + 1) or_own st vc ->
  exists fuel tr_a tr_c,
    run fuel pc (mkCtx st lo)
      = (tr_a ++ gate :: or_gate :: tr_c ++ [or_own],
         Completed (mkCtx (ItemBool (isTrue vc) :: st) (PCode_size pc)))
    /\ Forall (fun i => (lo <= i < gate)%Z) tr_a
    /\ Forall (fun i => (or_gate + 1 <= i < or_own)%Z) tr_c.
Proof.
  intros e pc lo gate or_gate or_own Hbool Hsize [tr_a Ha] Hva [tr_c Hc].
  assert (Hpc : pc = pcode ++ code e (length pcode) ++ []).
  { unfold pc. rewrite app_nil_r. apply precompile_code. }
  assert (Hend : PCode_size pc = (or_own + 1)%Z).
  { unfold PCode_size. rewrite Hpc, app_nil_r, length_app, length_code.
    unfold or_own, or_gate, gate, lo, PCode_size. cbn [code_size e]. lia. }
  assert (Hfw : forward_from pc lo) by (apply precompile_forward; exact Hsize).
  destruct (exec_forward isTrue Item_compare _ _ _ _ _ Hfw Ha) as [_ Htr_a];
    [cbn; lia|]. cbn in Htr_a.
  destruct (exec_forward isTrue Item_compare _ _ _ _ _ Hfw Hc) as [_ Htr_c];
    [cbn; unfold or_gate, gate; lia|]. cbn in Htr_c.
  assert (Hinner : exists rest,
             pc = pcode ++ code (BinaryExpression BAnd sr2 a b) (length pcode) ++ rest).
  { eexists. rewrite Hpc, app_nil_r. unfold e. cbn [code].
    rewrite <- !app_assoc. reflexivity. }
  destruct Hinner as [rest Hinner].
  assert (Hlo : lo = Z.of_nat (length pcode)) by reflexivity.
  assert (Hmax : (or_own + 1 <= INT32_MAX)%Z) by (rewrite <- Hend; exact Hsize).
  clearbody pc lo.
  pose proof (ExprAnd_exec sr2 a b pcode rest pc st va tr_a Hinner) as Hand.
  cbn zeta in Hand. rewrite <- Hlo in Hand. fold gate in Hand.
  destruct Hand as (_ & Hand & _); [unfold or_own, or_gate in Hmax; lia|exact Ha|].
  destruct (Hand Hva) as [_ Hinner_exec].
  pose proof (ExprOr_exec sr1 (BinaryExpression BAnd sr2 a b) c pcode [] pc st
                (ItemBool false) (tr_a ++ [gate]) Hpc) as Hor.
  cbn zeta in Hor. cbn [code_size] in Hor. rewrite <- Hlo in Hor.
  replace (lo + Z.of_nat (code_size a + 1 + code_size b + 1))%Z with or_gate in Hor
    by (unfold or_gate, gate; lia).
  fold or_own in Hor.
  destruct Hor as (_ & Hor); [exact Hmax|exact Hinner_exec|].
  specialize (Hor Hbool vc tr_c Hc).
  exists (length (tr_a ++ gate :: or_gate :: tr_c ++ [or_own]) + 1)%nat, tr_a, tr_c.
  split; [|split; assumption].
  rewrite Hend. apply exec_completed; [|cbn [m_seqId]; lia].
  rewrite <- app_assoc in Hor. exact Hor.
Qed.

End ShortCircuit.

(** ** Pure expressions evaluate *)

Ltac list_eq :=
  rewrite <- ?app_assoc; cbn [app]; rewrite <- ?app_assoc; cbn [app];
  repeat (f_equal; try lia).

Section Adequacy.

Variable isTrue : Item -> bool.
Variable Item_compare : Item -> Item -> Z.

Local Abbreviation apply := (apply_ isTrue Item_compare).
Local Abbreviation exec := (exec isTrue Item_compare).

(** A pure expression, wherever its steps sit in a sequence, evaluates:
    its steps run from the first to the end and push exactly one item. *)
Lemma pure_evaluates e :
  pure e = true ->
  forall (pre rest pc : PCode) st,
  pc = pre ++ code e (length pre) ++ rest ->
  (Z.of_nat (length pre + code_size e) <= INT32_MAX)%Z ->
  exists v tr,
    exec pc (mkCtx st (Z.of_nat (length pre))) tr
      (mkCtx (v :: st) (Z.of_nat (length pre + code_size e))).
Proof.
  induction e as [sr v|k sr a IHa|k sr a IHa b IHb|k sr a IHa b IHb c IHc];
    intros Hp pre rest pc st Hpc Hmax.
  - (* value *)
    exists v, [Z.of_nat (length pre)].
    cbn [code] in Hpc.
    apply (exec_one isTrue Item_compare pc (mkCtx st (Z.of_nat (length pre)))
             (StepValue v)).
    + apply fetch_at. rewrite Hpc. apply list_lookup_middle. reflexivity.
    + cbn. unfold ExprValue_apply_, with_stack. cbn. do 2 f_equal.
      cbn [code_size]. lia.
  - (* not *)
    destruct k; try discriminate. cbn [pure] in Hp. cbn [code code_size] in *.
    destruct (IHa Hp pre ([StepUnary UNot] ++ rest) pc st) as (va & tr_a & Ha).
    { rewrite Hpc, <- app_assoc. reflexivity. }
    { lia. }
    exists (ItemBool (negb (isTrue va))), (tr_a ++ [Z.of_nat (length pre + code_size a)]).
    eapply exec_trans; [exact Ha|].
    apply (exec_one isTrue Item_compare pc
             (mkCtx (va :: st) (Z.of_nat (length pre + code_size a))) (StepUnary UNot)).
    + apply fetch_at. rewrite Hpc, <- app_assoc. apply lookup_first_mark.
      rewrite length_code. reflexivity.
    + cbn. unfold ExprNot_apply_, with_top. cbn. do 2 f_equal. lia.
  - destruct k; try discriminate; cbn [pure] in Hp;
      apply andb_true_iff in Hp as [Hpa Hpb]; cbn [code code_size] in *.
    + (* and *)
      assert (Hpca : exists rest', pc = pre ++ code a (length pre) ++ rest').
      { eexists. rewrite Hpc, <- !app_assoc. reflexivity. }
      destruct Hpca as [rest_a Hpca].
      destruct (IHa Hpa pre rest_a pc st Hpca) as (va & tr_a & Ha); [lia|].
      pose proof (ExprAnd_exec isTrue Item_compare sr a b pre rest pc st va tr_a) as H.
      cbn zeta in H. cbn [code] in H. specialize (H Hpc).
      replace (Z.of_nat (length pre) + Z.of_nat (code_size a))%Z
        with (Z.of_nat (length pre + code_size a)) in H by lia.
      destruct H as (_ & Hfalse & Htrue); [lia|exact Ha|].
      replace (Z.of_nat (length pre + (code_size a + 1 + code_size b + 1)))
        with (Z.of_nat (length pre + code_size a) + 1 + Z.of_nat (code_size b) + 1)%Z
        by lia.
      destruct (isTrue va) eqn:Hva.
      * destruct (Htrue eq_refl) as [_ Hrun].
        destruct (IHb Hpb (pre ++ code a (length pre)
                             ++ [StepAndGate (Z.of_nat (length pre + code_size a + 1
                                                        + code_size b + 1))])
                    ([StepBinary BAnd] ++ rest) pc st) as (vb & tr_b & Hb).
        { rewrite Hpc, !length_app, length_code. cbn [length].
          list_eq. }
        { rewrite !length_app, length_code. cbn [length]. lia. }
        rewrite !length_app, length_code in Hb. cbn [length] in Hb.
        replace (Z.of_nat (length pre + (code_size a + 1)))
          with (Z.of_nat (length pre + code_size a) + 1)%Z in Hb by lia.
        replace (Z.of_nat (length pre + (code_size a + 1) + code_size b))
          with (Z.of_nat (length pre + code_size a) + 1 + Z.of_nat (code_size b))%Z
          in Hb by lia.
        eexists _, _. apply (Hrun vb tr_b Hb).
      * destruct (Hfalse eq_refl) as [_ Hrun]. eexists _, _. exact Hrun.
    + (* or *)
      assert (Hpca : exists rest', pc = pre ++ code a (length pre) ++ rest').
      { eexists. rewrite Hpc, <- !app_assoc. reflexivity. }
      destruct Hpca as [rest_a Hpca].
      destruct (IHa Hpa pre rest_a pc st Hpca) as (va & tr_a & Ha); [lia|].
      pose proof (ExprOr_exec isTrue Item_compare sr a b pre rest pc st va tr_a) as H.
      cbn zeta in H. cbn [code] in H. specialize (H Hpc).
      replace (Z.of_nat (length pre) + Z.of_nat (code_size a))%Z
        with (Z.of_nat (length pre + code_size a)) in H by lia.
      destruct H as (Htrue & Hfalse); [lia|exact Ha|].
      replace (Z.of_nat (length pre + (code_size a + 1 + code_size b + 1)))
        with (Z.of_nat (length pre + code_size a) + 1 + Z.of_nat (code_size b) + 1)%Z
        by lia.
      destruct (isTrue va) eqn:Hva.
      * eexists _, _. exact (Htrue eq_refl).
      * destruct (IHb Hpb (pre ++ code a (length pre)
                             ++ [StepOrGate (Z.of_nat (length pre + code_size a + 1
                                                       + code_size b + 1))])
                    ([StepBinary BOr] ++ rest) pc st) as (vb & tr_b & Hb).
        { rewrite Hpc, !length_app, length_code. cbn [length].
          list_eq. }
        { rewrite !length_app, length_code. cbn [length]. lia. }
        rewrite !length_app, length_code in Hb. cbn [length] in Hb.
        replace (Z.of_nat (length pre + (code_size a + 1)))
          with (Z.of_nat (length pre + code_size a) + 1)%Z in Hb by lia.
        replace (Z.of_nat (length pre + (code_size a + 1) + code_size b))
          with (Z.of_nat (length pre + code_size a) + 1 + Z.of_nat (code_size b))%Z
          in Hb by lia.
        eexists _, _. apply (Hfalse eq_refl vb tr_b Hb).
    + (* exact equality *)
      assert (Hpca : exists rest', pc = pre ++ code a (length pre) ++ rest').
      { eexists. rewrite Hpc, <- !app_assoc. reflexivity. }
      destruct Hpca as [rest_a Hpca].
      destruct (IHa Hpa pre rest_a pc st Hpca) as (va & tr_a & Ha); [lia|].
      destruct (IHb Hpb (pre ++ code a (length pre)) ([StepBinary BEEQ] ++ rest) pc
                  (va :: st)) as (vb & tr_b & Hb).
      { rewrite Hpc, length_app, length_code, <- !app_assoc. reflexivity. }
      { rewrite length_app, length_code. lia. }
      rewrite length_app, length_code in Hb.
      exists (ItemBool (ExprEEQ_result va vb)),
        (tr_a ++ tr_b ++ [Z.of_nat (length pre + code_size a + code_size b)]).
      eapply exec_trans; [exact Ha|]. eapply exec_trans; [exact Hb|].
      apply (exec_one isTrue Item_compare pc
               (mkCtx (vb :: va :: st) (Z.of_nat (length pre + code_size a + code_size b)))
               (StepBinary BEEQ)).
      * apply fetch_at. rewrite Hpc, <- !app_assoc, app_assoc.
        apply lookup_first_mark. rewrite length_app, !length_code. reflexivity.
      * cbn. unfold ExprEEQ_apply_, with_stack. cbn. do 2 f_equal. lia.
  - (* conditional *)
    destruct k. cbn [pure] in Hp.
    apply andb_true_iff in Hp as [Hp Hpc'].
    apply andb_true_iff in Hp as [Hpa Hpb]. cbn [code code_size] in *.
    assert (Hpca : exists rest', pc = pre ++ code a (length pre) ++ rest').
      { eexists. rewrite Hpc, <- !app_assoc. reflexivity. }
      destruct Hpca as [rest_a Hpca].
      destruct (IHa Hpa pre rest_a pc st Hpca) as (va & tr_a & Ha); [lia|].
    pose proof (ExprIIF_exec isTrue Item_compare sr a b c pre rest pc st va tr_a) as H.
    cbn zeta in H. cbn [code] in H. specialize (H Hpc).
    replace (Z.of_nat (length pre) + Z.of_nat (code_size a))%Z
      with (Z.of_nat (length pre + code_size a)) in H by lia.
    destruct H as (_ & _ & Hfalse & Htrue); [lia|exact Ha|].
    replace (Z.of_nat (length pre + (code_size a + 1 + code_size b + 1 + code_size c)))
      with (Z.of_nat (length pre + code_size a) + 1 + Z.of_nat (code_size b) + 1
            + Z.of_nat (code_size c))%Z by lia.
    destruct (isTrue va) eqn:Hva.
    + destruct (Htrue eq_refl) as [_ Hrun].
      destruct (IHb Hpb (pre ++ code a (length pre)
                           ++ [StepIIF (Z.of_nat (length pre + code_size a + 1
                                                  + code_size b + 1))])
                  ([StepIIFGate (Z.of_nat (length pre + code_size a + 1 + code_size b + 1
                                           + code_size c))]
                   ++ code c (length pre + code_size a + 1 + code_size b + 1) ++ rest)
                  pc st) as (vb & tr_b & Hb).
      { rewrite Hpc, !length_app, length_code. cbn [length].
        list_eq. }
      { rewrite !length_app, length_code. cbn [length]. lia. }
      rewrite !length_app, length_code in Hb. cbn [length] in Hb.
      replace (Z.of_nat (length pre + (code_size a + 1)))
        with (Z.of_nat (length pre + code_size a) + 1)%Z in Hb by lia.
      replace (Z.of_nat (length pre + (code_size a + 1) + code_size b))
        with (Z.of_nat (length pre + code_size a) + 1 + Z.of_nat (code_size b))%Z
        in Hb by lia.
      destruct (Hrun vb tr_b Hb) as [_ Hrun']. eexists _, _. exact Hrun'.
    + destruct (Hfalse eq_refl) as [_ Hrun].
      destruct (IHc Hpc' (pre ++ code a (length pre)
                           ++ [StepIIF (Z.of_nat (length pre + code_size a + 1
                                                  + code_size b + 1))]
                           ++ code b (length pre + code_size a + 1)
                           ++ [StepIIFGate (Z.of_nat (length pre + code_size a + 1
                                                      + code_size b + 1 + code_size c))])
                  rest pc st) as (vc & tr_c & Hc).
      { rewrite Hpc.
        repeat first [rewrite length_app | rewrite length_code | progress cbn [length]].
        list_eq. }
      { repeat first [rewrite length_app | rewrite length_code | progress cbn [length]].
        lia. }
      repeat first [rewrite length_app in Hc | rewrite length_code in Hc
                   | progress cbn [length] in Hc].
      match type of Hc with
      | exec _ (mkCtx _ ?x) _ (mkCtx _ ?y) =>
          replace x
            with (Z.of_nat (length pre + code_size a) + 1 + Z.of_nat (code_size b) + 1)%Z
            in Hc by lia;
          replace y
            with (Z.of_nat (length pre + code_size a) + 1 + Z.of_nat (code_size b) + 1
                  + Z.of_nat (code_size c))%Z in Hc by lia
      end.
      eexists _, _. apply (Hrun vc tr_c Hc).
Qed.

End Adequacy.

Lemma ExprAnd_short_circuit_witness :
  let sr := mkSourceRef 1 1 in
  let pc := precompile (BinaryExpression BAnd sr (ExprValue sr (ItemBool false))
                          (ExprValue sr (ItemInt 1))) [] in
  exists fuel tr_a,
    PCode_apply_ sample_isTrue sample_compare fuel pc (mkCtx [] 0)
      = (tr_a ++ [1%Z], Completed (mkCtx [ItemBool false] 4))
    /\ Forall (fun i => (0 <= i < 1)%Z) tr_a.
Proof.
  intros sr pc.
  assert (Hsize : (PCode_size pc <= INT32_MAX)%Z) by (vm_compute; discriminate).
  assert (Ha : evaluates sample_isTrue sample_compare pc 0 1 [] (ItemBool false)).
  { exists [0%Z].
    apply (exec_one sample_isTrue sample_compare pc (mkCtx [] 0)
             (StepValue (ItemBool false)) (mkCtx [ItemBool false] 1));
      reflexivity. }
  destruct (ExprAnd_short_circuit sample_isTrue sample_compare sr
              (ExprValue sr (ItemBool false)) (ExprValue sr (ItemInt 1))
              [] [] (ItemBool false) Hsize Ha) as (_ & _ & Hfalse & _).
  destruct (Hfalse eq_refl) as (_ & fuel & tr_a & Hrun & Hall).
  exists fuel, tr_a. split; [exact Hrun|exact Hall].
Defined.

Lemma ExprIIF_branches_witness :
  let sr := mkSourceRef 1 1 in
  let pc := precompile (TernaryExpression TIIF sr (ExprValue sr (ItemBool false))
                          (ExprValue sr (ItemInt 1)) (ExprValue sr (ItemInt 2))) [] in
  exists fuel tr_a tr_c,
    PCode_apply_ sample_isTrue sample_compare fuel pc (mkCtx [] 0)
      = (tr_a ++ 1%Z :: tr_c, Completed (mkCtx [ItemInt 2] 5))
    /\ Forall (fun i => (0 <= i < 1)%Z) tr_a
    /\ Forall (fun i => (4 <= i < 5)%Z) tr_c.
Proof.
  intros sr pc.
  assert (Hsize : (PCode_size pc <= INT32_MAX)%Z) by (vm_compute; discriminate).
  assert (Ha : evaluates sample_isTrue sample_compare pc 0 1 [] (ItemBool false)).
  { exists [0%Z].
    apply (exec_one sample_isTrue sample_compare pc (mkCtx [] 0)
             (StepValue (ItemBool false)) (mkCtx [ItemBool false] 1));
      reflexivity. }
  assert (Hc : evaluates sample_isTrue sample_compare pc 4 5 [] (ItemInt 2)).
  { exists [4%Z].
    apply (exec_one sample_isTrue sample_compare pc (mkCtx [] 4)
             (StepValue (ItemInt 2)) (mkCtx [ItemInt 2] 5));
      reflexivity. }
  destruct (ExprIIF_branches sample_isTrue sample_compare sr
              (ExprValue sr (ItemBool false)) (ExprValue sr (ItemInt 1))
              (ExprValue sr (ItemInt 2))
              [] [] (ItemBool false) Hsize Ha) as (_ & _ & _ & Hfalse & _).
  destruct (Hfalse eq_refl (ItemInt 2) Hc) as (_ & fuel & tr_a & tr_c & Hrun & Ha' & Hc').
  exists fuel, tr_a, tr_c. split; [exact Hrun|]. split; [exact Ha'|exact Hc'].
Defined.

(** ** Runs of small sequences *)

(** [(false and 1) or 2]: the step of [1], at sequence id 2, and the step
    of the [and] node, at 3, are skipped; one boolean is left. *)
Example run_and_or_short_circuit :
  let sr := mkSourceRef 1 1 in
  let e := BinaryExpression BOr sr
             (BinaryExpression BAnd sr (ExprValue sr (ItemBool false))
                (ExprValue sr (ItemInt 1)))
             (ExprValue sr (ItemInt 2)) in
  precompile e []
    = [StepValue (ItemBool false); StepAndGate 4; StepValue (ItemInt 1);
       StepBinary BAnd; StepOrGate 7; StepValue (ItemInt 2); StepBinary BOr]
  /\ PCode_apply_ sample_isTrue sample_compare 8 (precompile e []) (mkCtx [] 0)
     = ([0; 1; 4; 5; 6]%Z, Completed (mkCtx [ItemBool true] 7)).
Proof. split; reflexivity. Qed.

(** [(true and 0) ? 1 : 2]: the condition is false, the step of [1] and
    the gate after it are skipped. *)
Example run_conditional :
  let sr := mkSourceRef 1 1 in
  let e := TernaryExpression TIIF sr
             (BinaryExpression BAnd sr (ExprValue sr (ItemBool true))
                (ExprValue sr (ItemInt 0)))
             (ExprValue sr (ItemInt 1)) (ExprValue sr (ItemInt 2)) in
  PCode_apply_ sample_isTrue sample_compare 8 (precompile e []) (mkCtx [] 0)
    = ([0; 1; 2; 3; 4; 7]%Z, Completed (mkCtx [ItemInt 2] 8)).
Proof. reflexivity. Qed.

(** A step that throws interrupts the run: [++nil]. *)
Example run_invalid_operand :
  let sr := mkSourceRef 1 1 in
  let e := UnaryExpression UPreInc sr (ExprValue sr ItemNil) in
  PCode_apply_ sample_isTrue sample_compare 3 (precompile e []) (mkCtx [] 0)
    = ([0; 1]%Z, Interrupted (Thrown (invalid_operand 487 "preinc"))).
Proof. reflexivity. Qed.

(** * Further properties *)

(** ** Precompiled sequences *)

Lemma shift_step_shift a b ps : shift_step a (shift_step b ps) = shift_step (b + a) ps.
Proof. destruct ps; cbn; try reflexivity; f_equal; lia. Qed.

Lemma shift_step_0 ps : shift_step 0 ps = ps.
Proof. destruct ps; cbn; try reflexivity; f_equal; lia. Qed.

(** The steps of a node at base [base + k] are those at [base] with the
    sequence ids moved by [k]. *)
Lemma code_shift e : forall base k,
  code e (base + k) = map (shift_step (Z.of_nat k)) (code e base).
Proof.
  induction e as [sr v|u sr a IHa|u sr a IHa b IHb|u sr a IHa b IHb c IHc];
    intros base k.
  - reflexivity.
  - destruct u; cbn [code]; rewrite map_app, IHa; reflexivity.
  - destruct u; cbn [code]; rewrite ?map_app; cbn [map shift_step];
      rewrite ?map_app; cbn [map shift_step];
      rewrite <- ?IHa;
      try (replace (base + k + code_size a + 1)%nat with (base + code_size a + 1 + k)%nat by lia);
      try (replace (base + k + code_size a)%nat with (base + code_size a + k)%nat by lia);
      try (replace (base + k + code_size b)%nat with (base + code_size b + k)%nat by lia);
      rewrite <- ?IHb, <- ?IHa; repeat (f_equal; try lia).
  - destruct u; cbn [code]; rewrite ?map_app; cbn [map shift_step];
      rewrite ?map_app; cbn [map shift_step]; rewrite ?map_app; cbn [map shift_step].
    replace (base + k + code_size a + 1)%nat with (base + code_size a + 1 + k)%nat by lia.
    replace (base + k + code_size a + 1 + code_size b + 1)%nat
      with (base + code_size a + 1 + code_size b + 1 + k)%nat by lia.
    rewrite <- IHa, <- IHb, <- IHc. repeat (f_equal; try lia).
Qed.

(** X7: what [precompile] appends does not depend on the steps
    already in the [PCode] but for their number: appended to [q] rather
    than to [p], the same steps come out with every recorded sequence id
    moved by the difference of the two sizes. *)
Theorem precompile_relocates (e : Expression) (p q : PCode) :
  drop (length q) (precompile e q)
    = map (shift_step (PCode_size q - PCode_size p)) (drop (length p) (precompile e p)).
Proof.
  rewrite !precompile_code, !drop_app_length.
  pose proof (code_shift e 0 (length q)) as Hq.
  pose proof (code_shift e 0 (length p)) as Hp.
  cbn [Nat.add] in Hq, Hp. rewrite Hq, Hp, map_map.
  apply map_ext. intros ps.
  rewrite shift_step_shift. f_equal. unfold PCode_size. lia.
Qed.

(** X6: every sequence id recorded in a step [precompile] appends (the
    gates of [and] and [or], the ternary conditional and its gate) points
    after that step and not beyond the end of the sequence; and
    [precompile] never shortens the [PCode]. *)
Theorem precompile_jumps_forward (e : Expression) (pcode : PCode) :
  PCode_size (precompile e pcode)
    = (PCode_size pcode + Z.of_nat (length (appended e pcode)))%Z
  /\ (forall (i : nat) ps t,
        appended e pcode !! i = Some ps -> jump_target ps = Some t ->
        (PCode_size pcode + Z.of_nat i < t <= PCode_size (precompile e pcode))%Z).
Proof.
  unfold PCode_size. rewrite appended_code, length_precompile, length_code. split; [lia|].
  intros i ps t Hl Ht.
  pose proof (code_targets _ _ _ _ _ Hl Ht) as H. lia.
Qed.

Section RunFacts.

Variable isTrue : Item -> bool.
Variable Item_compare : Item -> Item -> Z.

Local Abbreviation apply := (apply_ isTrue Item_compare).
Local Abbreviation run := (PCode_apply_ isTrue Item_compare).
Local Abbreviation exec := (exec isTrue Item_compare).
Local Abbreviation evaluates := (evaluates isTrue Item_compare).

Lemma run_fuel_enough pcode lo :
  (0 <= lo)%Z -> forward_from pcode lo ->
  forall fuel ctx,
    (lo <= m_seqId ctx)%Z ->
    (Z.max 0 (PCode_size pcode - m_seqId ctx) < Z.of_nat fuel)%Z ->
    snd (run fuel pcode ctx) <> OutOfFuel.
Proof.
  intros Hlo Hfw. induction fuel as [|fuel IH]; intros ctx Hge Hfuel.
  - exfalso. lia.
  - cbn [PCode_apply_].
    destruct (m_seqId ctx <? PCode_size pcode)%Z eqn:Hlt; [|cbn; discriminate].
    apply Z.ltb_lt in Hlt.
    destruct (fetch pcode ctx) as [ps|] eqn:Hf; [|cbn; discriminate].
    destruct (apply ps (advance ctx)) as [ctx'| | | |] eqn:Ha; try (cbn; discriminate).
    destruct (fetch_Some _ _ _ Hf) as [_ Hl].
    assert (Hnext : (m_seqId ctx < m_seqId ctx')%Z).
    { destruct (apply_seqId _ _ _ _ _ Ha) as [-> | (t & Ht & ->)]; [cbn; lia|].
      assert (Hi : (lo <= Z.of_nat (Z.to_nat (m_seqId ctx)))%Z) by lia.
      pose proof (Hfw _ _ _ Hi Hl Ht) as Hb.
      rewrite int32_wrap_id; lia. }
    specialize (IH ctx'). destruct (run fuel pcode ctx') as [tr r]. cbn in *.
    apply IH; lia.
Qed.

(** X8: a run of a precompiled expression never exhausts a
    fuel of one more than the number of its steps: started anywhere at or
    after the first appended step, it completes or is interrupted by a
    step (a throw, a handler call). *)
Theorem precompile_run_terminates (e : Expression) (pcode : PCode) (ctx : VMContext) :
  let pc := precompile e pcode in
  (PCode_size pc <= INT32_MAX)%Z ->
  (PCode_size pcode <= m_seqId ctx)%Z ->
  snd (run (S (code_size e)) pc ctx) <> OutOfFuel.
Proof.
  intros pc Hsize Hctx.
  apply (run_fuel_enough pc (PCode_size pcode)).
  - unfold PCode_size. lia.
  - apply precompile_forward. exact Hsize.
  - exact Hctx.
  - unfold pc, PCode_size in *. rewrite precompile_code, length_app, length_code. lia.
Qed.

(** X1: short circuit of [a or b], the mirror image of [and].  With
    the steps of [a] evaluating to [va]: if [va] is true the gate turns it
    into the boolean true and the run completes without any step of [b];
    if it is false the gate pops it, the steps of [b] run and the step of
    the node leaves the truth value of what [b] evaluated to. *)
Theorem ExprOr_short_circuit (sr : SourceRef) (a b : Expression)
    (pcode : PCode) (st : list Item) (va : Item) :
  let pc := precompile (BinaryExpression BOr sr a b) pcode in
  let lo := PCode_size pcode in
  let gate := (lo + Z.of_nat (code_size a))%Z in
  let own := (gate + 1 + Z.of_nat (code_size b))%Z in
  (PCode_size pc <= INT32_MAX)%Z ->
  evaluates pc lo gate st va ->
  PCode_size pc = (own + 1)%Z
  /\ (isTrue va = true ->
      exists fuel tr_a,
        run fuel pc (mkCtx st lo)
          = (tr_a ++ [gate],
             Completed (mkCtx (ItemBool true :: st) (PCode_size pc)))
        /\ Forall (fun i => (lo <= i < gate)%Z) tr_a)
  /\ (isTrue va = false ->
      forall vb, evaluates pc (gate + 1) own st vb ->
      exists fuel tr_a tr_b,
        run fuel pc (mkCtx st lo)
          = (tr_a ++ gate :: tr_b ++ [own],
             Completed (mkCtx (ItemBool (isTrue vb) :: st) (PCode_size pc)))
        /\ Forall (fun i => (lo <= i < gate)%Z) tr_a
        /\ Forall (fun i => (gate + 1 <= i < own)%Z) tr_b).
Proof.
  intros pc lo gate own Hsize [tr_a Ha].
  assert (Hpc : pc = pcode ++ code (BinaryExpression BOr sr a b) (length pcode) ++ []).
  { unfold pc. rewrite app_nil_r. apply precompile_code. }
  assert (Hend : PCode_size pc = (own + 1)%Z).
  { unfold PCode_size. rewrite Hpc, app_nil_r, length_app, length_code.
    unfold own, gate, lo, PCode_size. cbn [code_size]. lia. }
  assert (Hfw : forward_from pc lo) by (apply precompile_forward; exact Hsize).
  assert (Hmax : (own + 1 <= INT32_MAX)%Z) by (rewrite <- Hend; exact Hsize).
  destruct (exec_forward isTrue Item_compare _ _ _ _ _ Hfw Ha) as [_ Htr_a];
    [cbn; lia|]. cbn in Htr_a.
  destruct (ExprOr_exec isTrue Item_compare sr a b pcode [] pc st va tr_a Hpc Hmax Ha)
    as (Htrue & Hfalse).
  rewrite Hend. split; [reflexivity|]. split.
  - intros Hva.
    exists (length (tr_a ++ [gate]) + 1)%nat, tr_a. split; [|exact Htr_a].
    apply exec_completed; [exact (Htrue Hva)|]. cbn [m_seqId]. lia.
  - intros Hva vb [tr_b Hb].
    destruct (exec_forward isTrue Item_compare _ _ _ _ _ Hfw Hb) as [_ Htr_b];
      [cbn; unfold gate; lia|]. cbn in Htr_b.
    exists (length (tr_a ++ gate :: tr_b ++ [own]) + 1)%nat, tr_a, tr_b.
    split; [|split; assumption].
    apply exec_completed; [exact (Hfalse Hva vb tr_b Hb)|]. cbn [m_seqId]. lia.
Qed.

End RunFacts.

Lemma precompile_run_terminates_witness :
  let sr := mkSourceRef 1 1 in
  let e := BinaryExpression BOr sr (ExprValue sr (ItemBool true)) (ExprValue sr ItemNil) in
  snd (PCode_apply_ sample_isTrue sample_compare 5 (precompile e []) (mkCtx [] 0))
    <> OutOfFuel.
Proof.
  intros sr e.
  apply (precompile_run_terminates sample_isTrue sample_compare e [] (mkCtx [] 0)).
  - vm_compute. discriminate.
  - vm_compute. discriminate.
Defined.

Lemma ExprOr_short_circuit_witness :
  let sr := mkSourceRef 1 1 in
  let pc := precompile (BinaryExpression BOr sr (ExprValue sr (ItemBool true))
                          (ExprValue sr (ItemInt 1))) [] in
  exists fuel tr_a,
    PCode_apply_ sample_isTrue sample_compare fuel pc (mkCtx [] 0)
      = (tr_a ++ [1%Z], Completed (mkCtx [ItemBool true] 4))
    /\ Forall (fun i => (0 <= i < 1)%Z) tr_a.
Proof.
  intros sr pc.
  assert (Hsize : (PCode_size pc <= INT32_MAX)%Z) by (vm_compute; discriminate).
  assert (Ha : evaluates sample_isTrue sample_compare pc 0 1 [] (ItemBool true)).
  { exists [0%Z].
    apply (exec_one sample_isTrue sample_compare pc (mkCtx [] 0)
             (StepValue (ItemBool true)) (mkCtx [ItemBool true] 1));
      reflexivity. }
  destruct (ExprOr_short_circuit sample_isTrue sample_compare sr
              (ExprValue sr (ItemBool true)) (ExprValue sr (ItemInt 1))
              [] [] (ItemBool true) Hsize Ha) as (_ & Htrue & _).
  destruct (Htrue eq_refl) as (fuel & tr_a & Hrun & Hall).
  exists fuel, tr_a. split; [exact Hrun|exact Hall].
Defined.

(** ** Strict nodes and pure expressions *)

Section StrictFacts.

Variable isTrue : Item -> bool.
Variable Item_compare : Item -> Item -> Z.

Local Abbreviation apply := (apply_ isTrue Item_compare).
Local Abbreviation run := (PCode_apply_ isTrue Item_compare).
Local Abbreviation exec := (exec isTrue Item_compare).
Local Abbreviation evaluates := (evaluates isTrue Item_compare).

(** An execution that reaches the last step of the sequence, a step that
    assigns no sequence id: the run ends with that step. *)
Lemma run_last_step pcode c tr c' ps :
  exec pcode c tr c' -> fetch pcode c' = Some ps -> jump_target ps = None ->
  (m_seqId c' + 1 = PCode_size pcode)%Z ->
  run (length tr + 2) pcode c
    = (tr ++ [m_seqId c'], after_step (apply ps (advance c'))).
Proof.
  intros He Hf Hj Hlast. rewrite (exec_run isTrue Item_compare _ _ _ _ He).
  cbn [PCode_apply_]. rewrite Hf.
  destruct (m_seqId c' <? PCode_size pcode)%Z eqn:Hlt; [|apply Z.ltb_ge in Hlt; lia].
  destruct (apply ps (advance c')) as [c''| | | |] eqn:Ha; try reflexivity.
  destruct (apply_seqId isTrue Item_compare _ _ _ Ha) as [Hs|(t & Ht & _)];
    [|congruence].
  cbn in Hs.
  destruct (m_seqId c'' <? PCode_size pcode)%Z eqn:Hlt'; [apply Z.ltb_lt in Hlt'; lia|].
  reflexivity.
Qed.

(** X4: the run of [not a], [-a], [++a] and [--a].  Once the steps
    of [a] have evaluated to [va], the step of the node is applied to the
    stack with [va] on top and ends the run: completed with what the step
    left, or interrupted by its error or its handler call.  Every step
    executed before it is a step of [a]. *)
Theorem unary_run (k : UnaryKind) (sr : SourceRef) (a : Expression)
    (pcode : PCode) (st : list Item) (va : Item) :
  let pc := precompile (UnaryExpression k sr a) pcode in
  let lo := PCode_size pcode in
  let own := (lo + Z.of_nat (code_size a))%Z in
  k = UNot \/ k = UNeg \/ k = UPreInc \/ k = UPreDec ->
  (PCode_size pc <= INT32_MAX)%Z ->
  evaluates pc lo own st va ->
  exists fuel tr_a,
    run fuel pc (mkCtx st lo)
      = (tr_a ++ [own], after_step (apply (StepUnary k) (mkCtx (va :: st) (own + 1))))
    /\ Forall (fun i => (lo <= i < own)%Z) tr_a.
Proof.
  intros pc lo own Hk Hsize [tr_a Ha].
  assert (Hpc : pc = pcode ++ code a (length pcode) ++ [StepUnary k]).
  { unfold pc. rewrite precompile_code.
    destruct Hk as [->|[->|[->| ->]]]; reflexivity. }
  assert (Hlen : PCode_size pc = (own + 1)%Z).
  { unfold PCode_size. rewrite Hpc, !length_app, length_code. cbn [length].
    unfold own, lo, PCode_size. lia. }
  assert (Hfw : forward_from pc lo) by (apply precompile_forward; exact Hsize).
  destruct (exec_forward isTrue Item_compare _ _ _ _ _ Hfw Ha) as [_ Htr_a];
    [cbn; lia|]. cbn in Htr_a.
  exists (length tr_a + 2)%nat, tr_a. split; [|exact Htr_a].
  apply (run_last_step pc (mkCtx st lo) tr_a (mkCtx (va :: st) own) (StepUnary k) Ha).
  - replace own with (Z.of_nat (length pcode + code_size a))
      by (unfold own, lo, PCode_size; lia).
    apply fetch_at. rewrite Hpc. apply lookup_first_mark.
    rewrite length_code. reflexivity.
  - reflexivity.
  - cbn [m_seqId]. lia.
Qed.

(** X5: the run of [a === b] and of the six comparisons.  The
    steps of [a] run first and leave [va]; the steps of [b] run above it
    and leave [vb]; the step of the node is then applied with [va] as its
    first operand and [vb], on top, as its second, and ends the run. *)
Theorem binary_run (k : BinaryKind) (sr : SourceRef) (a b : Expression)
    (pcode : PCode) (st : list Item) (va vb : Item) :
  let pc := precompile (BinaryExpression k sr a b) pcode in
  let lo := PCode_size pcode in
  let mid := (lo + Z.of_nat (code_size a))%Z in
  let own := (mid + Z.of_nat (code_size b))%Z in
  k = BEEQ \/ (exists c, k = BCompare c) ->
  (PCode_size pc <= INT32_MAX)%Z ->
  evaluates pc lo mid st va ->
  evaluates pc mid own (va :: st) vb ->
  exists fuel tr_a tr_b,
    run fuel pc (mkCtx st lo)
      = (tr_a ++ tr_b ++ [own],
         after_step (apply (StepBinary k) (mkCtx (vb :: va :: st) (own + 1))))
    /\ Forall (fun i => (lo <= i < mid)%Z) tr_a
    /\ Forall (fun i => (mid <= i < own)%Z) tr_b.
Proof.
  intros pc lo mid own Hk Hsize [tr_a Ha] [tr_b Hb].
  assert (Hpc : pc = pcode ++ code a (length pcode)
                       ++ code b (length pcode + code_size a) ++ [StepBinary k]).
  { unfold pc. rewrite precompile_code.
    destruct Hk as [->|[c ->]]; reflexivity. }
  assert (Hlen : PCode_size pc = (own + 1)%Z).
  { unfold PCode_size. rewrite Hpc, !length_app, !length_code. cbn [length].
    unfold own, mid, lo, PCode_size. lia. }
  assert (Hfw : forward_from pc lo) by (apply precompile_forward; exact Hsize).
  destruct (exec_forward isTrue Item_compare _ _ _ _ _ Hfw Ha) as [_ Htr_a];
    [cbn; lia|]. cbn in Htr_a.
  destruct (exec_forward isTrue Item_compare _ _ _ _ _ Hfw Hb) as [_ Htr_b];
    [cbn; unfold mid; lia|]. cbn in Htr_b.
  exists (length (tr_a ++ tr_b) + 2)%nat, tr_a, tr_b. split; [|split; assumption].
  rewrite app_assoc.
  apply (run_last_step pc (mkCtx st lo) (tr_a ++ tr_b) (mkCtx (vb :: va :: st) own)
           (StepBinary k)).
  - eapply exec_trans; [exact Ha|exact Hb].
  - replace own with (Z.of_nat (length pcode + code_size a + code_size b))
      by (unfold own, mid, lo, PCode_size; lia).
    apply fetch_at. rewrite Hpc, app_assoc. 
    replace (length pcode + code_size a + code_size b)%nat
      with (length (pcode ++ code a (length pcode))
            + length (code b (length pcode + code_size a)))%nat
      by (rewrite length_app, !length_code; reflexivity).
    apply lookup_first_mark. reflexivity.
  - destruct Hk as [->|[c ->]]; reflexivity.
  - cbn [m_seqId]. lia.
Qed.

(** X3: an expression made of values, [not], [and], [or], [===] and
    [?:] always evaluates: appended to any sequence and started on any
    data stack, the run of its steps completes, with no error and no
    handler call, at the end of the sequence, leaving the stack with
    exactly one item more. *)
Theorem pure_run_completes (e : Expression) (pcode : PCode) (st : list Item) :
  pure e = true ->
  (PCode_size (precompile e pcode) <= INT32_MAX)%Z ->
  exists v fuel tr,
    run fuel (precompile e pcode) (mkCtx st (PCode_size pcode))
      = (tr, Completed (mkCtx (v :: st) (PCode_size (precompile e pcode))))
    /\ Forall (fun i => (PCode_size pcode <= i < PCode_size (precompile e pcode))%Z) tr.
Proof.
  intros Hp Hsize.
  assert (Hlen : PCode_size (precompile e pcode) = Z.of_nat (length pcode + code_size e)).
  { unfold PCode_size. rewrite precompile_code, length_app, length_code. reflexivity. }
  destruct (pure_evaluates isTrue Item_compare e Hp pcode [] (precompile e pcode) st)
    as (v & tr & He).
  - rewrite app_nil_r. apply precompile_code.
  - rewrite <- Hlen. exact Hsize.
  - assert (Hfw : forward_from (precompile e pcode) (PCode_size pcode))
      by (apply precompile_forward; exact Hsize).
    destruct (exec_forward isTrue Item_compare _ _ _ _ _ Hfw He) as [_ Htr];
      [cbn; unfold PCode_size; lia|]. cbn in Htr.
    exists v, (length tr + 1)%nat, tr. rewrite Hlen. split.
    + apply exec_completed; [exact He|]. cbn [m_seqId]. rewrite <- Hlen. lia.
    + unfold PCode_size. exact Htr.
Qed.

End StrictFacts.

Lemma unary_run_witness :
  let sr := mkSourceRef 1 1 in
  let pc := precompile (UnaryExpression UNeg sr (ExprValue sr ItemNil)) [] in
  exists fuel tr_a,
    PCode_apply_ sample_isTrue sample_compare fuel pc (mkCtx [] 0)
      = (tr_a ++ [1%Z], Interrupted (Thrown (invalid_operand 439 "neg"))).
Proof.
  intros sr pc.
  destruct (unary_run sample_isTrue sample_compare UNeg sr (ExprValue sr ItemNil)
              [] [] ItemNil) as (fuel & tr_a & Hrun & _).
  - right. left. reflexivity.
  - vm_compute. discriminate.
  - exists [0%Z].
    apply (exec_one sample_isTrue sample_compare pc (mkCtx [] 0)
             (StepValue ItemNil) (mkCtx [ItemNil] 1)); reflexivity.
  - exists fuel, tr_a. exact Hrun.
Defined.

Lemma binary_run_witness :
  let sr := mkSourceRef 1 1 in
  let pc := precompile (BinaryExpression (BCompare t_lt) sr (ExprValue sr (ItemInt 1))
                          (ExprValue sr (ItemInt 2))) [] in
  exists fuel tr_a tr_b,
    PCode_apply_ sample_isTrue sample_compare fuel pc (mkCtx [] 0)
      = (tr_a ++ tr_b ++ [2%Z], Completed (mkCtx [ItemBool true] 3)).
Proof.
  intros sr pc.
  destruct (binary_run sample_isTrue sample_compare (BCompare t_lt) sr
              (ExprValue sr (ItemInt 1)) (ExprValue sr (ItemInt 2))
              [] [] (ItemInt 1) (ItemInt 2)) as (fuel & tr_a & tr_b & Hrun & _).
  - right. exists t_lt. reflexivity.
  - vm_compute. discriminate.
  - exists [0%Z].
    apply (exec_one sample_isTrue sample_compare pc (mkCtx [] 0)
             (StepValue (ItemInt 1)) (mkCtx [ItemInt 1] 1)); reflexivity.
  - exists [1%Z].
    apply (exec_one sample_isTrue sample_compare pc (mkCtx [ItemInt 1] 1)
             (StepValue (ItemInt 2)) (mkCtx [ItemInt 2; ItemInt 1] 2)); reflexivity.
  - exists fuel, tr_a, tr_b. exact Hrun.
Defined.

Lemma pure_run_completes_witness :
  let sr := mkSourceRef 1 1 in
  let e := BinaryExpression BEEQ sr (ExprValue sr (ItemInt 1))
             (UnaryExpression UNot sr (ExprValue sr ItemNil)) in
  exists v fuel tr,
    PCode_apply_ sample_isTrue sample_compare fuel (precompile e []) (mkCtx [] 0)
      = (tr, Completed (mkCtx [v] 4)).
Proof.
  intros sr e.
  destruct (pure_run_completes sample_isTrue sample_compare e [] [])
    as (v & fuel & tr & Hrun & _).
  - reflexivity.
  - vm_compute. discriminate.
  - exists v, fuel, tr. exact Hrun.
Defined.

Lemma and_or_short_circuit_witness :
  let sr := mkSourceRef 1 1 in
  let e := BinaryExpression BOr sr
             (BinaryExpression BAnd sr (ExprValue sr (ItemBool false))
                (ExprValue sr (ItemInt 1)))
             (ExprValue sr (ItemInt 2)) in
  exists fuel tr_a tr_c,
    PCode_apply_ sample_isTrue sample_compare fuel (precompile e []) (mkCtx [] 0)
      = (tr_a ++ 1%Z :: 4%Z :: tr_c ++ [6%Z], Completed (mkCtx [ItemBool true] 7)).
Proof.
  intros sr e.
  destruct (and_or_short_circuit sample_isTrue sample_compare sr sr
              (ExprValue sr (ItemBool false)) (ExprValue sr (ItemInt 1))
              (ExprValue sr (ItemInt 2)) [] [] (ItemBool false) (ItemInt 2))
    as (fuel & tr_a & tr_c & Hrun & _).
  - reflexivity.
  - vm_compute. discriminate.
  - exists [0%Z].
    apply (exec_one sample_isTrue sample_compare (precompile e []) (mkCtx [] 0)
             (StepValue (ItemBool false)) (mkCtx [ItemBool false] 1)); reflexivity.
  - reflexivity.
  - exists [5%Z].
    apply (exec_one sample_isTrue sample_compare (precompile e []) (mkCtx [] 5)
             (StepValue (ItemInt 2)) (mkCtx [ItemInt 2] 6)); reflexivity.
  - exists fuel, tr_a, tr_c. exact Hrun.
Defined.

(** ** Arithmetic steps *)

Lemma SFopp_involutive (n : numeric) : SFopp (SFopp n) = n.
Proof. destruct n; cbn; rewrite ?negb_involutive; reflexivity. Qed.

Lemma int64_wrap_neg_neg (i : Z) : in_int64 i -> int64_wrap (- int64_wrap (- i)) = i.
Proof.
  intros Hi. destruct (Z.eq_dec i INT64_MIN) as [->|Hne]; [reflexivity|].
  unfold in_int64, INT64_MIN, INT64_MAX in *.
  rewrite (int64_wrap_id (- i)) by (unfold in_int64, INT64_MIN, INT64_MAX; lia).
  rewrite Z.opp_involutive. apply int64_wrap_id. exact Hi.
Qed.

Lemma int64_wrap_succ_pred (i : Z) :
  in_int64 i -> int64_wrap (int64_wrap (i + 1) - 1) = i.
Proof.
  intros Hi. destruct (Z.eq_dec i INT64_MAX) as [->|Hne]; [reflexivity|].
  unfold in_int64, INT64_MIN, INT64_MAX in *.
  rewrite (int64_wrap_id (i + 1)) by (unfold in_int64, INT64_MIN, INT64_MAX; lia).
  replace (i + 1 - 1)%Z with i by lia. apply int64_wrap_id. exact Hi.
Qed.

Lemma int64_wrap_pred_succ (i : Z) :
  in_int64 i -> int64_wrap (int64_wrap (i - 1) + 1) = i.
Proof.
  intros Hi. destruct (Z.eq_dec i INT64_MIN) as [->|Hne]; [reflexivity|].
  unfold in_int64, INT64_MIN, INT64_MAX in *.
  rewrite (int64_wrap_id (i - 1)) by (unfold in_int64, INT64_MIN, INT64_MAX; lia).
  replace (i - 1 + 1)%Z with i by lia. apply int64_wrap_id. exact Hi.
Qed.

(** X10: negating twice gives the operand back: whenever
    [ExprNeg::apply_] returns normally on a context whose top item is an
    [int64] or a numeric, applying it again restores that context, the
    smallest integer (which negation maps to itself) and the zeros,
    infinities and NaN included. *)
Theorem ExprNeg_apply_twice (it : Item) (rest : list Item) (seq : Z) (ctx1 : VMContext) :
  (forall i, it = ItemInt i -> in_int64 i) ->
  ExprNeg_apply_ (mkCtx (it :: rest) seq) = Normal ctx1 ->
  ExprNeg_apply_ ctx1 = Normal (mkCtx (it :: rest) seq).
Proof.
  intros Hwf H. destruct it; cbn in H; try discriminate; injection H as <-; cbn.
  - unfold with_top, setInteger. cbn. rewrite int64_wrap_neg_neg by (apply Hwf; reflexivity).
    reflexivity.
  - unfold with_top, setNumeric. cbn. rewrite SFopp_involutive. reflexivity.
Qed.

Lemma ExprNeg_apply_twice_witness :
  ExprNeg_apply_ (mkCtx [ItemInt (-5)] 3) = Normal (mkCtx [ItemInt 5] 3).
Proof.
  apply (ExprNeg_apply_twice (ItemInt 5) [] 3 (mkCtx [ItemInt (-5)] 3)).
  - intros i [= <-]. unfold in_int64, INT64_MIN, INT64_MAX. lia.
  - reflexivity.
Defined.

(** X11: on an integer, pre-decrement undoes pre-increment and
    pre-increment undoes pre-decrement, for every [int64]: at the two
    bounds the first step wraps around and the second wraps back. *)
Theorem ExprPreInc_PreDec_inverse (i : Z) (rest : list Item) (seq : Z) :
  in_int64 i ->
  let ctx := mkCtx (ItemInt i :: rest) seq in
  (exists ctx1, ExprPreInc_apply_ ctx = Normal ctx1 /\ ExprPreDec_apply_ ctx1 = Normal ctx)
  /\ (exists ctx1, ExprPreDec_apply_ ctx = Normal ctx1 /\ ExprPreInc_apply_ ctx1 = Normal ctx).
Proof.
  intros Hi ctx. split; eexists; (split; [reflexivity|]); cbn;
    unfold with_top, setInteger; cbn.
  - rewrite int64_wrap_succ_pred by exact Hi. reflexivity.
  - rewrite int64_wrap_pred_succ by exact Hi. reflexivity.
Qed.

Lemma ExprPreInc_PreDec_inverse_witness :
  exists ctx1,
    ExprPreInc_apply_ (mkCtx [ItemInt INT64_MAX] 0) = Normal ctx1
    /\ ExprPreDec_apply_ ctx1 = Normal (mkCtx [ItemInt INT64_MAX] 0).
Proof.
  refine (proj1 (ExprPreInc_PreDec_inverse INT64_MAX [] 0 _)).
  unfold in_int64, INT64_MIN, INT64_MAX. lia.
Defined.

(** X12: the step of a postfix increment or decrement returns at
    once and leaves the context as it is; the gate pushed after it then
    returns normally exactly when the prefix step does, with the same
    context: the item left is the incremented (decremented) one, not the
    value the operand had before.  Gate and prefix step differ only in the
    handler they call on an instance and in the text of the error. *)
Theorem ExprPostInc_PostDec_as_prefix (ctx ctx' : VMContext) :
  ExprPostInc_apply_ ctx = Normal ctx
  /\ ExprPostDec_apply_ ctx = Normal ctx
  /\ (ExprPostInc_Gate_apply_ ctx = Normal ctx' <-> ExprPreInc_apply_ ctx = Normal ctx')
  /\ (ExprPostDec_Gate_apply_ ctx = Normal ctx' <-> ExprPreDec_apply_ ctx = Normal ctx')
  /\ (forall e, ExprPostInc_Gate_apply_ ctx = Thrown e ->
        e = invalid_operand 567 "postinc"
        /\ ExprPreInc_apply_ ctx = Thrown (invalid_operand 487 "preinc"))
  /\ (forall e, ExprPostDec_Gate_apply_ ctx = Thrown e ->
        e = invalid_operand 690 "postdec"
        /\ ExprPreDec_apply_ ctx = Thrown (invalid_operand 610 "predec")).
Proof.
  split; [reflexivity|]. split; [reflexivity|].
  unfold ExprPostInc_Gate_apply_, ExprPreInc_apply_, ExprPostDec_Gate_apply_,
    ExprPreDec_apply_.
  destruct (dataStack ctx) as [|[] rest];
    repeat split; intros; try discriminate; try assumption; try congruence.
Qed.

(** ** Comparisons *)

Section CompareFacts.

Variable Item_compare : Item -> Item -> Z.

(** X13: [generic_apply_] never throws.  On two operands it either
    pops one item and leaves a boolean in place of the first operand, or,
    exactly when the first operand is an instance and the second is not a
    framing item, hands the first operand to [op_compare] of its class
    with the data stack untouched.  On two integers the boolean is the one
    constant folding ([generic_simplify]) computes. *)
Theorem generic_apply_outcome (cpr : comparer) (op1 op2 : Item) (rest : list Item)
    (seq : Z) :
  let ctx := mkCtx (op2 :: op1 :: rest) seq in
  let instance := match op1 with ItemDeep _ _ | ItemUser _ _ => true | _ => false end in
  let framing := match op2 with ItemFraming => true | _ => false end in
  (instance && negb framing = false ->
     exists b, generic_apply_ Item_compare cpr ctx = Normal (mkCtx (ItemBool b :: rest) seq))
  /\ (instance && negb framing = true ->
     exists cls inst,
       (op1 = ItemDeep cls inst \/ op1 = ItemUser cls inst)
       /\ generic_apply_ Item_compare cpr ctx = HandlerCall op_compare cls inst ctx)
  /\ (forall i1 i2 type_code, op1 = ItemInt i1 -> op2 = ItemInt i2 ->
        generic_apply_ Item_compare cpr ctx
          = Normal (mkCtx (generic_simplify cpr type_code op1 op2 :: rest) seq)).
Proof.
  intros ctx instance framing. split; [|split].
  - intros H. destruct op1, op2; cbn in H; try discriminate; eexists; reflexivity.
  - intros H. destruct op1, op2; cbn in H; try discriminate;
      eexists _, _; (split; [|reflexivity]); auto.
  - intros i1 i2 tc -> ->. reflexivity.
Qed.

End CompareFacts.

Lemma SFeqb_sym (a b : spec_float) : SFeqb a b = SFeqb b a.
Proof.
  unfold SFeqb.
  assert (H : forall c : option comparison,
             match c with Some Eq => true | _ => false end
             = match option_map CompOpp c with Some Eq => true | _ => false end).
  { intros [[]|]; reflexivity. }
  rewrite H. f_equal.
  destruct a as [sa|sa| |sa ma ea], b as [sb|sb| |sb mb eb]; cbn;
    try destruct sa; try destruct sb; cbn; try reflexivity;
    change (PosDef.Pos.compare_cont Eq ma mb) with (ma ?= mb)%positive;
    change (PosDef.Pos.compare_cont Eq mb ma) with (mb ?= ma)%positive;
    rewrite (Z.compare_antisym eb ea), (Pos.compare_antisym mb ma);
    destruct (eb ?= ea)%Z, (mb ?= ma)%positive; reflexivity.
Qed.

Lemma SFeqb_refl (a : spec_float) :
  SFeqb a a = match a with S754_nan => false | _ => true end.
Proof.
  unfold SFeqb. destruct a as [s|s| |s m e]; cbn; try reflexivity; try (destruct s; reflexivity).
  destruct s; rewrite Z.compare_refl, Pos.compare_refl; reflexivity.
Qed.

(** X14: exact equality ([===]) is symmetric, and an item is exactly
    equal to itself unless it is a NaN numeric or has a type the [switch]
    leaves to its default (framing, function, method and base method
    items). *)
Theorem ExprEEQ_result_sym_refl (op1 op2 : Item) :
  ExprEEQ_result op1 op2 = ExprEEQ_result op2 op1
  /\ ExprEEQ_result op1 op1
     = match op1 with
       | ItemNum S754_nan => false
       | ItemFraming | ItemFunc _ | ItemMethod _ _ | ItemBaseMethod _ _ => false
       | _ => true
       end.
Proof.
  split.
  - destruct op1, op2; cbn; try reflexivity.
    + destruct b, b0; reflexivity.
    + apply Z.eqb_sym.
    + apply SFeqb_sym.
    + apply bool_decide_ext. split; congruence.
    + apply bool_decide_ext. split; congruence.
  - destruct op1; cbn; try reflexivity.
    + destruct b; reflexivity.
    + apply Z.eqb_refl.
    + apply SFeqb_refl.
    + apply bool_decide_eq_true. reflexivity.
    + apply bool_decide_eq_true. reflexivity.
Qed.

(** ** Constant folding *)

Section FoldFacts.

Variable isTrue : Item -> bool.
Variable Item_compare : Item -> Item -> Z.
Variable leaf_simplify : Item -> Item -> bool * Item.
Variable blank : Item.
Variable type_code : ItemType -> Z.

Local Abbreviation apply := (apply_ isTrue Item_compare).
Local Abbreviation exec := (exec isTrue Item_compare).
Local Abbreviation run := (PCode_apply_ isTrue Item_compare).
Local Abbreviation folds :=
  (simplify isTrue Item_compare leaf_simplify blank type_code).

(** A leaf that folds folds to the item its step pushes. *)
Hypothesis leaf_folds :
  forall v value v', leaf_simplify v value = (true, v') -> v' = v.

Lemma exec_then_step (pc pre p rest : PCode) ps c tr st c' :
  pc = pre ++ p ++ ps :: rest ->
  exec pc c tr (mkCtx st (Z.of_nat (length pre + length p))) ->
  apply ps (mkCtx st (Z.of_nat (length pre + length p) + 1)) = Normal c' ->
  exec pc c (tr ++ [Z.of_nat (length pre + length p)]) c'.
Proof.
  intros Hpc He Ha. eapply exec_trans; [exact He|].
  apply (exec_one isTrue Item_compare pc
           (mkCtx st (Z.of_nat (length pre + length p))) ps c').
  - apply fetch_at. rewrite Hpc. apply lookup_first_mark. reflexivity.
  - exact Ha.
Qed.

Ltac fold_unary IHa Hf Hpc Hsa Hs k a value v1 pre rest pc st :=
  let tr_a := fresh "tr_a" in
  let Ha := fresh "Ha" in
  let H := fresh "H" in
  destruct (IHa Hf value v1 pre ([StepUnary k] ++ rest) pc st) as [tr_a Ha];
  [rewrite Hpc, <- app_assoc; reflexivity | lia | exact Hsa |];
  exists (tr_a ++ [Z.of_nat (length pre + code_size a)]);
  replace (Z.of_nat (length pre + (code_size a + 1)))
    with (Z.of_nat (length pre + code_size a) + 1)%Z by lia;
  pose proof (exec_then_step pc pre (code a (length pre)) rest (StepUnary k)
                (mkCtx st (Z.of_nat (length pre))) tr_a (v1 :: st)) as H;
  rewrite length_code in H;
  clear Hsa; destruct v1; try discriminate; injection Hs as <-;
  (apply H; [rewrite Hpc, <- app_assoc; reflexivity | exact Ha | reflexivity]).

Lemma simplify_exec e :
  foldable e = true ->
  forall value v (pre rest pc : PCode) st,
  pc = pre ++ code e (length pre) ++ rest ->
  (Z.of_nat (length pre + code_size e) <= INT32_MAX)%Z ->
  folds e value = Some (true, v) ->
  exists tr,
    exec pc (mkCtx st (Z.of_nat (length pre))) tr
      (mkCtx (v :: st) (Z.of_nat (length pre + code_size e))).
Proof.
  induction e as [sr v0|k sr a IHa|k sr a IHa b IHb|k sr a IHa b IHb c IHc];
    intros Hf value v pre rest pc st Hpc Hmax Hs.
  - (* value *)
    cbn in Hs. injection Hs as Hs. apply leaf_folds in Hs as ->.
    exists [Z.of_nat (length pre)]. cbn [code] in Hpc.
    apply (exec_one isTrue Item_compare pc (mkCtx st (Z.of_nat (length pre)))
             (StepValue v0)).
    + apply fetch_at. rewrite Hpc. apply list_lookup_middle. reflexivity.
    + cbn. unfold ExprValue_apply_, with_stack. cbn. do 2 f_equal.
      cbn [code_size]. lia.
  - (* unary *)
    destruct k; try discriminate; cbn [foldable] in Hf; cbn [simplify] in Hs;
      cbn [code code_size] in *.
    + (* not *)
      destruct (folds a value) as [[[] v1]|] eqn:Hsa; try discriminate.
      fold_unary IHa Hf Hpc Hsa Hs UNot a value v1 pre rest pc st.
    + (* neg *)
      destruct (folds a value) as [[[] v1]|] eqn:Hsa; try discriminate.
      fold_unary IHa Hf Hpc Hsa Hs UNeg a value v1 pre rest pc st.
    + (* pre-increment *)
      destruct (folds a value) as [[[] v1]|] eqn:Hsa; try discriminate.
      fold_unary IHa Hf Hpc Hsa Hs UPreInc a value v1 pre rest pc st.
    + (* post-increment *)
      destruct (folds a value) as [[[] v1]|] eqn:Hsa; try discriminate.
      destruct (IHa Hf value v1 pre ([StepUnary UPostInc; StepPostIncGate] ++ rest) pc st)
        as [tr_a Ha]; [rewrite Hpc, <- app_assoc; reflexivity | lia | exact Hsa |].
      exists ((tr_a ++ [Z.of_nat (length pre + code_size a)])
              ++ [Z.of_nat (length pre + code_size a) + 1]%Z).
      replace (Z.of_nat (length pre + (code_size a + 2)))
        with (Z.of_nat (length pre + code_size a) + 1 + 1)%Z by lia.
      pose proof (exec_then_step pc pre (code a (length pre)) (StepPostIncGate :: rest)
                    (StepUnary UPostInc)
                    (mkCtx st (Z.of_nat (length pre))) tr_a (v1 :: st)) as H1.
      pose proof (exec_then_step pc pre (code a (length pre) ++ [StepUnary UPostInc]) rest
                    StepPostIncGate
                    (mkCtx st (Z.of_nat (length pre)))
                    (tr_a ++ [Z.of_nat (length pre + code_size a)]) (v1 :: st)) as H2.
      rewrite length_app, length_code in H2. rewrite length_code in H1. cbn [length] in H2.
      replace (Z.of_nat (length pre + (code_size a + 1)))
        with (Z.of_nat (length pre + code_size a) + 1)%Z in H2 by lia.
      destruct v1; try discriminate; injection Hs as <-;
        (apply H2;
         [rewrite Hpc, <- !app_assoc; reflexivity
         |apply H1; [rewrite Hpc, <- !app_assoc; reflexivity|exact Ha|reflexivity]
         |reflexivity]).
    + (* pre-decrement *)
      destruct (folds a value) as [[[] v1]|] eqn:Hsa; try discriminate.
      fold_unary IHa Hf Hpc Hsa Hs UPreDec a value v1 pre rest pc st.
    + (* post-decrement *)
      destruct (folds a value) as [[[] v1]|] eqn:Hsa; try discriminate.
      destruct (IHa Hf value v1 pre ([StepUnary UPostDec; StepPostDecGate] ++ rest) pc st)
        as [tr_a Ha]; [rewrite Hpc, <- app_assoc; reflexivity | lia | exact Hsa |].
      exists ((tr_a ++ [Z.of_nat (length pre + code_size a)])
              ++ [Z.of_nat (length pre + code_size a) + 1]%Z).
      replace (Z.of_nat (length pre + (code_size a + 2)))
        with (Z.of_nat (length pre + code_size a) + 1 + 1)%Z by lia.
      pose proof (exec_then_step pc pre (code a (length pre)) (StepPostDecGate :: rest)
                    (StepUnary UPostDec)
                    (mkCtx st (Z.of_nat (length pre))) tr_a (v1 :: st)) as H1.
      pose proof (exec_then_step pc pre (code a (length pre) ++ [StepUnary UPostDec]) rest
                    StepPostDecGate
                    (mkCtx st (Z.of_nat (length pre)))
                    (tr_a ++ [Z.of_nat (length pre + code_size a)]) (v1 :: st)) as H2.
      rewrite length_app, length_code in H2. rewrite length_code in H1. cbn [length] in H2.
      replace (Z.of_nat (length pre + (code_size a + 1)))
        with (Z.of_nat (length pre + code_size a) + 1)%Z in H2 by lia.
      destruct v1; try discriminate; injection Hs as <-;
        (apply H2;
         [rewrite Hpc, <- !app_assoc; reflexivity
         |apply H1; [rewrite Hpc, <- !app_assoc; reflexivity|exact Ha|reflexivity]
         |reflexivity]).
  - (* binary *)
    destruct k; try discriminate; cbn [foldable] in Hf;
      apply andb_true_iff in Hf as [Hfa Hfb]; cbn [simplify] in Hs;
      cbn [code code_size] in *.
    + (* and *)
      destruct (folds a blank) as [[[] fi]|] eqn:Hsa; try discriminate.
      destruct (folds b blank) as [[[] si]|] eqn:Hsb; try discriminate.
      injection Hs as <-.
      assert (Hpca : exists rest', pc = pre ++ code a (length pre) ++ rest').
      { eexists. rewrite Hpc, <- !app_assoc. reflexivity. }
      destruct Hpca as [rest_a Hpca].
      destruct (IHa Hfa blank fi pre rest_a pc st Hpca) as [tr_a Ha]; [lia|exact Hsa|].
      pose proof (ExprAnd_exec isTrue Item_compare sr a b pre rest pc st fi tr_a) as H.
      cbn zeta in H. cbn [code] in H. specialize (H Hpc).
      replace (Z.of_nat (length pre) + Z.of_nat (code_size a))%Z
        with (Z.of_nat (length pre + code_size a)) in H by lia.
      destruct H as (_ & Hfalse & Htrue); [lia|exact Ha|].
      replace (Z.of_nat (length pre + (code_size a + 1 + code_size b + 1)))
        with (Z.of_nat (length pre + code_size a) + 1 + Z.of_nat (code_size b) + 1)%Z
        by lia.
      destruct (isTrue fi) eqn:Hva.
      * destruct (Htrue eq_refl) as [_ Hrun].
        destruct (IHb Hfb blank si (pre ++ code a (length pre)
                             ++ [StepAndGate (Z.of_nat (length pre + code_size a + 1
                                                        + code_size b + 1))])
                    ([StepBinary BAnd] ++ rest) pc st) as [tr_b Hb].
        { rewrite Hpc, !length_app, length_code. cbn [length].
          list_eq. }
        { rewrite !length_app, length_code. cbn [length]. lia. }
        { exact Hsb. }
        rewrite !length_app, length_code in Hb. cbn [length] in Hb.
        replace (Z.of_nat (length pre + (code_size a + 1)))
          with (Z.of_nat (length pre + code_size a) + 1)%Z in Hb by lia.
        replace (Z.of_nat (length pre + (code_size a + 1) + code_size b))
          with (Z.of_nat (length pre + code_size a) + 1 + Z.of_nat (code_size b))%Z
          in Hb by lia.
        eexists. apply (Hrun si tr_b Hb).
      * destruct (Hfalse eq_refl) as [_ Hrun]. eexists. exact Hrun.
    + (* or *)
      destruct (folds a blank) as [[[] fi]|] eqn:Hsa; try discriminate.
      destruct (folds b blank) as [[[] si]|] eqn:Hsb; try discriminate.
      injection Hs as <-.
      assert (Hpca : exists rest', pc = pre ++ code a (length pre) ++ rest').
      { eexists. rewrite Hpc, <- !app_assoc. reflexivity. }
      destruct Hpca as [rest_a Hpca].
      destruct (IHa Hfa blank fi pre rest_a pc st Hpca) as [tr_a Ha]; [lia|exact Hsa|].
      pose proof (ExprOr_exec isTrue Item_compare sr a b pre rest pc st fi tr_a) as H.
      cbn zeta in H. cbn [code] in H. specialize (H Hpc).
      replace (Z.of_nat (length pre) + Z.of_nat (code_size a))%Z
        with (Z.of_nat (length pre + code_size a)) in H by lia.
      destruct H as (Htrue & Hfalse); [lia|exact Ha|].
      replace (Z.of_nat (length pre + (code_size a + 1 + code_size b + 1)))
        with (Z.of_nat (length pre + code_size a) + 1 + Z.of_nat (code_size b) + 1)%Z
        by lia.
      destruct (isTrue fi) eqn:Hva.
      * eexists. exact (Htrue eq_refl).
      * destruct (IHb Hfb blank si (pre ++ code a (length pre)
                             ++ [StepOrGate (Z.of_nat (length pre + code_size a + 1
                                                       + code_size b + 1))])
                    ([StepBinary BOr] ++ rest) pc st) as [tr_b Hb].
        { rewrite Hpc, !length_app, length_code. cbn [length].
          list_eq. }
        { rewrite !length_app, length_code. cbn [length]. lia. }
        { exact Hsb. }
        rewrite !length_app, length_code in Hb. cbn [length] in Hb.
        replace (Z.of_nat (length pre + (code_size a + 1)))
          with (Z.of_nat (length pre + code_size a) + 1)%Z in Hb by lia.
        replace (Z.of_nat (length pre + (code_size a + 1) + code_size b))
          with (Z.of_nat (length pre + code_size a) + 1 + Z.of_nat (code_size b))%Z
          in Hb by lia.
        eexists. apply (Hfalse eq_refl si tr_b Hb).
  - (* conditional *)
    destruct k. cbn [foldable] in Hf.
    apply andb_true_iff in Hf as [Hf Hfc].
    apply andb_true_iff in Hf as [Hfa Hfb]. cbn [simplify] in Hs.
    cbn [code code_size] in *.
    destruct (folds a blank) as [[[] temp]|] eqn:Hsa; try discriminate.
    assert (Hpca : exists rest', pc = pre ++ code a (length pre) ++ rest').
    { eexists. rewrite Hpc, <- !app_assoc. reflexivity. }
    destruct Hpca as [rest_a Hpca].
    destruct (IHa Hfa blank temp pre rest_a pc st Hpca) as [tr_a Ha]; [lia|exact Hsa|].
    pose proof (ExprIIF_exec isTrue Item_compare sr a b c pre rest pc st temp tr_a) as H.
    cbn zeta in H. cbn [code] in H. specialize (H Hpc).
    replace (Z.of_nat (length pre) + Z.of_nat (code_size a))%Z
      with (Z.of_nat (length pre + code_size a)) in H by lia.
    destruct H as (_ & _ & Hfalse & Htrue); [lia|exact Ha|].
    replace (Z.of_nat (length pre + (code_size a + 1 + code_size b + 1 + code_size c)))
      with (Z.of_nat (length pre + code_size a) + 1 + Z.of_nat (code_size b) + 1
            + Z.of_nat (code_size c))%Z by lia.
    destruct (isTrue temp) eqn:Hva.
    + destruct (Htrue eq_refl) as [_ Hrun].
      destruct (IHb Hfb value v (pre ++ code a (length pre)
                           ++ [StepIIF (Z.of_nat (length pre + code_size a + 1
                                                  + code_size b + 1))])
                  ([StepIIFGate (Z.of_nat (length pre + code_size a + 1 + code_size b + 1
                                           + code_size c))]
                   ++ code c (length pre + code_size a + 1 + code_size b + 1) ++ rest)
                  pc st) as [tr_b Hb].
      { rewrite Hpc, !length_app, length_code. cbn [length].
        list_eq. }
      { rewrite !length_app, length_code. cbn [length]. lia. }
      { exact Hs. }
      rewrite !length_app, length_code in Hb. cbn [length] in Hb.
      replace (Z.of_nat (length pre + (code_size a + 1)))
        with (Z.of_nat (length pre + code_size a) + 1)%Z in Hb by lia.
      replace (Z.of_nat (length pre + (code_size a + 1) + code_size b))
        with (Z.of_nat (length pre + code_size a) + 1 + Z.of_nat (code_size b))%Z
        in Hb by lia.
      destruct (Hrun v tr_b Hb) as [_ Hrun']. eexists. exact Hrun'.
    + destruct (Hfalse eq_refl) as [_ Hrun].
      destruct (IHc Hfc value v (pre ++ code a (length pre)
                           ++ [StepIIF (Z.of_nat (length pre + code_size a + 1
                                                  + code_size b + 1))]
                           ++ code b (length pre + code_size a + 1)
                           ++ [StepIIFGate (Z.of_nat (length pre + code_size a + 1
                                                      + code_size b + 1 + code_size c))])
                  rest pc st) as [tr_c Hc].
      { rewrite Hpc.
        repeat first [rewrite length_app | rewrite length_code | progress cbn [length]].
        list_eq. }
      { repeat first [rewrite length_app | rewrite length_code | progress cbn [length]].
        lia. }
      { exact Hs. }
      repeat first [rewrite length_app in Hc | rewrite length_code in Hc
                   | progress cbn [length] in Hc].
      match type of Hc with
      | exec _ (mkCtx _ ?x) _ (mkCtx _ ?y) =>
          replace x
            with (Z.of_nat (length pre + code_size a) + 1 + Z.of_nat (code_size b) + 1)%Z
            in Hc by lia;
          replace y
            with (Z.of_nat (length pre + code_size a) + 1 + Z.of_nat (code_size b) + 1
                  + Z.of_nat (code_size c))%Z in Hc by lia
      end.
      eexists. apply (Hrun v tr_c Hc).
Qed.

(** X9: constant folding agrees with execution.  For an expression
    made of values, [not], negation, increments, decrements, [and], [or]
    and [?:]: whenever [simplify] reports that the expression folded,
    running the steps [precompile] emits for it completes, having pushed
    on the data stack exactly the item [simplify] left in [value]. *)
Theorem simplify_agrees_with_run (e : Expression) (value v : Item)
    (pcode : PCode) (st : list Item) :
  foldable e = true ->
  (PCode_size (precompile e pcode) <= INT32_MAX)%Z ->
  folds e value = Some (true, v) ->
  exists fuel tr,
    run fuel (precompile e pcode) (mkCtx st (PCode_size pcode))
      = (tr, Completed (mkCtx (v :: st) (PCode_size (precompile e pcode)))).
Proof.
  intros Hf Hsize Hs.
  assert (Hlen : PCode_size (precompile e pcode) = Z.of_nat (length pcode + code_size e)).
  { unfold PCode_size. rewrite precompile_code, length_app, length_code. reflexivity. }
  destruct (simplify_exec e Hf value v pcode [] (precompile e pcode) st) as [tr He].
  - rewrite app_nil_r. apply precompile_code.
  - rewrite <- Hlen. exact Hsize.
  - exact Hs.
  - exists (length tr + 1)%nat, tr. rewrite Hlen.
    apply exec_completed; [exact He|]. cbn [m_seqId]. rewrite <- Hlen. lia.
Qed.

End FoldFacts.

Lemma simplify_agrees_with_run_witness :
  let sr := mkSourceRef 1 1 in
  let e := TernaryExpression TIIF sr
             (UnaryExpression UNot sr (ExprValue sr (ItemBool false)))
             (UnaryExpression UPostInc sr (ExprValue sr (ItemInt 41)))
             (ExprValue sr ItemNil) in
  exists fuel tr,
    PCode_apply_ sample_isTrue sample_compare fuel (precompile e []) (mkCtx [] 0)
      = (tr, Completed (mkCtx [ItemInt 42] 8)).
Proof.
  intros sr e.
  apply (simplify_agrees_with_run sample_isTrue sample_compare
           (fun v _ => (true, v)) ItemNil (fun _ => 0%Z)
           (fun v value v' H => eq_sym (f_equal snd H)) e ItemNil (ItemInt 42) [] []).
  - reflexivity.
  - vm_compute. discriminate.
  - reflexivity.
Defined.

(** ** More on serialization *)











(** ** More on the pool *)

Lemma Pool_clear_loop_holds l : forall p fuel,
  holds p l -> (length l <= fuel)%nat ->
  exists p',
    Pool_clear_loop fuel p = Some p'
    /\ m_head p' = None
    /\ m_maxSize p' = m_maxSize p
    /\ deleted p' = reverse l ++ deleted p
    /\ (forall x, x ∈ l -> m_next p' !! x = None)
    /\ (forall x, x ∉ l -> m_next p' !! x = m_next p !! x).
Proof.
  induction l as [|x l IH]; intros p fuel Hp Hfuel.
  - destruct Hp as (Hc & _). cbn in Hc. exists p.
    split; [destruct fuel; cbn; rewrite Hc; reflexivity|].
    split; [exact Hc|]. split; [reflexivity|]. split; [reflexivity|].
    split; [intros y Hy; inversion Hy|reflexivity].
  - destruct fuel as [|fuel]; [cbn in Hfuel; lia|].
    destruct Hp as (Hc & Hnd & Hs & Hb). cbn in Hc.
    destruct Hc as (Hh & n & Hn & Hc). apply NoDup_cons in Hnd as [Hx Hnd].
    cbn [Pool_clear_loop]. rewrite Hh.
    set (p1 := {| m_head := next_of (m_next p) x; m_size := m_size p;
                  m_maxSize := m_maxSize p; m_next := delete x (m_next p);
                  deleted := x :: deleted p |}).
    (* the loop leaves the size for the end: the invariant of the claim
       holds for the pool with the size each pass would give it *)
    set (q := {| m_head := m_head p1; m_size := Z.of_nat (length l);
                 m_maxSize := m_maxSize p1; m_next := m_next p1;
                 deleted := deleted p1 |}).
    assert (Hq : holds q l).
    { unfold holds, q, p1; cbn. cbn [length] in Hb.
      split; [|split; [exact Hnd|split; [reflexivity|lia]]].
      unfold next_of. rewrite Hn. cbn. apply is_chain_delete; assumption. }
    assert (Hsame : forall fuel a b,
               m_head a = m_head b -> m_next a = m_next b ->
               m_maxSize a = m_maxSize b -> deleted a = deleted b ->
               match Pool_clear_loop fuel a, Pool_clear_loop fuel b with
               | Some a', Some b' =>
                   m_head a' = m_head b' /\ m_next a' = m_next b'
                   /\ m_maxSize a' = m_maxSize b' /\ deleted a' = deleted b'
               | None, None => True
               | _, _ => False
               end).
    { clear. induction fuel as [|fuel IHf]; intros a b H1 H2 H3 H4; cbn.
      - rewrite H1. destruct (m_head b) eqn:Hb; [exact I|]. repeat split; congruence.
      - rewrite H1. destruct (m_head b) as [h|] eqn:Hb; [|repeat split; congruence].
        apply IHf; cbn; congruence. }
    destruct (IH q fuel Hq) as (q' & Hrun & Hhead & Hmax & Hdel & Hin & Hout);
      [cbn in Hfuel; lia|].
    specialize (Hsame fuel p1 q eq_refl eq_refl eq_refl eq_refl).
    rewrite Hrun in Hsame.
    destruct (Pool_clear_loop fuel p1) as [p'|]; [|contradiction].
    destruct Hsame as (E1 & E2 & E3 & E4).
    exists p'. split; [reflexivity|].
    split; [congruence|]. split; [rewrite E3, Hmax; reflexivity|].
    split; [rewrite E4, Hdel, reverse_cons, <- app_assoc; reflexivity|].
    rewrite E2. split.
    + intros y Hy. destruct (decide (y ∈ l)) as [Hyl|Hyl]; [apply Hin, Hyl|].
      apply elem_of_cons in Hy as [->|Hy]; [|contradiction].
      rewrite (Hout _ Hyl). cbn. apply lookup_delete_eq.
    + intros y Hy. apply not_elem_of_cons in Hy as [Hne Hy].
      rewrite (Hout _ Hy). cbn. apply lookup_delete_ne. congruence.
Qed.

(** X18: [Pool::clear], run on a pool holding the objects [l] with
    no other call in between, ends after one pass of its loop per object;
    it deletes every object of the free list, from the head on, leaves
    the list empty and the size 0, and does not touch the bound or any
    other object. *)
Theorem Pool_clear_spec (p : Pool) (l : list address) (fuel : nat) :
  holds p l -> (length l <= fuel)%nat ->
  exists p',
    Pool_clear fuel p = Some p'
    /\ holds p' []
    /\ Pool_size p' = 0%Z
    /\ retained p' = []
    /\ m_maxSize p' = m_maxSize p
    /\ deleted p' = reverse l ++ deleted p
    /\ (forall x, x ∈ l -> m_next p' !! x = None)
    /\ (forall x, x ∉ l -> m_next p' !! x = m_next p !! x).
Proof.
  intros Hp Hfuel.
  destruct (Pool_clear_loop_holds l p fuel Hp Hfuel)
    as (p1 & Hrun & Hhead & Hmax & Hdel & Hin & Hout).
  unfold Pool_clear. rewrite Hrun. eexists. split; [reflexivity|].
  destruct Hp as (_ & _ & _ & Hb).
  split.
  { unfold holds; cbn. rewrite Hhead, Hmax. repeat split; try lia. constructor. }
  split; [reflexivity|]. split; [reflexivity|]. cbn.
  repeat split; assumption.
Qed.

Lemma Pool_clear_spec_witness :
  let p := foldl (fun p d => Pool_release d p) (Pool_new 2 ∅) [1; 2; 3]%positive in
  exists p', Pool_clear 2 p = Some p' /\ Pool_size p' = 0%Z
             /\ deleted p' = [1; 2; 3]%positive.
Proof.
  intros p.
  destruct (Pool_clear_spec p [2; 1]%positive 2) as (p' & H1 & _ & H2 & _ & _ & H3 & _).
  - unfold holds. cbn. repeat split.
    + exists (Some 1%positive). split; [reflexivity|]. split; [reflexivity|].
      exists None. split; reflexivity.
    + apply (bool_decide_unpack _). vm_compute. reflexivity.
    + discriminate.
    + discriminate.
  - cbn. lia.
  - exists p'. split; [exact H1|]. split; [exact H2|exact H3].
Defined.

Lemma Pool_get_n_drains l : forall p k,
  holds p l ->
  snd (Pool_get_n (length l + k) p) = map Some l ++ replicate k None
  /\ holds (fst (Pool_get_n (length l + k) p)) []
  /\ deleted (fst (Pool_get_n (length l + k) p)) = deleted p
  /\ m_maxSize (fst (Pool_get_n (length l + k) p)) = m_maxSize p.
Proof.
  induction l as [|x l IH]; intros p k Hp.
  - cbn [length Nat.add map app]. induction k as [|k IHk].
    + cbn. auto.
    + cbn [Pool_get_n]. rewrite (Pool_get_empty p Hp).
      destruct (Pool_get_n k p) as [p2 rs]. cbn in *.
      destruct IHk as (-> & H2 & H3 & H4). auto.
  - cbn [length Nat.add Pool_get_n].
    destruct (Pool_get_holds p x l Hp) as (Hr & Hp1 & Hd1).
    assert (Hm1 : m_maxSize (fst (Pool_get p)) = m_maxSize p).
    { unfold Pool_get. destruct (m_head p); reflexivity. }
    destruct (Pool_get p) as [p1 r]. cbn in Hr, Hp1, Hd1, Hm1. subst r.
    specialize (IH p1 k Hp1).
    destruct (Pool_get_n (length l + k) p1) as [p2 rs]. cbn in *.
    destruct IH as (-> & H2 & H3 & H4). repeat split; try congruence; apply H2.
Qed.

(** X19: the pool is a stack.  After distinct objects are released
    into a pool, [get] hands back the ones that were kept, the last
    released first, then the objects the pool held before; once the pool
    is empty every further [get] returns the null pointer and the size
    stays 0. *)
Theorem Pool_release_get_lifo (p : Pool) (l objs : list address) (k : nat) :
  holds p l -> NoDup (objs ++ l) ->
  let room := Z.to_nat (m_maxSize p - m_size p) in
  let p1 := foldl (fun p d => Pool_release d p) p objs in
  let kept := take room objs in
  let (p2, got) := Pool_get_n (length kept + length l + k) p1 in
  got = map Some (reverse kept ++ l) ++ replicate k None
  /\ holds p2 [] /\ Pool_size p2 = 0%Z.
Proof.
  intros Hp Hnd room p1 kept.
  destruct (release_all_holds objs p l Hp Hnd) as (Hp1 & _ & _).
  fold room p1 kept in Hp1.
  pose proof (Pool_get_n_drains _ p1 k Hp1) as H.
  rewrite length_app, length_reverse in H.
  destruct (Pool_get_n (length kept + length l + k) p1) as [p2 got]. cbn in H.
  destruct H as (H1 & H2 & _). split; [exact H1|]. split; [exact H2|].
  destruct H2 as (_ & _ & Hs & _). exact Hs.
Qed.

Lemma Pool_release_get_lifo_witness :
  snd (Pool_get_n 3 (foldl (fun p d => Pool_release d p) (Pool_new 2 ∅) [1; 2; 3]%positive))
    = [Some 2; Some 1; None]%positive.
Proof.
  pose proof (Pool_release_get_lifo (Pool_new 2 ∅) [] [1; 2; 3]%positive 1) as H.
  cbn zeta in H.
  change (length (take (Z.to_nat (m_maxSize (Pool_new 2 ∅) - m_size (Pool_new 2 ∅)))
                    [1; 2; 3]%positive) + length (@nil address) + 1)%nat
    with 3%nat in H.
  destruct (Pool_get_n 3 _) as [p2 got].
  apply H.
  - apply Pool_new_holds. unfold UINT32_MAX. lia.
  - apply (bool_decide_unpack _). vm_compute. reflexivity.
Defined.

(** X20: no object is lost or handed out twice.  Through any run
    of [release] and [get] in which no object is released while the pool
    holds it, the objects released, together with those the pool held and
    those deleted before, are, each exactly once, the objects the pool
    holds at the end, those deleted and those [get] handed back. *)
Theorem Pool_conserves (ops : list PoolOp) : forall (p : Pool) (l : list address),
  holds p l -> well_used ops p ->
  released ops ++ l ++ deleted p
    ≡ₚ retained (Pool_run ops p) ++ deleted (Pool_run ops p) ++ handed_back ops p.
Proof.
  induction ops as [|op ops IH]; intros p l Hp Hw.
  - cbn. rewrite (retained_holds p l Hp), app_nil_r. reflexivity.
  - destruct Hw as [Hop Hw]. cbn [Pool_run foldl handed_back].
    change (foldl (fun p op => Pool_step op p) (Pool_step op p) ops)
      with (Pool_run ops (Pool_step op p)).
    destruct op as [d|].
    + rewrite (retained_holds p l Hp) in Hop. cbn [released omap Pool_step app] in *.
      change (omap _ ops) with (released ops).
      destruct (Z.lt_decidable (m_size p) (m_maxSize p)) as [Hlt|Hge].
      * destruct (Pool_release_room p l d Hp Hop Hlt) as [Hp' Hdel].
        rewrite <- (IH _ _ Hp' Hw), Hdel. solve_Permutation.
      * destruct (Pool_release_full p l d Hp Hop Hge) as [Hp' Hdel].
        rewrite <- (IH _ _ Hp' Hw), Hdel. solve_Permutation.
    + cbn [released omap Pool_step] in *. change (omap _ ops) with (released ops).
      destruct l as [|x l].
      * rewrite (Pool_get_empty p Hp) in *. cbn [fst snd app].
        apply (IH _ _ Hp Hw).
      * destruct (Pool_get_holds p x l Hp) as (Hr & Hp' & Hdel).
        pose proof (IH _ _ Hp' Hw) as E. rewrite Hdel in E. rewrite Hr.
        transitivity (x :: (released ops ++ l ++ deleted p)); [solve_Permutation|].
        rewrite E. solve_Permutation.
Qed.

Lemma Pool_conserves_witness :
  let ops := [OpRelease 1; OpRelease 2; OpGet; OpRelease 3; OpRelease 4]%positive in
  [1; 2; 3; 4]%positive
    ≡ₚ retained (Pool_run ops (Pool_new 2 ∅)) ++ deleted (Pool_run ops (Pool_new 2 ∅))
       ++ handed_back ops (Pool_new 2 ∅).
Proof.
  intros ops.
  apply (Pool_conserves ops (Pool_new 2 ∅) []).
  - apply Pool_new_holds. unfold UINT32_MAX. lia.
  - cbn. repeat split; apply (bool_decide_unpack _); vm_compute; reflexivity.
Defined.

(** ** More on the [global] statement *)

Lemma alreadyAdded_elem_of name symbols :
  alreadyAdded name symbols = true <-> name ∈ symbols.
Proof.
  induction symbols as [|sym rest IH]; cbn.
  - split; [discriminate|intros H; inversion H].
  - destruct (String.eqb sym name) eqn:He.
    + apply String.eqb_eq in He as ->. split; [intros _; apply list_elem_of_here|reflexivity].
    + apply String.eqb_neq in He. rewrite IH, elem_of_cons. split; [auto|].
      intros [->|H]; [contradiction|exact H].
Qed.

Lemma addSymbol_NoDup name symbols :
  NoDup symbols ->
  NoDup (snd (addSymbol name symbols))
  /\ (forall x, x ∈ snd (addSymbol name symbols) <-> x = name \/ x ∈ symbols).
Proof.
  intros Hnd. unfold addSymbol.
  destruct (alreadyAdded name symbols) eqn:Ha; cbn.
  - apply alreadyAdded_elem_of in Ha. split; [exact Hnd|].
    intros x. split; [auto|]. intros [->|H]; assumption.
  - assert (Hn : name ∉ symbols).
    { intros Hin. apply alreadyAdded_elem_of in Hin. congruence. }
    split.
    + apply NoDup_app. split; [exact Hnd|]. split; [|apply NoDup_singleton].
      intros x Hx Hx'. apply list_elem_of_singleton in Hx' as ->. contradiction.
    + intros x. rewrite elem_of_app, list_elem_of_singleton. tauto.
Qed.

(** X21: [addSymbol] refuses, with [false] and the list left as
    it is, exactly the names already listed, and appends any other name
    at the end; so a list built by [addSymbol] alone never names a symbol
    twice, and holds every name it was given, in the order of their first
    occurrence. *)
Theorem addSymbol_spec (name : string) (names symbols : list string) :
  NoDup symbols ->
  (fst (addSymbol name symbols) = false <-> name ∈ symbols)
  /\ (name ∈ symbols -> snd (addSymbol name symbols) = symbols)
  /\ (name ∉ symbols -> snd (addSymbol name symbols) = symbols ++ [name])
  /\ NoDup (addSymbols names symbols)
  /\ (forall x, x ∈ addSymbols names symbols <-> x ∈ names \/ x ∈ symbols)
  /\ (NoDup names -> (forall x, x ∈ names -> x ∉ symbols) ->
      addSymbols names symbols = symbols ++ names).
Proof.
  intros Hnd.
  assert (Hcase : forall n s, (n ∈ s -> addSymbol n s = (false, s))
                              /\ (n ∉ s -> addSymbol n s = (true, s ++ [n]))).
  { intros n s. unfold addSymbol. destruct (alreadyAdded n s) eqn:Ha.
    - apply alreadyAdded_elem_of in Ha. split; [reflexivity|contradiction].
    - split; [|reflexivity]. intros Hin. apply alreadyAdded_elem_of in Hin. congruence. }
  split; [|split; [|split; [|split; [|split]]]].
  - destruct (decide (name ∈ symbols)) as [Hin|Hnin].
    + rewrite (proj1 (Hcase _ _) Hin). tauto.
    + rewrite (proj2 (Hcase _ _) Hnin). cbn. split; [discriminate|contradiction].
  - intros Hin. rewrite (proj1 (Hcase _ _) Hin). reflexivity.
  - intros Hnin. rewrite (proj2 (Hcase _ _) Hnin). reflexivity.
  - revert symbols Hnd. induction names as [|n names IH]; intros symbols Hnd; cbn.
    + exact Hnd.
    + apply IH. apply addSymbol_NoDup, Hnd.
  - revert symbols Hnd. induction names as [|n names IH]; intros symbols Hnd x; cbn.
    + split; [auto|]. intros [H|H]; [inversion H|exact H].
    + unfold addSymbols in IH. rewrite IH by (apply addSymbol_NoDup, Hnd).
      rewrite (proj2 (addSymbol_NoDup n symbols Hnd)), elem_of_cons. tauto.
  - revert symbols Hnd. induction names as [|n names IH]; intros symbols Hnd Hn Hd; cbn.
    + rewrite app_nil_r. reflexivity.
    + apply NoDup_cons in Hn as [Hn1 Hn2].
      assert (Hns : n ∉ symbols) by (apply Hd, list_elem_of_here).
      rewrite (proj2 (Hcase _ _) Hns). cbn [snd].
      unfold addSymbols in IH. rewrite IH.
      * rewrite <- app_assoc. reflexivity.
      * pose proof (proj1 (addSymbol_NoDup n symbols Hnd)) as Hn'.
        rewrite (proj2 (Hcase _ _) Hns) in Hn'. exact Hn'.
      * exact Hn2.
      * intros x Hx Hin. apply elem_of_app in Hin as [Hin|Hin].
        -- apply (Hd x); [apply list_elem_of_further, Hx|exact Hin].
        -- apply list_elem_of_singleton in Hin as ->. contradiction.
Qed.

Lemma addSymbol_spec_witness :
  addSymbols ["a"; "b"; "a"; "c"; "b"]%string [] = ["a"; "b"; "c"]%string
  /\ NoDup (addSymbols ["a"; "b"; "a"; "c"; "b"]%string []).
Proof.
  split; [reflexivity|].
  apply (proj1 (proj2 (proj2 (proj2
           (addSymbol_spec "a" ["a"; "b"; "a"; "c"; "b"]%string [] NoDup_nil_2))))).
Defined.

Lemma restore_names_app names : forall symbols rest,
  restore_names (length names) (map SName names ++ rest) symbols
    = Some (symbols ++ names, rest).
Proof.
  induction names as [|n names IH]; intros symbols rest; cbn.
  - rewrite app_nil_r. reflexivity.
  - rewrite IH, <- app_assoc. reflexivity.
Qed.

(** X22: [restore] reads back what [store] wrote, up to the end of
    it, and appends the names to the symbols the statement already has,
    without the check [addSymbol] makes: restored into a blank statement
    the list is the stored one; restored into a statement that lists one
    of the names already, that name is listed twice.  The count is written
    as a [uint32], so the list must be shorter than 2^32. *)
Theorem StmtGlobal_store_restore (symbols already : list string) (rest : list StoreDatum) :
  (Z.of_nat (length symbols) <= UINT32_MAX)%Z ->
  StmtGlobal_restore (StmtGlobal_store symbols ++ rest) already
    = Some (already ++ symbols, rest)
  /\ StmtGlobal_restore (StmtGlobal_store symbols ++ rest) [] = Some (symbols, rest)
  /\ (forall name, name ∈ symbols -> name ∈ already ->
        exists l, StmtGlobal_restore (StmtGlobal_store symbols ++ rest) already
                    = Some (l, rest) /\ ~ NoDup l).
Proof.
  intros Hlen.
  assert (H : forall al, StmtGlobal_restore (StmtGlobal_store symbols ++ rest) al
                         = Some (al ++ symbols, rest)).
  { intros al. unfold StmtGlobal_restore, StmtGlobal_store. cbn [app].
    rewrite uint32_wrap_id by lia. rewrite Nat2Z.id. apply restore_names_app. }
  split; [apply H|]. split; [apply H|].
  intros name Hs Ha. eexists. split; [apply H|].
  intros Hnd. apply NoDup_app in Hnd as (_ & Hdis & _). exact (Hdis name Ha Hs).
Qed.

Lemma StmtGlobal_store_restore_witness :
  StmtGlobal_restore (StmtGlobal_store ["g"; "h"]%string ++ [SCount 7]) ["g"%string]
    = Some (["g"; "g"; "h"]%string, [SCount 7]).
Proof.
  apply (proj1 (StmtGlobal_store_restore ["g"; "h"]%string ["g"%string] [SCount 7]
                  ltac:(unfold UINT32_MAX; cbn; lia))).
Defined.



(** X24: where every listed name has a global variable, the order
    of the list and the repetitions in it do not matter: two statements
    listing the same names leave the same context, and applying the
    statement a second time changes nothing but the code stack. *)
Theorem StmtGlobal_apply_order (line line' : Z) (symbols symbols' : list string)
    (ctx : GlobalContext) :
  Forall (fun sym => is_Some (globals ctx !! sym)) symbols ->
  (forall sym, sym ∈ symbols <-> sym ∈ symbols') ->
  StmtGlobal_apply_ line symbols ctx = StmtGlobal_apply_ line' symbols' ctx
  /\ bindings (StmtGlobal_apply_ line symbols (StmtGlobal_apply_ line symbols ctx))
     = bindings (StmtGlobal_apply_ line symbols ctx).
Proof.
  intros Hall Hsame.
  assert (Hall' : Forall (fun sym => is_Some (globals ctx !! sym)) symbols').
  { apply Forall_forall. intros x Hx. apply Hsame in Hx.
    exact (proj1 (Forall_forall _ _) Hall x Hx). }
  pose proof (StmtGlobal_loop_bound line symbols (popCode ctx) Hall) as H.
  pose proof (StmtGlobal_loop_bound line' symbols' (popCode ctx) Hall') as H'.
  cbn zeta in H, H'.
  destruct H as (H1 & H2 & H3 & H4 & H5 & H6 & H7).
  destruct H' as (H1' & H2' & H3' & H4' & H5' & H6' & H7').
  split.
  - unfold StmtGlobal_apply_.
    destruct (StmtGlobal_loop line symbols (popCode ctx)) as [d g l b f r].
    destruct (StmtGlobal_loop line' symbols' (popCode ctx)) as [d' g' l' b' f' r'].
    cbn in *. subst. f_equal. apply map_eq. intros x.
    destruct (decide (x ∈ symbols)) as [Hin|Hnin].
    + rewrite (H6 _ Hin), (H6' _ (proj1 (Hsame x) Hin)). reflexivity.
    + rewrite (H7 _ Hnin). rewrite H7'; [reflexivity|].
      intros Hin. apply Hnin, Hsame, Hin.
  - set (ctx1 := StmtGlobal_apply_ line symbols ctx).
    assert (Hg : globals (popCode ctx1) = globals ctx).
    { unfold ctx1, StmtGlobal_apply_. cbn. exact H2. }
    assert (Hall1 : Forall (fun sym => is_Some (globals (popCode ctx1) !! sym)) symbols).
    { rewrite Hg. exact Hall. }
    pose proof (StmtGlobal_loop_bound line symbols (popCode ctx1) Hall1) as K.
    cbn zeta in K. destruct K as (_ & _ & _ & _ & _ & K6 & K7).
    apply map_eq. intros x. unfold StmtGlobal_apply_ at 1.
    destruct (decide (x ∈ symbols)) as [Hin|Hnin].
    + rewrite (K6 _ Hin), Hg. unfold ctx1, StmtGlobal_apply_. rewrite (H6 _ Hin).
      reflexivity.
    + rewrite (K7 _ Hnin). reflexivity.
Qed.

Lemma StmtGlobal_apply_order_witness :
  let ctx := mkGlobalContext 1 {[ "g"%string := 7%positive; "h"%string := 8%positive ]}
               ∅ ∅ (mkFunction "f" None) None in
  StmtGlobal_apply_ 3 ["g"; "h"; "g"]%string ctx = StmtGlobal_apply_ 5 ["h"; "g"]%string ctx.
Proof.
  intros ctx.
  apply (StmtGlobal_apply_order 3 5 ["g"; "h"; "g"]%string ["h"; "g"]%string ctx).
  - repeat constructor; eexists; reflexivity.
  - intros sym. rewrite !elem_of_cons. split; intros H; tauto.
Defined.

Lemma String_append_assoc (a b c : string) :
  ((a ++ b) ++ c)%string = (a ++ (b ++ c))%string.
Proof.
  induction a as [|ch a IH]; [reflexivity|].
  change (String ch ((a ++ b) ++ c) = String ch (a ++ (b ++ c)))%string.
  f_equal. exact IH.
Qed.

Lemma describe_symbols_concat symbols : forall sym tgt,
  describe_symbols true symbols (tgt ++ sym)%string
    = (tgt ++ String.concat ", " (sym :: symbols))%string.
Proof.
  induction symbols as [|s symbols IH]; intros sym tgt.
  - reflexivity.
  - cbn [describe_symbols]. rewrite IH.
    change (String.concat ", " (sym :: s :: symbols))
      with (sym ++ ", " ++ String.concat ", " (s :: symbols))%string.
    rewrite !String_append_assoc. reflexivity.
Qed.

(** X25: the description of a [global] statement that lists
    symbols is the indentation ([depth] times the indent of a step, in
    blanks), the keyword and the names separated by a comma and a blank;
    no separator precedes the first name or follows the last. *)
Theorem StmtGlobal_describeTo_spec (depthIndent depth : nat) (symbols : list string) :
  symbols <> [] ->
  StmtGlobal_describeTo depthIndent depth symbols
    = (String_replicate (depth * depthIndent) " " ++ "global "
       ++ String.concat ", " symbols)%string.
Proof.
  intros Hne. destruct symbols as [|sym symbols]; [contradiction|].
  unfold StmtGlobal_describeTo. cbn [describe_symbols].
  rewrite describe_symbols_concat, String_append_assoc. reflexivity.
Qed.

Lemma StmtGlobal_describeTo_spec_witness :
  StmtGlobal_describeTo 3 1 ["a"; "b"; "c"]%string = "   global a, b, c"%string.
Proof.
  apply (StmtGlobal_describeTo_spec 3 1 ["a"; "b"; "c"]%string). discriminate.
Defined.
